(** * DeepTrace: the page inspector, the run store and the question plan

    A shallow embedding of the concurrent, depth-bounded page inspector
    ([inspector.js]: lines 1-373 of [deeptrace/inspector.js]), of the run
    store it is meant to feed ([storage.js]: lines 374-670 of the same file)
    and of the deterministic choices of the question generator
    ([questioner.js] and [refiner.js] in [unnamed/part_001]), with their
    properties.

    Layout: the definitions come first, one module per component of the
    source ([Semaphore], [Fetcher], [Url], [Storage], [Inspector],
    [Questions]), then [Examples] for sample environments; the lemmas and
    theorems follow, component by component.

    Asynchronous code is rendered as follows.  An [async] function is cut at
    its [await]s; the code between two [await]s runs without interleaving
    (JavaScript is run-to-completion), so it is one transition of a state
    machine.  The environment (the network, the clock, the stop callback, the
    faults of the file system) is an explicit argument. *)

From Stdlib Require Import ZArith Lia Ascii String List Bool Sorted.
From stdpp Require Import base gmap sets list strings pretty.

Open Scope Z_scope.

(* [set_solver] clears hypotheses by name and says so when they are gone. *)
Set Warnings "-clear-no-such-hyp".

(* ===================================================================== *)
(** * Part I: definitions                                                 *)
(* ===================================================================== *)

(** ** The concurrency governor: [class Semaphore] (inspector.js, 38-61) *)

Module Semaphore.

(** [queue] holds the [resolve] callbacks of the blocked callers of
    [acquire]; a callback is identified with the caller it wakes. *)
Record t : Type := Make {
  max : Z;
  current : Z;
  queue : list nat
}.

(** [constructor(max)] *)
Definition new (m : Z) : t := Make m 0 [].

(** [acquire()], called by [who].  The boolean tells whether the slot was
    granted at once ([true]) or the caller was parked on the queue. *)
Definition acquire (who : nat) (s : t) : t * bool :=
  if current s <? max s
  then (Make (max s) (current s + 1) (queue s), true)
  else (Make (max s) (current s) (queue s ++ [who]), false).

(** [release()].  The result names the caller whose [resolve] was invoked. *)
Definition release (s : t) : t * option nat :=
  let c := current s - 1 in
  match queue s with
  | [] => (Make (max s) c [], None)
  | w :: q => (Make (max s) (c + 1) q, Some w)
  end.

(** *** Histories of operations

    A history is a list of calls.  Next to the semaphore we keep what an
    observer would write down: who holds a slot, in which order callers
    blocked, and in which order blocked callers were woken. *)

Inductive op : Type :=
| Acquire (who : nat)
| Release (who : nat).

Record observed : Type := Obs {
  sem : t;
  holders : list nat;
  blocked : list nat;
  woken : list nat
}.

Definition start (m : Z) : observed := Obs (new m) [] [] [].

(** Removes the first occurrence of [w]; [None] when [w] is not there. *)
Fixpoint take_out (w : nat) (l : list nat) : option (list nat) :=
  match l with
  | [] => None
  | x :: l' =>
      if Nat.eqb x w then Some l'
      else match take_out w l' with
           | Some r => Some (x :: r)
           | None => None
           end
  end.

(** One call.  A [Release] by somebody who holds no slot is outside the
    protocol of [processUrl] (every [release] there follows the caller's own
    [acquire]); such a history is rejected with [None]. *)
Definition apply (o : op) (st : observed) : option observed :=
  match o with
  | Acquire w =>
      let '(s', granted) := acquire w (sem st) in
      if granted
      then Some (Obs s' (holders st ++ [w]) (blocked st) (woken st))
      else Some (Obs s' (holders st) (blocked st ++ [w]) (woken st))
  | Release w =>
      match take_out w (holders st) with
      | None => None
      | Some hs =>
          match release (sem st) with
          | (s', None) => Some (Obs s' hs (blocked st) (woken st))
          | (s', Some v) => Some (Obs s' (hs ++ [v]) (blocked st) (woken st ++ [v]))
          end
      end
  end.

Fixpoint exec (ops : list op) (st : observed) : option observed :=
  match ops with
  | [] => Some st
  | o :: ops' =>
      match apply o st with
      | Some st' => exec ops' st'
      | None => None
      end
  end.

(** The same history with nobody watching: any call is accepted, also a
    [release] by a caller that holds nothing. *)
Fixpoint replay (ops : list op) (s : t) : t :=
  match ops with
  | [] => s
  | Acquire w :: ops' => replay ops' (acquire w s).1
  | Release _ :: ops' => replay ops' (release s).1
  end.

(** What one call preserves: the counter counts the holders, it stays within
    the capacity, the queue is the not-yet-woken suffix of the blocked
    callers, and somebody waits only when every slot is taken. *)
Definition sem_inv (m : Z) (st : observed) : Prop :=
  max (sem st) = m /\
  current (sem st) = Z.of_nat (length (holders st)) /\
  current (sem st) <= m /\
  blocked st = woken st ++ queue (sem st) /\
  (queue (sem st) <> [] -> current (sem st) = m).

End Semaphore.

(** ** The fetcher: [fetchWithTimeout] (inspector.js, 98-190) *)

Module Fetcher.

Definition MAX_TEXT_LENGTH : Z := 50000.

(** The [Error]s the promise is rejected with: ['Aborted'], ['Timeout'],
    [`HTTP ${statusCode}`], ['Not HTML'], ['Response too large'], and the
    error of an ['error'] event of the request or of the response. *)
Inductive error : Type :=
| Aborted
| Timeout
| HttpStatus (code : Z)
| NotHTML
| ResponseTooLarge
| Network.

Inductive result : Type :=
| Resolved (data : string)
| Rejected (e : error).

(** What happens on the response stream once the headers are accepted, in
    order of arrival.  [Data ab chunk] is a ['data'] event, [ab] being
    [abortSignal.aborted] when its handler runs. *)
Inductive body_event : Type :=
| Data (abortedNow : bool) (chunk : string)
| End
| BodyError
| TimerFired
| AbortSignalled.

(** The response callback's view of [res]; [abortedAtResponse] is
    [abortSignal.aborted] when the callback runs. *)
Record response : Type := Response {
  statusCode : Z;
  location : option string;
  contentType : option string;
  abortedAtResponse : bool;
  body : list body_event
}.

Inductive outcome : Type :=
| TimerFiredFirst
| RequestError
| AbortSignalledFirst
| Responded (r : response).

(** One [protocol.get]: [abortedAtCall] is [abortSignal.aborted] on entry. *)
Record request : Type := Request {
  abortedAtCall : bool;
  answer : outcome
}.

(** [String.prototype.includes] *)
Fixpoint includes (needle hay : string) : bool :=
  String.prefix needle hay ||
  match hay with
  | EmptyString => false
  | String _ hay' => includes needle hay'
  end.

(** A header value in a condition: [undefined] and [''] are falsy. *)
Definition truthy (h : option string) : bool :=
  match h with
  | Some (String _ _) => true
  | _ => false
  end.

(** [res.headers['content-type'] || ''] *)
Definition or_empty (h : option string) : string :=
  match h with
  | Some s => s
  | None => EmptyString
  end.

Definition strlen (s : string) : Z := Z.of_nat (String.length s).

(** The ['data'], ['end'] and ['error'] handlers, [data] being the text
    accumulated so far.  The promise settles at the first [resolve] or
    [reject]; when the stream stays silent the timer set on entry fires. *)
Fixpoint read_body (data : string) (events : list body_event) : result :=
  match events with
  | [] => Rejected Timeout
  | Data ab chunk :: rest =>
      if ab then Rejected Aborted
      else
        let data' := (data +:+ chunk)%string in
        if strlen data' >? MAX_TEXT_LENGTH * 2
        then Rejected ResponseTooLarge
        else read_body data' rest
  | End :: _ => Resolved data
  | BodyError :: _ => Rejected Network
  | TimerFired :: _ => Rejected Timeout
  | AbortSignalled :: _ => Rejected Aborted
  end.

Definition is_redirect (r : response) : bool :=
  (300 <=? statusCode r) && (statusCode r <? 400) && truthy (location r).

(** [fetchWithTimeout(url, timeout, abortSignal)].  The URLs are taken to
    parse ([new URL(url)] and [new URL(location, url)] do not throw), and what
    they are plays no part in the outcome.  The network is the list
    of the answers to the successive requests of one call: the first
    request and one more for each redirect followed.  The source puts no
    bound on the number of redirects; the recursion here is on the script,
    and a request the script has no answer for gets none, so its timer
    fires. *)
Fixpoint fetchWithTimeout (net : list request) : result :=
  match net with
  | [] => Rejected Timeout
  | rq :: rest =>
      if abortedAtCall rq then Rejected Aborted
      else
        match answer rq with
        | TimerFiredFirst => Rejected Timeout
        | RequestError => Rejected Network
        | AbortSignalledFirst => Rejected Aborted
        | Responded res =>
            if abortedAtResponse res then Rejected Aborted
            else if is_redirect res then fetchWithTimeout rest
            else if negb (statusCode res =? 200)
                 then Rejected (HttpStatus (statusCode res))
            else if negb (includes "text/html" (or_empty (contentType res)))
                 then Rejected NotHTML
            else read_body EmptyString (body res)
        end
  end.

(** A request that is answered, without cancellation, by a redirect that
    [fetchWithTimeout] follows. *)
Definition followed_redirect (rq : request) : Prop :=
  abortedAtCall rq = false /\
  exists res, answer rq = Responded res /\
              abortedAtResponse res = false /\
              is_redirect res = true.



(** The chunks of the ['data'] events that come before the first event of
    another kind, put together. *)
Fixpoint received (events : list body_event) : string :=
  match events with
  | Data _ chunk :: rest => (chunk +:+ received rest)%string
  | _ => EmptyString
  end.

End Fetcher.

(** ** The URL normaliser: [normalizeUrl] (inspector.js, 63-87)

    [normalizeUrl] is written against the platform classes [URL] and
    [URLSearchParams].  They are modelled here on a fragment of the URL
    syntax on which the parser copies its input into the record field by
    field:

      [("http" | "https") "://" host [path] ["?" query] ["#" fragment]]

    - host: labels separated by single dots, each label a lower-case letter
      followed by lower-case letters and digits (no port, no credentials, no
      IP address, no upper case, no punycode);
    - path: empty, or ["/"] followed by letters, digits and [/ - _ ~ .], no
      ["."] directly after a ["/"] (no dot segments) and no ["%"];
    - query: printable ASCII without space and without the five characters
      the parser would escape;
    - fragment: printable ASCII without space.

    A string without [":"] has no scheme: [new URL] throws on it.  Every
    other string is outside the model, and so is a query that decodes to a
    byte above 127; for these the functions below answer [None]. *)

Module Url.

Definition code (c : ascii) : N := N_of_ascii c.

Definition between (lo hi : N) (c : ascii) : bool :=
  (lo <=? code c)%N && (code c <=? hi)%N.

Definition is_lower : ascii -> bool := between 97 122.
Definition is_upper : ascii -> bool := between 65 90.
Definition is_digit : ascii -> bool := between 48 57.
Definition is_alnum (c : ascii) : bool := is_lower c || is_upper c || is_digit c.

Definition is_char (d c : ascii) : bool := Ascii.eqb c d.

Definition one_of (ds : list ascii) (c : ascii) : bool :=
  existsb (fun d => Ascii.eqb c d) ds.

(** The longest prefix without a character in [stop], and the rest. *)
Fixpoint break (stop : ascii -> bool) (l : list ascii)
    : list ascii * list ascii :=
  match l with
  | [] => ([], [])
  | c :: r =>
      if stop c then ([], l)
      else let '(a, b) := break stop r in (c :: a, b)
  end.

(** *** The record behind a [URL] object *)

Record URL : Type := MkURL {
  scheme : list ascii;
  host : list ascii;
  pathname : list ascii;
  query : option (list ascii);
  fragment : option (list ascii)
}.

Inductive parsed : Type :=
| Parsed (u : URL)
| Invalid        (* [new URL] throws *)
| Unmodelled.

Definition http_ : list ascii := list_ascii_of_string "http://".
Definition https_ : list ascii := list_ascii_of_string "https://".

Fixpoint strip_prefix (p l : list ascii) : option (list ascii) :=
  match p, l with
  | [], _ => Some l
  | c :: p', d :: l' => if Ascii.eqb c d then strip_prefix p' l' else None
  | _ :: _, [] => None
  end.

Fixpoint host_ok_from (label_start : bool) (h : list ascii) : bool :=
  match h with
  | [] => negb label_start
  | c :: r =>
      if label_start then is_lower c && host_ok_from false r
      else if is_char "." c then host_ok_from true r
      else (is_lower c || is_digit c) && host_ok_from false r
  end.

Definition host_ok (h : list ascii) : bool := host_ok_from true h.

Definition path_char (c : ascii) : bool :=
  is_alnum c || one_of ["/"; "-"; "_"; "~"; "."]%char c.

Fixpoint path_ok_from (after_slash : bool) (p : list ascii) : bool :=
  match p with
  | [] => true
  | c :: r =>
      path_char c && negb (after_slash && is_char "." c) &&
      path_ok_from (is_char "/" c) r
  end.

Definition path_ok (p : list ascii) : bool :=
  match p with
  | [] => true
  | c :: r => is_char "/" c && path_ok_from true r
  end.

Definition printable (c : ascii) : bool := between 33 126 c.

Definition query_char (c : ascii) : bool :=
  printable c && negb (one_of ["034"; "#"; "<"; ">"; "'"]%char c).

(** [new URL(urlString)] *)
Definition parse (s : list ascii) : parsed :=
  if negb (existsb (is_char ":") s) then Invalid
  else
    match
      match strip_prefix http_ s with
      | Some rest => Some (list_ascii_of_string "http", rest)
      | None =>
          match strip_prefix https_ s with
          | Some rest => Some (list_ascii_of_string "https", rest)
          | None => None
          end
      end
    with
    | None => Unmodelled
    | Some (sch, rest) =>
        let '(h, rest1) := break (one_of ["/"; "?"; "#"]%char) rest in
        let '(p, rest2) := break (one_of ["?"; "#"]%char) rest1 in
        let '(q, f) :=
          match rest2 with
          | [] => (None, None)
          | c :: rest3 =>
              if is_char "?" c then
                let '(q, rest4) := break (is_char "#") rest3 in
                (Some q, match rest4 with [] => None | _ :: f => Some f end)
              else (None, Some rest3)
          end in
        if host_ok h && path_ok p &&
           forallb query_char (default [] q) &&
           forallb printable (default [] f)
        then Parsed (MkURL sch h
                       (match p with [] => ["/"%char] | _ => p end) q f)
        else Unmodelled
    end.

(** [url.toString()] *)
Definition href (u : URL) : list ascii :=
  scheme u ++ list_ascii_of_string "://" ++ host u ++ pathname u ++
  match query u with Some q => "?"%char :: q | None => [] end ++
  match fragment u with Some f => "#"%char :: f | None => [] end.

(** [url.hash = ''] *)
Definition clear_hash (u : URL) : URL :=
  MkURL (scheme u) (host u) (pathname u) (query u) None.

(** [url.search], the getter: [''] when the query is null or empty. *)
Definition search (u : URL) : list ascii :=
  match query u with
  | None | Some [] => []
  | Some q => "?"%char :: q
  end.

(** [url.search = value], for a [value] that is empty or is the output of
    the serialiser below (which needs no escaping in a query). *)
Definition set_search (value : list ascii) (u : URL) : URL :=
  MkURL (scheme u) (host u) (pathname u)
        (match value with [] => None | _ => Some value end) (fragment u).

(** *** [URLSearchParams] *)

Fixpoint split_on (d : ascii) (l : list ascii) : list (list ascii) :=
  match l with
  | [] => [[]]
  | c :: r =>
      if Ascii.eqb c d then [] :: split_on d r
      else match split_on d r with
           | p :: ps => (c :: p) :: ps
           | [] => [[c]]
           end
  end.

Definition hex_value (c : ascii) : option N :=
  if is_digit c then Some (code c - 48)%N
  else if between 65 70 c then Some (code c - 55)%N
  else if between 97 102 c then Some (code c - 87)%N
  else None.

Definition hex_digit (n : N) : ascii :=
  ascii_of_N (if (n <? 10)%N then n + 48 else n + 55)%N.

(** Percent-decoding of a byte sequence. *)
Fixpoint percent_decode (l : list ascii) : list ascii :=
  match l with
  | [] => []
  | c :: tl =>
      if is_char "%" c then
        match tl with
        | h :: lo :: rest =>
            match hex_value h, hex_value lo with
            | Some a, Some b => ascii_of_N (16 * a + b) :: percent_decode rest
            | _, _ => c :: percent_decode tl
            end
        | _ => c :: percent_decode tl
        end
      else c :: percent_decode tl
  end.

Definition plus_to_space (l : list ascii) : list ascii :=
  map (fun c => if is_char "+" c then " "%char else c) l.

Definition decode (l : list ascii) : list ascii :=
  percent_decode (plus_to_space l).

Definition is_ascii (l : list ascii) : bool :=
  forallb (fun c => (code c <? 128)%N) l.

(** One [name=value] piece of a query. *)
Definition parse_pair (piece : list ascii)
    : option (list ascii * list ascii) :=
  let '(n, rest) := break (is_char "=") piece in
  let v := match rest with [] => [] | _ :: v => v end in
  let n := decode n in
  let v := decode v in
  if is_ascii n && is_ascii v then Some (n, v) else None.

Fixpoint parse_pairs (pieces : list (list ascii))
    : option (list (list ascii * list ascii)) :=
  match pieces with
  | [] => Some []
  | [] :: rest => parse_pairs rest
  | piece :: rest =>
      match parse_pair piece, parse_pairs rest with
      | Some p, Some ps => Some (p :: ps)
      | _, _ => None
      end
  end.

(** [new URLSearchParams(init)] for a string [init]: a leading ["?"] is
    dropped.  [None]: some name or value is not ASCII after decoding. *)
Definition URLSearchParams (init : list ascii)
    : option (list (list ascii * list ascii)) :=
  parse_pairs (split_on "&"
    (match init with
     | c :: r => if is_char "?" c then r else init
     | [] => []
     end)).

Definition unreserved (c : ascii) : bool :=
  is_alnum c || one_of ["*"; "-"; "."; "_"]%char c.

Definition encode_char (c : ascii) : list ascii :=
  if is_char " " c then ["+"%char]
  else if unreserved c then [c]
  else ["%"%char; hex_digit (code c / 16); hex_digit (code c mod 16)].

Definition encode (l : list ascii) : list ascii := flat_map encode_char l.

Definition encode_pair (p : list ascii * list ascii) : list ascii :=
  encode (fst p) ++ "="%char :: encode (snd p).

(** [params.toString()] *)
Fixpoint serialize (ps : list (list ascii * list ascii)) : list ascii :=
  match ps with
  | [] => []
  | [p] => encode_pair p
  | p :: rest => encode_pair p ++ "&"%char :: serialize rest
  end.

(** *** The body of [normalizeUrl] *)

Definition to_lower (c : ascii) : ascii :=
  if is_upper c then ascii_of_N (code c + 32) else c.

(** The condition of the [if] in the loop over [params.entries()]. *)
Definition kept (p : list ascii * list ascii) : bool :=
  let lowerKey := map to_lower (fst p) in
  negb (match strip_prefix (list_ascii_of_string "utm_") lowerKey with
        | Some _ => true
        | None => false
        end) &&
  negb (bool_decide (lowerKey = list_ascii_of_string "ref")) &&
  negb (bool_decide (lowerKey = list_ascii_of_string "fbclid")).

(** The order of [Array.prototype.sort] without a comparator: the elements
    are compared as strings, code unit by code unit. *)
Fixpoint lex_le (a b : list ascii) : bool :=
  match a, b with
  | [], _ => true
  | _ :: _, [] => false
  | x :: a', y :: b' =>
      if (code x <? code y)%N then true
      else if (code y <? code x)%N then false
      else lex_le a' b'
  end.

(** [String([key, value])] *)
Definition entry_string (p : list ascii * list ascii) : list ascii :=
  fst p ++ ","%char :: snd p.

Definition entry_le (p q : list ascii * list ascii) : bool :=
  lex_le (entry_string p) (entry_string q).

Fixpoint insert (p : list ascii * list ascii)
    (l : list (list ascii * list ascii)) : list (list ascii * list ascii) :=
  match l with
  | [] => [p]
  | q :: l' => if entry_le p q then p :: l else q :: insert p l'
  end.

(** [[...filtered.entries()].sort()]: the sort is stable, so its result is
    the one of a stable insertion sort. *)
Fixpoint sort (l : list (list ascii * list ascii))
    : list (list ascii * list ascii) :=
  match l with
  | [] => []
  | p :: l' => insert p (sort l')
  end.

(** [.replace(/\/$/, '')] *)
Fixpoint strip_trailing_slash (l : list ascii) : list ascii :=
  match l with
  | [] => []
  | [c] => if is_char "/" c then [] else [c]
  | c :: r => c :: strip_trailing_slash r
  end.

Definition normalize (s : list ascii) : option (list ascii) :=
  match parse s with
  | Invalid => Some s
  | Unmodelled => None
  | Parsed url =>
      let url := clear_hash url in
      match search url with
      | [] => Some (strip_trailing_slash (href url))
      | sch =>
          match URLSearchParams sch with
          | None => None
          | Some params =>
              let filtered := filter (fun p => kept p = true) params in
              let sortedParams := sort filtered in
              Some (strip_trailing_slash
                      (href (set_search (serialize sortedParams) url)))
          end
      end
  end.

(** [normalizeUrl(urlString)]; [None] when [urlString] is outside the
    modelled fragment. *)
Definition normalizeUrl (urlString : string) : option string :=
  string_of_list_ascii <$> normalize (list_ascii_of_string urlString).

(** A total normaliser for the sessions of the orchestrator: the model
    where it speaks, the identity elsewhere. *)
Definition normalizeUrl_or_self (urlString : string) : string :=
  default urlString (normalizeUrl urlString).

Definition ends_with_slash (s : string) : bool :=
  match last (list_ascii_of_string s) with
  | Some c => is_char "/" c
  | None => false
  end.

(** *** What the proofs speak of *)

Definition well_formed (u : URL) : Prop :=
  (scheme u = list_ascii_of_string "http" \/
   scheme u = list_ascii_of_string "https") /\
  host_ok (host u) = true /\
  path_ok (pathname u) = true /\ pathname u <> [] /\
  forallb query_char (default [] (query u)) = true.

Definition ascii_pair (p : list ascii * list ascii) : Prop :=
  is_ascii (fst p) = true /\ is_ascii (snd p) = true.

Definition sorted : list (list ascii * list ascii) -> Prop :=
  Sorted (fun p q => entry_le p q = true).

Definition no_slash_at_end (l : list ascii) : Prop :=
  match last l with Some c => is_char "/" c | None => false end = false.

(** The queries that [normalizeUrl] leaves in a URL. *)
Definition canonical (q : option (list ascii)) : Prop :=
  q = None \/ q = Some [] \/
  exists ps, ps <> [] /\ Forall ascii_pair ps /\
             Forall (fun p => kept p = true) ps /\ sorted ps /\
             q = Some (serialize ps).

(** The text of the URL with scheme [sch], host [h], path [p] and the
    parameters [ps], as [URL] and [URLSearchParams] write it. *)
Definition build (sch h p : list ascii) (ps : list (list ascii * list ascii))
    : list ascii :=
  sch ++ list_ascii_of_string "://" ++ h ++ p ++
  match ps with
  | [] => []
  | _ => "?"%char :: serialize ps
  end.

(** A name without a comma. *)
Definition plain_name (p : list ascii * list ascii) : Prop :=
  existsb (is_char ",") (fst p) = false.

End Url.

(** ** The run store: [storage.js]

    The module keeps its state in module-level variables and in the files of
    the run directory.  Its functions are rendered in a monad of state,
    exceptions and divergence.  The calls are taken one at a time, each awaited
    before the next one is made, as [cli.js] makes them through
    [queueStorageOperation]. *)

Module Storage.

Inductive status : Type := running | completed | interrupted.

Record RunMeta : Type := Meta {
  topic : string;
  startedAt : string;
  m_status : status;
  pageCount : Z;
  runId : option string;
  maxPages : Z
}.

(** The JavaScript values that reach the store.  An object other than the
    metadata is known by its JSON text. *)
Inductive value : Type :=
| VNull
| VString (s : string)
| VNumber (n : Z)
| VArray (items : list string)
| VObject (json : string)
| VMeta (m : RunMeta).

(** A file is the sequence of JSON documents written into it: one for a
    [.json] file, one per line for [pages.jsonl], none for an empty file. *)
Definition content : Type := list value.

Inductive kind : Type := page | final.

(** An entry of [writeQueue]; [ticket] stands for its [resolve]. *)
Record task : Type := Task {
  type : kind;
  data : value;
  ticket : nat
}.

Record world : Type := World {
  files : gmap string content;
  dirs : gset string;
  fs_calls : nat;                       (* file system calls made so far *)
  currentRunPath : option string;
  metaData : option RunMeta;
  isFlushing : bool;
  shutdownRequested : bool;
  writeQueue : list task;
  processingQueue : bool;
  tickets : nat;                        (* promises created so far *)
  settled : list (nat * bool)           (* [resolve(b)] calls, by ticket *)
}.

Definition fresh : world :=
  World ∅ ∅ 0 None None false false [] false 0 [].

(** *** The monad *)

Inductive outcome (A : Type) : Type :=
| Done (a : A)
| Thrown           (* an exception is propagating *)
| Hangs.           (* the awaited promise never settles *)
Arguments Done {A} a.
Arguments Thrown {A}.
Arguments Hangs {A}.

Definition io (A : Type) : Type := world -> outcome A * world.

Definition ret {A} (a : A) : io A := fun w => (Done a, w).

Definition bind {A B} (m : io A) (k : A -> io B) : io B :=
  fun w =>
    match m w with
    | (Done a, w') => k a w'
    | (Thrown, w') => (Thrown, w')
    | (Hangs, w') => (Hangs, w')
    end.

Definition throw {A} : io A := fun w => (Thrown, w).
Definition hang {A} : io A := fun w => (Hangs, w).

(** [try { body } catch { handler }] *)
Definition try_catch {A} (body handler : io A) : io A :=
  fun w =>
    match body w with
    | (Thrown, w') => handler w'
    | r => r
    end.

(** [try { body } finally { cleanup }] *)
Definition try_finally {A} (body : io A) (cleanup : io unit) : io A :=
  fun w =>
    match body w with
    | (Hangs, w') => (Hangs, w')
    | (r, w') =>
        match cleanup w' with
        | (Done _, w'') => (r, w'')
        | (Thrown, w'') => (Thrown, w'')
        | (Hangs, w'') => (Hangs, w'')
        end
    end.

Definition get {A} (f : world -> A) : io A := fun w => (Done (f w), w).
Definition modify (f : world -> world) : io unit := fun w => (Done tt, f w).

Declare Scope io_scope.
Delimit Scope io_scope with io.
Notation "x <- m ;; k" := (bind m (fun x => k))
  (at level 100, m at next level, right associativity) : io_scope.
Notation "m ;; k" := (bind m (fun _ => k))
  (at level 100, right associativity) : io_scope.
Local Open Scope io_scope.

(** *** Setters of the module variables *)

Definition with_files (f : gmap string content) (w : world) : world :=
  World f (dirs w) (fs_calls w) (currentRunPath w) (metaData w)
        (isFlushing w) (shutdownRequested w) (writeQueue w)
        (processingQueue w) (tickets w) (settled w).

Definition with_dirs (d : gset string) (w : world) : world :=
  World (files w) d (fs_calls w) (currentRunPath w) (metaData w)
        (isFlushing w) (shutdownRequested w) (writeQueue w)
        (processingQueue w) (tickets w) (settled w).

Definition with_run (p : option string) (m : option RunMeta) (w : world)
    : world :=
  World (files w) (dirs w) (fs_calls w) p m
        (isFlushing w) (shutdownRequested w) (writeQueue w)
        (processingQueue w) (tickets w) (settled w).

Definition with_meta (m : option RunMeta) (w : world) : world :=
  with_run (currentRunPath w) m w.

Definition with_flags (flushing shutdown : bool) (w : world) : world :=
  World (files w) (dirs w) (fs_calls w) (currentRunPath w) (metaData w)
        flushing shutdown (writeQueue w)
        (processingQueue w) (tickets w) (settled w).

Definition with_queue (q : list task) (processing : bool) (w : world)
    : world :=
  World (files w) (dirs w) (fs_calls w) (currentRunPath w) (metaData w)
        (isFlushing w) (shutdownRequested w) q processing
        (tickets w) (settled w).

Definition with_settled (n : nat) (s : list (nat * bool)) (w : world)
    : world :=
  World (files w) (dirs w) (fs_calls w) (currentRunPath w) (metaData w)
        (isFlushing w) (shutdownRequested w) (writeQueue w)
        (processingQueue w) n s.

Definition set_status (st : status) (m : RunMeta) : RunMeta :=
  Meta (topic m) (startedAt m) st (pageCount m) (runId m) (maxPages m).

Definition set_pageCount (n : Z) (m : RunMeta) : RunMeta :=
  Meta (topic m) (startedAt m) (m_status m) n (runId m) (maxPages m).

Section Environment.

(** Whether the [n]-th call into the file system fails with an I/O
    error. *)
Variable faulty : nat -> bool.

(** *** [fs.promises] *)

Definition fs_call {A} (act : io A) : io A :=
  fun w =>
    let w' := World (files w) (dirs w) (S (fs_calls w)) (currentRunPath w)
                (metaData w) (isFlushing w) (shutdownRequested w)
                (writeQueue w) (processingQueue w) (tickets w) (settled w) in
    if faulty (fs_calls w) then (Thrown, w') else act w'.

Definition mkdir (path : string) : io unit :=
  fs_call (modify (fun w => with_dirs ({[path]} ∪ dirs w) w)).

Definition writeFile (path : string) (c : content) : io unit :=
  fs_call (modify (fun w => with_files (<[path := c]> (files w)) w)).

Definition appendFile (path : string) (line : value) : io unit :=
  fs_call (modify (fun w =>
    with_files (<[path := default [] (files w !! path) ++ [line]]> (files w)) w)).

Definition readFile (path : string) : io content :=
  fs_call (fun w =>
    match files w !! path with
    | Some c => (Done c, w)
    | None => (Thrown, w)
    end).

Definition access (path : string) : io unit :=
  fs_call (fun w =>
    if bool_decide (is_Some (files w !! path)) || bool_decide (path ∈ dirs w)
    then (Done tt, w) else (Thrown, w)).

(** [fs.open(path, 'r+')]: the file must exist. *)
Definition open (path : string) : io unit :=
  fs_call (fun w =>
    match files w !! path with
    | Some _ => (Done tt, w)
    | None => (Thrown, w)
    end).

Definition rename (old new : string) : io unit :=
  fs_call (fun w =>
    match files w !! old with
    | Some c => (Done tt, with_files (<[new := c]> (delete old (files w))) w)
    | None => (Thrown, w)
    end).

Definition unlink (path : string) : io unit :=
  fs_call (fun w =>
    match files w !! path with
    | Some _ => (Done tt, with_files (delete path (files w)) w)
    | None => (Thrown, w)
    end).

(** [fd.sync()], [fd.close()] *)
Definition fd_sync : io unit := fs_call (ret tt).
Definition fd_close : io unit := fs_call (ret tt).

(** [fs] is [require('fs').promises].  That object has [mkdir],
    [writeFile], [open], [rename], [unlink], [appendFile], [readFile] and
    [access]; it has no [fsync] (a file is synced through its handle, as
    [atomicWrite] itself does after the rename).  So [fs.fsync] is
    [undefined], and calling it throws a [TypeError] once its argument has
    been evaluated. *)
Definition fs_fsync : io unit := throw.

(** [JSON.parse(text)]: the text must be one document. *)
Definition JSON_parse (c : content) : io value :=
  match c with
  | [v] => ret v
  | _ => throw
  end.

(** *** Paths *)

(** [path.dirname] *)
Definition dirname (path : string) : string :=
  let chars := list_ascii_of_string path in
  let '(_, rest) := Url.break (Url.is_char "/") (rev chars) in
  match rest with
  | [] => "."%string
  | _ :: d => string_of_list_ascii (rev d)
  end.

(** [path.join(dir, name)], for a [dir] without a trailing slash. *)
Definition join (dir name : string) : string :=
  let dir' := match list_ascii_of_string dir with
              | "."%char :: "/"%char :: d => string_of_list_ascii d
              | _ => dir
              end in
  (dir' +:+ "/" +:+ name)%string.

Definition BASE_DIR : string := "./runs".

(** *** [atomicWrite] *)

Definition atomicWrite (filePath : string) (data : value) : io bool :=
  shutdown <- get shutdownRequested ;;
  if shutdown then ret false
  else
    let tmpPath := (filePath +:+ ".tmp")%string in
    try_catch
      (mkdir (dirname filePath) ;;
       writeFile tmpPath [data] ;;
       open tmpPath ;;
       fs_fsync ;;
       rename tmpPath filePath ;;
       try_catch (open filePath ;; fd_sync ;; fd_close) (ret tt) ;;
       ret true)
      (try_catch (unlink tmpPath) (ret tt) ;;
       ret false).

(** *** [sanitizeFilename], [getRunDirectoryName] *)

Fixpoint collapse (l : list ascii) : list ascii :=
  match l with
  | c :: ((d :: _) as r) =>
      if Url.is_char "_" c && Url.is_char "_" d then collapse r
      else c :: collapse r
  | _ => l
  end.

Fixpoint drop_underscores (l : list ascii) : list ascii :=
  match l with
  | c :: r => if Url.is_char "_" c then drop_underscores r else l
  | [] => []
  end.

Definition sanitizeFilename (str : string) : string :=
  let lower := map Url.to_lower (list_ascii_of_string str) in
  let replaced :=
    map (fun c => if Url.is_lower c || Url.is_digit c then c else "_"%char)
        lower in
  let trimmed :=
    rev (drop_underscores (rev (drop_underscores (collapse replaced)))) in
  match take 100 trimmed with
  | [] => "research"%string
  | l => string_of_list_ascii l
  end.

Fixpoint replace_first_T (l : list ascii) : list ascii :=
  match l with
  | [] => []
  | c :: r => if Url.is_char "T" c then "_"%char :: r
              else c :: replace_first_T r
  end.

(** [now] is [new Date().toISOString()]. *)
Definition getRunDirectoryName (now topic : string) : string :=
  let dashed :=
    map (fun c => if Url.one_of [":"; "."]%char c then "-"%char else c)
        (list_ascii_of_string now) in
  let timestamp :=
    (string_of_list_ascii (take 19 (replace_first_T dashed)) +:+ "Z")%string in
  (sanitizeFilename topic +:+ "_" +:+ timestamp)%string.

(** *** [initialize] *)

Record researchContext : Type := Context {
  ctx_topic : option string;
  ctx_startTime : option string;
  ctx_runId : option string;
  ctx_maxPages : option Z
}.

(** [s || fallback] for a string that may be [undefined]. *)
Definition string_or (s : option string) (fallback : string) : string :=
  match s with
  | Some (String c r) => String c r
  | _ => fallback
  end.

Definition number_or (n : option Z) (fallback : Z) : Z :=
  match n with
  | Some n => if n =? 0 then fallback else n
  | None => fallback
  end.

Definition metaPath (run : string) : string := join run "meta.json".
Definition questionsPath (run : string) : string := join run "questions.json".
Definition pagesPath (run : string) : string := join run "pages.jsonl".
Definition finalPath (run : string) : string := join run "final.json".

(** [existingMeta.pageCount || 0] for the document read back from
    [meta.json]; a document without the property gives 0, [null] throws. *)
Definition existing_pageCount (v : value) : io Z :=
  match v with
  | VMeta m => ret (pageCount m)
  | VNull => throw
  | _ => ret 0
  end.

Definition initialize (now : string) (ctx : researchContext) : io unit :=
  run <- get currentRunPath ;;
  match run with
  | Some _ => ret tt
  | None =>
      try_catch
        (mkdir BASE_DIR ;;
         let topic := string_or (ctx_topic ctx) "unnamed_research" in
         let runPath := join BASE_DIR (getRunDirectoryName now topic) in
         try_catch (access runPath) (mkdir runPath) ;;
         let meta := Meta topic (string_or (ctx_startTime ctx) now) running 0
                       (match ctx_runId ctx with
                        | Some (String c r) => Some (String c r)
                        | _ => None
                        end)
                       (number_or (ctx_maxPages ctx) 200) in
         modify (with_run (Some runPath) (Some meta)) ;;
         atomicWrite (metaPath runPath) (VMeta meta) ;;
         try_catch (access (questionsPath runPath))
                   (atomicWrite (questionsPath runPath) (VArray []) ;; ret tt) ;;
         try_catch (access (pagesPath runPath))
                   (writeFile (pagesPath runPath) []) ;;
         try_catch (access (finalPath runPath))
                   (atomicWrite (finalPath runPath) VNull ;; ret tt) ;;
         try_catch
           (text <- readFile (metaPath runPath) ;;
            existingMeta <- JSON_parse text ;;
            n <- existing_pageCount existingMeta ;;
            let meta' := set_status running (set_pageCount n meta) in
            modify (with_meta (Some meta')) ;;
            atomicWrite (metaPath runPath) (VMeta meta') ;;
            ret tt)
           (ret tt))
        (modify (with_run None None))
  end.

(** *** The write queue *)

(** [!x || typeof x !== 'object'] *)
Definition not_an_object (v : value) : bool :=
  match v with
  | VArray _ | VObject _ | VMeta _ => false
  | VNull | VString _ | VNumber _ => true
  end.

Definition resolve (t : task) (b : bool) : io unit :=
  modify (fun w => with_settled (tickets w) (settled w ++ [(ticket t, b)]) w).

(** The body of the [while] loop of [processQueue] for one task. *)
Definition process (t : task) : io unit :=
  run <- get currentRunPath ;;
  let run := default EmptyString run in
  try_catch
    (match type t with
     | page =>
         appendFile (pagesPath run) (data t) ;;
         meta <- get metaData ;;
         match meta with
         | Some m =>
             let m' := set_pageCount (pageCount m + 1) m in
             modify (with_meta (Some m')) ;;
             atomicWrite (metaPath run) (VMeta m') ;;
             ret tt
         | None => ret tt
         end ;;
         resolve t true
     | final =>
         atomicWrite (finalPath run) (data t) ;;
         meta <- get metaData ;;
         match meta with
         | Some m =>
             let m' := set_status completed m in
             modify (with_meta (Some m')) ;;
             atomicWrite (metaPath run) (VMeta m') ;;
             ret tt
         | None => ret tt
         end ;;
         resolve t true
     end)
    (resolve t false).

(** The [while] loop; [fuel] is the length of the queue on entry, which
    is enough because no task is added while the loop runs. *)
Fixpoint drain (fuel : nat) : io unit :=
  match fuel with
  | O => ret tt
  | S fuel' =>
      q <- get writeQueue ;;
      shutdown <- get shutdownRequested ;;
      match q with
      | t :: rest =>
          if shutdown then ret tt
          else
            modify (with_queue rest true) ;;
            process t ;;
            drain fuel'
      | [] => ret tt
      end
  end.

Definition processQueue : io unit :=
  processing <- get processingQueue ;;
  q <- get writeQueue ;;
  shutdown <- get shutdownRequested ;;
  if processing || bool_decide (q = []) || shutdown then ret tt
  else
    modify (fun w => with_queue (writeQueue w) true w) ;;
    drain (length q) ;;
    modify (fun w => with_queue (writeQueue w) false w).

(** [await] of the promise made with ticket [n]. *)
Definition await (n : nat) : io bool :=
  s <- get settled ;;
  match list_find (fun e => fst e = n) s with
  | Some (_, (_, b)) => ret b
  | None => hang
  end.

Definition enqueue (k : kind) (v : value) : io bool :=
  run <- get currentRunPath ;;
  shutdown <- get shutdownRequested ;;
  match run with
  | None => ret false
  | Some _ =>
      if not_an_object v then ret false
      else if shutdown then ret false
      else
        n <- get tickets ;;
        modify (fun w => with_settled (S n) (settled w) w) ;;
        modify (fun w => with_queue (writeQueue w ++ [Task k v n])
                           (processingQueue w) w) ;;
        processQueue ;;
        await n
  end.

Definition savePageResult (pageObject : value) : io bool :=
  enqueue page pageObject.

Definition saveSynthesis (finalObject : value) : io bool :=
  enqueue final finalObject.

(** *** [flush] *)

Definition flush : io unit :=
  flushing <- get isFlushing ;;
  if flushing then ret tt
  else
    modify (with_flags true true) ;;
    try_finally
      (try_catch
         (q <- get writeQueue ;;
          (* nothing takes tasks off the queue once [shutdownRequested]
             is set: with a task left, the loop waits for ever *)
          match q with
          | _ :: _ => hang
          | [] => ret tt
          end ;;
          run <- get currentRunPath ;;
          meta <- get metaData ;;
          match run, meta with
          | Some run, Some _ =>
              try_catch
                (hasFinal <-
                   try_catch
                     (finalContent <- readFile (finalPath run) ;;
                      parsed <- JSON_parse finalContent ;;
                      ret (match parsed with VNull => false | _ => true end))
                     (ret false) ;;
                 meta <- get metaData ;;
                 match meta with
                 | Some m =>
                     if negb hasFinal &&
                        match m_status m with running => true | _ => false end
                     then
                       let m' := set_status interrupted m in
                       modify (with_meta (Some m')) ;;
                       atomicWrite (metaPath run) (VMeta m') ;;
                       ret tt
                     else ret tt
                 | None => ret tt
                 end)
                (ret tt)
          | _, _ => ret tt
          end)
         (ret tt))
      (modify (fun w => with_flags false (shutdownRequested w) w)).

(** *** Sequences of calls *)

Inductive call : Type :=
| Initialize (now : string) (ctx : researchContext)
| SavePageResult (pageObject : value)
| SaveSynthesis (finalObject : value)
| Flush.

Definition perform (c : call) : io unit :=
  match c with
  | Initialize now ctx => initialize now ctx
  | SavePageResult v => savePageResult v ;; ret tt
  | SaveSynthesis v => saveSynthesis v ;; ret tt
  | Flush => flush
  end.

Fixpoint perform_all (cs : list call) : io unit :=
  match cs with
  | [] => ret tt
  | c :: cs' => perform c ;; perform_all cs'
  end.

(** What a reader of the run directory finds. *)
Definition meta_on_disk (w : world) : option content :=
  match currentRunPath w with
  | Some run => files w !! metaPath run
  | None => None
  end.

Definition final_on_disk (w : world) : option content :=
  match currentRunPath w with
  | Some run => files w !! finalPath run
  | None => None
  end.

Definition pages_on_disk (w : world) : option content :=
  match currentRunPath w with
  | Some run => files w !! pagesPath run
  | None => None
  end.

(** *** [saveQuestionTree] *)

(** [Array.isArray(x)] *)
Definition isArray (v : value) : bool :=
  match v with
  | VArray _ => true
  | _ => false
  end.

Definition saveQuestionTree (questionTree : value) : io bool :=
  run <- get currentRunPath ;;
  match run with
  | None => ret false
  | Some run =>
      if negb (isArray questionTree) then ret false
      else
        try_catch
          (atomicWrite (questionsPath run) questionTree ;;
           ret true)
          (ret false)
  end.

(** *** Sequences of calls, [saveQuestionTree] included *)

Inductive request : Type :=
| Call (c : call)
| SaveQuestionTree (questionTree : value).

Definition serve (r : request) : io unit :=
  match r with
  | Call c => perform c
  | SaveQuestionTree v => saveQuestionTree v ;; ret tt
  end.

Fixpoint serve_all (rs : list request) : io unit :=
  match rs with
  | [] => ret tt
  | r :: rs' => serve r ;; serve_all rs'
  end.

End Environment.

(** *** What the proofs speak of *)

(** The store between two calls that are made one after the other: nothing
    is queued, no loop is running, and the promises made so far are the
    tickets below [tickets]. *)
Definition idle (w : world) : Prop :=
  writeQueue w = [] /\ processingQueue w = false /\ isFlushing w = false /\
  Forall (fun e => (fst e < tickets w)%nat) (settled w).

(** *** Specifications *)

(** [m], started in a state that satisfies [P], does not hang; when it
    returns [a] the state satisfies [Q a], when it throws, [E]. *)
Definition triple {A} (P : world -> Prop) (m : io A)
    (Q : A -> world -> Prop) (E : world -> Prop) : Prop :=
  forall w, P w ->
    match m w with
    | (Done a, w') => Q a w'
    | (Thrown, w') => E w'
    | (Hangs, _) => False
    end.

(** The part of the state that only the write queue and [flush] touch. *)
Definition same_queue (w w' : world) : Prop :=
  writeQueue w' = writeQueue w /\ processingQueue w' = processingQueue w /\
  isFlushing w' = isFlushing w /\ shutdownRequested w' = shutdownRequested w /\
  tickets w' = tickets w /\ settled w' = settled w.

(** The part of the state that the file system does not touch. *)
Definition same_memory (w w' : world) : Prop :=
  same_queue w w' /\ currentRunPath w' = currentRunPath w /\
  metaData w' = metaData w.


(** The state after one more call into the file system. *)
Definition bump (w : world) : world :=
  World (files w) (dirs w) (S (fs_calls w)) (currentRunPath w)
        (metaData w) (isFlushing w) (shutdownRequested w)
        (writeQueue w) (processingQueue w) (tickets w) (settled w).


(** The page objects that a list of requests passes to [savePageResult]. *)
Definition pages_of (rs : list request) : list value :=
  omap (fun r => match r with
                 | Call (SavePageResult v) => Some v
                 | _ => None
                 end) rs.

(** The state of an initialised store: the run is [run], the metadata
    say [running] under the topic [tp]. *)
Definition initialised (w0 : world) (run tp : string) (w : world) : Prop :=
  same_queue w0 w /\ currentRunPath w = Some run /\
  exists m, metaData w = Some m /\ m_status m = running /\ topic m = tp.

Definition has_pages (run : string) (w : world) : Prop :=
  is_Some (files w !! pagesPath run) \/ pagesPath run ∈ dirs w.

(** What [flush] leaves of a store [w0] while it runs. *)
Definition flushing (w0 w : world) : Prop :=
  files w = files w0 /\ currentRunPath w = currentRunPath w0 /\
  (metaData w = metaData w0 \/
   metaData w = set_status interrupted <$> metaData w0) /\
  shutdownRequested w = true /\ isFlushing w = true /\
  writeQueue w = [] /\ processingQueue w = processingQueue w0 /\
  tickets w = tickets w0 /\ settled w = settled w0.

(** The characters of a sanitised name: [a-z0-9_]. *)
Definition name_char (c : ascii) : bool :=
  Url.is_lower c || Url.is_digit c || Url.is_char "_" c.

(** Whether two underscores stand next to each other. *)
Fixpoint double_underscore (l : list ascii) : bool :=
  match l with
  | c :: ((d :: _) as r) =>
      (Url.is_char "_" c && Url.is_char "_" d) || double_underscore r
  | _ => false
  end.

Definition no_slash (l : list ascii) : bool :=
  forallb (fun c => negb (Url.is_char "/" c)) l.

End Storage.

(** ** The crawl orchestrator: [inspectPage], [inspectQuestion]
       (inspector.js, 276-369) *)

Module Inspector.

Definition MAX_CONCURRENT : Z := 3.
Definition MIN_TEXT_LENGTH : Z := 200.
Definition MAX_EXPANDED_URLS : nat := 25.

(** What [extractTextAndLinks] returns. *)
Record extraction : Type := Extraction {
  ex_title : string;
  ex_text : string;
  ex_links : list string
}.

Record PageRecord : Type := Page {
  url : string;
  title : string;
  extractedText : string;
  links : list string;
  timestamp : string
}.

(** Where a call of [processUrl] is suspended. *)
Inductive pc : Type :=
| AwaitAcquire                      (* await semaphore.acquire() *)
| AwaitDelay                        (* await randomDelay() *)
| AwaitInspect                      (* await inspectPage(url, signal) *)
| AwaitChildren (kids : list nat)   (* await Promise.all(expandTasks) *)
| Returned.

(** One call [processUrl(url, depth)].  [t_parent] is the call that made
    it from its fan-out, [None] for a seed. *)
Record task : Type := Task {
  t_url : string;
  t_depth : nat;
  t_parent : option nat;
  t_pc : pc
}.

(** What the session does that is visible from outside the call:
    [visitedUrls.add], the call of [inspectPage] (the fetch), and
    [onPageCountUpdate].  There is nothing else: the page record that
    [inspectPage] returns is used for its links and then dropped. *)
Inductive event : Type :=
| Claimed (who : nat) (normalizedUrl : string)
| Fetching (who : nat) (url : string)
| Progress (pageCount : Z).

(** The variables that [inspectQuestion] closes over, the calls of
    [processUrl] made so far (a call is named by its position), and the
    log.  [stopCalls] counts the calls of [shouldStopFn]; [held] is the set
    of calls whose [acquire] has returned and that have not called
    [release] yet: it is bookkeeping, no code reads it. *)
Record session : Type := Session {
  visitedUrls : gset string;
  semaphore : Semaphore.t;
  pageCount : Z;
  aborted : bool;
  stopCalls : nat;
  tasks : list task;
  held : gset nat;
  log : list event
}.

Definition with_tasks (ts : list task) (s : session) : session :=
  Session (visitedUrls s) (semaphore s) (pageCount s) (aborted s)
          (stopCalls s) ts (held s) (log s).

Definition set_pc (who : nat) (p : pc) (s : session) : session :=
  with_tasks
    (alter (fun t => Task (t_url t) (t_depth t) (t_parent t) p) who (tasks s)) s.

Definition pc_of (s : session) (who : nat) : option pc :=
  t_pc <$> tasks s !! who.

(** Whether the promise of [who]'s [acquire] is still pending: its
    [resolve] sits in the queue. *)
Definition waiting (s : session) (who : nat) : bool :=
  bool_decide (who ∈ Semaphore.queue (semaphore s)).

Definition fetched_urls (l : list event) : list string :=
  omap (fun e => match e with Fetching _ u => Some u | _ => None end) l.

Definition claims (l : list event) : list (nat * string) :=
  omap (fun e => match e with Claimed w n => Some (w, n) | _ => None end) l.

Definition reports (l : list event) : list Z :=
  omap (fun e => match e with Progress n => Some n | _ => None end) l.

Definition parents (s : session) : list (option nat) :=
  t_parent <$> tasks s.

(** The calls made from the fan-out of [p]. *)
Definition children (p : nat) (s : session) : list (option nat) :=
  filter (fun q => q = Some p) (parents s).

Section Session.

(** The environment of a session: the normaliser, the extractor applied
    to what was fetched, and the caller's stop callback, whose answer may
    differ from call to call ([shouldStopFn k] answers call number [k]).
    The callbacks are taken not to throw. *)
Variable normalizeUrl : string -> string.
Variable extractTextAndLinks : string -> string -> extraction.
Variable shouldStopFn : nat -> bool.

(** [inspectPage(url, abortSignal)], given what the fetch settles with
    and the clock. *)
Definition inspectPage (url : string) (fetched : Fetcher.result)
    (now : string) : option PageRecord :=
  match fetched with
  | Fetcher.Rejected _ => None
  | Fetcher.Resolved html =>
      let e := extractTextAndLinks html url in
      if Fetcher.strlen (ex_text e) <? MIN_TEXT_LENGTH then None
      else Some (Page url (ex_title e) (ex_text e) (ex_links e) now)
  end.

(** [shouldAbort()] *)
Definition shouldAbort (s : session) : bool * session :=
  if aborted s then (true, s)
  else
    let s' := Session (visitedUrls s) (semaphore s) (pageCount s)
                (shouldStopFn (stopCalls s)) (S (stopCalls s))
                (tasks s) (held s) (log s) in
    (shouldStopFn (stopCalls s), s').

(** [processUrl(url, depth)] from its call to its first [await], or to
    its early [return]; [parent] is the call that makes this one.  What the
    call does after its [await]s is in [step] below. *)
Definition processUrl (url : string) (depth : nat) (parent : option nat)
    (s : session) : session :=
  let me := length (tasks s) in
  let '(stop, s) := shouldAbort s in
  if stop then with_tasks (tasks s ++ [Task url depth parent Returned]) s
  else
    let normalizedUrl := normalizeUrl url in
    if bool_decide (normalizedUrl ∈ visitedUrls s)
    then with_tasks (tasks s ++ [Task url depth parent Returned]) s
    else
      let '(sem', granted) := Semaphore.acquire me (semaphore s) in
      Session ({[normalizedUrl]} ∪ visitedUrls s) sem' (pageCount s)
              (aborted s) (stopCalls s)
              (tasks s ++ [Task url depth parent AwaitAcquire])
              (if granted then {[me]} ∪ held s else held s)
              (log s ++ [Claimed me normalizedUrl]).

(** [semaphore.release()] by [who], followed by [who]'s return. *)
Definition leave (who : nat) (s : session) : session :=
  let '(sem', wake) := Semaphore.release (semaphore s) in
  let held' := held s ∖ {[who]} in
  set_pc who Returned
    (Session (visitedUrls s) sem' (pageCount s) (aborted s) (stopCalls s)
             (tasks s)
             (match wake with Some v => {[v]} ∪ held' | None => held' end)
             (log s)).

(** The loop that fills [expandedUrls]. *)
Fixpoint select_links (visited : gset string) (links : list string)
    (expandedUrls : list string) : list string :=
  match links with
  | [] => expandedUrls
  | link :: rest =>
      if (MAX_EXPANDED_URLS <=? length expandedUrls)%nat then expandedUrls
      else if bool_decide (normalizeUrl link ∈ visited)
           then select_links visited rest expandedUrls
           else select_links visited rest (expandedUrls ++ [link])
  end.

(** [expandedUrls.map(expandUrl => processUrl(expandUrl, 1))]: the calls
    are made one after the other, each running to its first [await]. *)
Definition fan_out (who : nat) (expandedUrls : list string) (s : session)
    : session :=
  fold_left (fun s u => processUrl u 1 (Some who) s) expandedUrls s.

(** What the scheduler may run next. *)
Inductive action : Type :=
| Resume (who : nat)
| Inspected (who : nat) (fetched : Fetcher.result) (now : string)
| Joined (who : nat).

(** The call an action resumes. *)
Definition actor (a : action) : nat :=
  match a with Resume w | Inspected w _ _ | Joined w => w end.

Definition all_returned (s : session) (kids : list nat) : bool :=
  forallb (fun k => match pc_of s k with
                    | Some Returned => true
                    | _ => false
                    end) kids.

(** The code of [processUrl] from one [await] to the next.  [None]: the
    action is not enabled (the awaited promise is not settled, or there is
    no such call). *)
Definition step (a : action) (s : session) : option session :=
  match a with
  | Resume who =>
      match tasks s !! who with
      | Some t =>
          match t_pc t with
          | AwaitAcquire =>
              if waiting s who then None
              else
                let '(stop, s) := shouldAbort s in
                if stop then Some (leave who s)
                else Some (set_pc who AwaitDelay s)
          | AwaitDelay =>
              let '(stop, s) := shouldAbort s in
              if stop then Some (leave who s)
              else
                Some (set_pc who AwaitInspect
                        (Session (visitedUrls s) (semaphore s) (pageCount s)
                           (aborted s) (stopCalls s) (tasks s) (held s)
                           (log s ++ [Fetching who (t_url t)])))
          | _ => None
          end
      | None => None
      end
  | Inspected who fetched now =>
      match tasks s !! who with
      | Some t =>
          match t_pc t with
          | AwaitInspect =>
              match inspectPage (t_url t) fetched now with
              | None => Some (leave who s)
              | Some result =>
                  let '(stop, s) := shouldAbort s in
                  if stop then Some (leave who s)
                  else
                    let count := pageCount s + 1 in
                    let s := Session (visitedUrls s) (semaphore s) count
                               (aborted s) (stopCalls s) (tasks s) (held s)
                               (log s ++ [Progress count]) in
                    if (t_depth t =? 0)%nat &&
                       (0 <? length (links result))%nat
                    then
                      let expandedUrls :=
                        select_links (visitedUrls s) (links result) [] in
                      let first := length (tasks s) in
                      let s := fan_out who expandedUrls s in
                      Some (set_pc who
                              (AwaitChildren
                                 (seq first (length expandedUrls))) s)
                    else Some (leave who s)
              end
          | _ => None
          end
      | None => None
      end
  | Joined who =>
      match tasks s !! who with
      | Some t =>
          match t_pc t with
          | AwaitChildren kids =>
              if all_returned s kids then Some (leave who s) else None
          | _ => None
          end
      | None => None
      end
  end.

(** [inspectQuestion(questionNode, seedUrls, shouldStopFn,
    onPageCountUpdate)] up to [await Promise.all(seedTasks)]. *)
Definition inspectQuestion (seedUrls : list string) : session :=
  fold_left (fun s u => processUrl u 0 None s) seedUrls
    (Session ∅ (Semaphore.new MAX_CONCURRENT) 0 false 0 [] ∅ []).

Fixpoint run (acts : list action) (s : session) : option session :=
  match acts with
  | [] => Some s
  | a :: acts' =>
      match step a s with
      | Some s' => run acts' s'
      | None => None
      end
  end.

(** [Promise.all(seedTasks)] is fulfilled: every call has returned. *)
Definition finished (s : session) : bool :=
  forallb (fun t => match t_pc t with Returned => true | _ => false end)
          (tasks s).

(** *** Invariants of a session *)

(** Slots: the counter of the semaphore counts the calls in [held], it
    stays within the capacity, the callers in the queue are suspended at
    their [acquire] and hold nothing, and every call that has not
    returned either waits in the queue or holds a slot. *)
Record slots_ok (s : session) : Prop := SlotsOk {
  so_max : Semaphore.max (semaphore s) = MAX_CONCURRENT;
  so_cur : Semaphore.current (semaphore s) = Z.of_nat (size (held s));
  so_le : Semaphore.current (semaphore s) <= MAX_CONCURRENT;
  so_full : Semaphore.queue (semaphore s) <> [] ->
            Semaphore.current (semaphore s) = MAX_CONCURRENT;
  so_nodup : NoDup (Semaphore.queue (semaphore s));
  so_queue : forall w, w ∈ Semaphore.queue (semaphore s) ->
             (w ∉ held s) /\ pc_of s w = Some AwaitAcquire;
  so_held : forall w, w ∈ held s ->
            exists t, tasks s !! w = Some t /\ t_pc t <> Returned;
  so_live : forall i t, tasks s !! i = Some t -> t_pc t <> Returned ->
            i ∈ Semaphore.queue (semaphore s) \/ i ∈ held s
}.

Definition before_fetch (p : pc) : Prop :=
  p = AwaitAcquire \/ p = AwaitDelay.

(** Claims: a claim puts the normalised URL of its call into
    [visitedUrls], no normalised URL is claimed twice, a call that has not
    returned has claimed its URL, a fetch comes after the claim of the same
    call, and no normalised URL is fetched twice. *)
Record claims_ok (s : session) : Prop := ClaimsOk {
  co_claim : forall w n, (w, n) ∈ claims (log s) ->
             n ∈ visitedUrls s /\
             exists t, tasks s !! w = Some t /\ normalizeUrl (t_url t) = n;
  co_nodup : NoDup ((claims (log s)).*2);
  co_live : forall i t, tasks s !! i = Some t -> t_pc t <> Returned ->
            (i, normalizeUrl (t_url t)) ∈ claims (log s);
  co_fetch : forall l1 l2 w u, log s = l1 ++ Fetching w u :: l2 ->
             (w, normalizeUrl u) ∈ claims l1 /\
             exists t, tasks s !! w = Some t /\ t_url t = u /\
                       ~ before_fetch (t_pc t);
  co_once : NoDup (normalizeUrl <$> fetched_urls (log s))
}.

(** How the state of a parent constrains a call [c] made from its
    fan-out. *)
Definition child_ok (c : nat) (tc : task) (parent_pc : pc) : Prop :=
  match parent_pc with
  | AwaitChildren kids => c ∈ kids
  | Returned => t_pc tc = Returned
  | _ => False
  end.

(** Family: the first [seeds] calls are the seeds, at depth 0; every later
    call is at depth 1 and was made by a seed, which either still awaits
    it or has returned after it; and a call has at most
    [MAX_EXPANDED_URLS] children. *)
Record family_ok (seeds : nat) (s : session) : Prop := FamilyOk {
  fo_seeds : (seeds <= length (tasks s))%nat;
  fo_seed : forall i t, tasks s !! i = Some t -> (i < seeds)%nat ->
            t_depth t = 0%nat /\ t_parent t = None;
  fo_child : forall c tc, tasks s !! c = Some tc -> (seeds <= c)%nat ->
             t_depth tc = 1%nat /\
             exists p tp, t_parent tc = Some p /\ (p < seeds)%nat /\
                          tasks s !! p = Some tp /\
                          child_ok c tc (t_pc tp);
  fo_count : forall p, (length (children p s) <= MAX_EXPANDED_URLS)%nat
}.

End Session.

(** *** What the proofs speak of *)

(** A call that is suspended at [Promise.all] on children that have not
    all returned. *)
Definition blocked_parent (s : session) (p : nat) : Prop :=
  exists t kids, tasks s !! p = Some t /\ t_pc t = AwaitChildren kids /\
                 all_returned s kids = false.

(** Whether a call is suspended at its [await inspectPage(...)]. *)
Definition inspecting (t : task) : bool :=
  match t_pc t with AwaitInspect => true | _ => false end.

(** The fetches that have started and have not settled. *)
Definition in_flight (s : session) : nat :=
  length (filter (fun t => inspecting t = true) (tasks s)).

(** Counts: [onPageCountUpdate] has been called with 1, 2, ... up to
    [pageCount], and every page counted or in flight was fetched. *)
Record counts_ok (s : session) : Prop := CountsOk {
  cn_reports : reports (log s) = Z.of_nat <$> seq 1 (Z.to_nat (pageCount s));
  cn_nonneg : 0 <= pageCount s;
  cn_fetched : pageCount s + Z.of_nat (in_flight s)
               <= Z.of_nat (length (fetched_urls (log s)))
}.

(** Parents: a call that awaits its children is a seed, and the children
    it awaits are calls made after the seeds. *)
Definition awaited_ok (seeds : nat) (s : session) : Prop :=
  forall p t kids, tasks s !! p = Some t -> t_pc t = AwaitChildren kids ->
    (p < seeds)%nat /\
    Forall (fun k => (seeds <= k < length (tasks s))%nat) kids.

(** Where a call is right after it was made. *)
Definition fresh_pc (t : task) : Prop :=
  t_pc t = AwaitAcquire \/ t_pc t = Returned.

(** The [await]s a call has behind it. *)
Definition rank (p : pc) : nat :=
  match p with
  | AwaitAcquire => 0
  | AwaitDelay => 1
  | AwaitInspect => 2
  | AwaitChildren _ => 3
  | Returned => 4
  end.

(** The [await]s that the calls of a session have behind them. *)
Definition work (s : session) : nat :=
  sum_list ((fun t => rank (t_pc t)) <$> tasks s).



End Inspector.

(** ** The question generator: [questioner.js], [refiner.js]
    ([unnamed/part_001]: [deterministicHash], [deterministicIndex],
    [deterministicChoice], [deterministicShuffle], [buildIntentPlan],
    [shouldPrioritizeIntent], [normalizeQuestion])

    Numbers are the integers that the doubles of the source hold; where the
    source converts to 32 bits or rounds to 53, so does the model. *)

Module Questions.

(** *** Numbers *)

(** [ToInt32]: the integer modulo 2^32, read as a signed 32-bit number. *)
Definition toInt32 (z : Z) : Z := (z + 2147483648) mod 4294967296 - 2147483648.

(** [a << n] *)
Definition shl (a n : Z) : Z := toInt32 (Z.shiftl (toInt32 a) (Z.land n 31)).

(** [a & b] *)
Definition and32 (a b : Z) : Z := Z.land (toInt32 a) (toInt32 b).

(** The double nearest to an integer [z >= 0], ties to even: what a
    product or a sum of two numbers is rounded to. *)
Definition round53 (z : Z) : Z :=
  if z <? 9007199254740992 then z
  else
    let e := Z.log2 z - 52 in
    let q := Z.shiftr z e in
    let r := z - Z.shiftl q e in
    let half := Z.shiftl 1 (e - 1) in
    let q' := if r <? half then q
              else if half <? r then q + 1
              else if Z.even q then q else q + 1 in
    Z.shiftl q' e.

(** The UTF-16 code units of a string whose characters are below U+0100. *)
Definition units (s : string) : list Z :=
  map (fun c => Z.of_N (N_of_ascii c)) (list_ascii_of_string s).

(** *** [deterministicHash], [deterministicIndex], [deterministicChoice] *)

(** One turn of the loop: [hash = ((hash << 5) - hash) + char;
    hash = hash & hash]. *)
Definition hash_step (hash char : Z) : Z :=
  let hash := (shl hash 5 - hash) + char in
  and32 hash hash.

(** [str] is given by its code units ([charCodeAt]). *)
Definition deterministicHash (str : list Z) : Z :=
  Z.abs (fold_left hash_step str 0).

(** [%] is the remainder that takes the sign of the dividend. *)
Definition deterministicIndex (seed : list Z) (length : Z) : Z :=
  if length =? 0 then 0 else Z.rem (deterministicHash seed) length.

(** [None] is [null], and [undefined] for an index outside [options]. *)
Definition deterministicChoice {A} (seed : list Z) (options : list A)
    : option A :=
  match options with
  | [] => None
  | _ => options !! Z.to_nat (deterministicIndex seed (Z.of_nat (length options)))
  end.

(** The value of the polynomial with the coefficients [str] at 31. *)
Definition polynomial (str : list Z) : Z :=
  fold_left (fun acc c => 31 * acc + c) str 0.

(** *** [deterministicShuffle] *)

(** [hash = (hash * 1103515245 + 12345) & 0x7fffffff] *)
Definition lcg (hash : Z) : Z :=
  and32 (round53 (round53 (hash * 1103515245) + 12345)) 2147483647.

(** [[result[i], result[j]] = [result[j], result[i]]]; [None] when an
    index is outside the array (the source would then store
    [undefined]). *)
Definition swap {A} (i j : nat) (result : list A) : option (list A) :=
  match result !! i, result !! j with
  | Some a, Some b => Some (<[j := a]> (<[i := b]> result))
  | _, _ => None
  end.

(** The loop [for (let i = result.length - 1; i > 0; i--)], from [i]. *)
Fixpoint shuffle_from {A} (i : nat) (hash : Z) (result : list A)
    : option (list A) :=
  match i with
  | O => Some result
  | S i' =>
      let hash := lcg hash in
      let j := Z.to_nat (Z.rem hash (Z.of_nat i + 1)) in
      match swap i j result with
      | Some result' => shuffle_from i' hash result'
      | None => None
      end
  end.

Definition deterministicShuffle {A} (array : list A) (seed : list Z)
    : option (list A) :=
  match array with
  | [] => Some []
  | _ => shuffle_from (length array - 1) (deterministicHash seed) array
  end.

(** *** [buildIntentPlan] *)

(** The strings of [VALID_INTENTS]. *)
Inductive intent : Type :=
| definition | analysis | comparison | impact
| risk | implementation | trend | limitation.

Definition intent_eqb (a b : intent) : bool :=
  match a, b with
  | definition, definition | analysis, analysis | comparison, comparison
  | impact, impact | risk, risk | implementation, implementation
  | trend, trend | limitation, limitation => true
  | _, _ => false
  end.

Definition VALID_INTENTS : list intent :=
  [definition; analysis; comparison; impact; risk; implementation; trend;
   limitation].

Definition intentKeywords (i : intent) : list string :=
  match i with
  | comparison => ["compare"; "versus"; "vs"; "alternative"; "difference"]
  | implementation => ["implement"; "deploy"; "use"; "apply"; "practice"; "build"]
  | trend => ["future"; "trend"; "emerging"; "development"; "innovation"]
  | limitation => ["limitation"; "constraint"; "weakness"; "drawback"]
  | _ => []
  end%string.

Definition shouldPrioritizeIntent (i : intent) (instruction : string) : bool :=
  existsb (fun keyword => Fetcher.includes keyword instruction)
          (intentKeywords i).

Section Platform.

(** [String.prototype.toLowerCase] *)
Variable toLowerCase : string -> string.

(** [extraInstruction] is [None] for [null]; [seed + 'impactRisk'] and the
    like are the concatenations of the strings.  The plan is [None] when a
    choice or a shuffle is: the source would then put [null] or [undefined]
    into the plan. *)
Definition buildIntentPlan (extraInstruction : option string) (seed : string)
    : option (list intent) :=
  impactOrRisk ← deterministicChoice (units (seed +:+ "impactRisk")) [impact; risk];
  implOrComp ← deterministicChoice (units (seed +:+ "implComp"))
                  [implementation; comparison];
  let required := [definition; analysis; impactOrRisk; implOrComp] in
  let remaining :=
    List.filter (fun i => negb (existsb (intent_eqb i) required)) VALID_INTENTS in
  let '(prioritized, unprioritized) :=
    if Fetcher.truthy extraInstruction then
      let instruction := toLowerCase (default EmptyString extraInstruction) in
      (List.filter (fun i => shouldPrioritizeIntent i instruction) remaining,
       List.filter (fun i => negb (shouldPrioritizeIntent i instruction)) remaining)
    else ([], remaining) in
  shuffledPrioritized ← deterministicShuffle prioritized
                           (units (seed +:+ "prioritized"));
  shuffledUnprioritized ← deterministicShuffle unprioritized
                             (units (seed +:+ "unprioritized"));
  Some (required ++ shuffledPrioritized ++ shuffledUnprioritized).

End Platform.

(** *** [normalizeQuestion] *)

(** [\s], on ASCII: tab, line feed, vertical tab, form feed, carriage
    return and space; [String.prototype.trim] removes the same. *)
Definition is_space (c : ascii) : bool :=
  Url.one_of [" "; "009"; "010"; "011"; "012"; "013"]%char c.

(** [\w] *)
Definition is_word (c : ascii) : bool :=
  Url.is_alnum c || Url.is_char "_" c.

(** [.replace(/\s+/g, ' ')]; [in_run] tells that the character before
    was white space. *)
Fixpoint squeeze (in_run : bool) (l : list ascii) : list ascii :=
  match l with
  | [] => []
  | c :: r =>
      if is_space c
      then if in_run then squeeze true r else " "%char :: squeeze true r
      else c :: squeeze false r
  end.

Fixpoint trim_start (l : list ascii) : list ascii :=
  match l with
  | c :: r => if is_space c then trim_start r else l
  | [] => []
  end.

(** [.trim()] *)
Definition trim (l : list ascii) : list ascii :=
  rev (trim_start (rev (trim_start l))).

(** The same function is in [refiner.js] and in [questioner.js]. *)
Definition normalizeQuestion (question : string) : string :=
  let lower := map Url.to_lower (list_ascii_of_string question) in
  let stripped := List.filter (fun c => is_word c || is_space c) lower in
  string_of_list_ascii (trim (squeeze false stripped)).

(** The characters of a normalised question: [a-z0-9_] and the space. *)
Definition question_char (c : ascii) : bool :=
  Url.is_lower c || Url.is_digit c || Url.is_char "_" c || Url.is_char " " c.

(** Whether two white-space characters stand next to each other. *)
Fixpoint adjacent_spaces (l : list ascii) : bool :=
  match l with
  | c :: ((d :: _) as r) => (is_space c && is_space d) || adjacent_spaces r
  | _ => false
  end.

Definition starts_with_space (l : list ascii) : bool :=
  match l with c :: _ => is_space c | [] => false end.

End Questions.


(** ** Sample environments *)

Module Examples.

Definition no_faults (n : nat) : bool := false.
Definition never_stop (n : nat) : bool := false.

Definition now : string := "2026-01-15T10:30:00.000Z".

Definition ctx : Storage.researchContext :=
  Storage.Context (Some "Solar power"%string) None (Some "1"%string) None.

Definition run_dir : string := "runs/solar_power_2026-01-15_10-30-00Z".

Fixpoint filler (n : nat) : string :=
  match n with
  | O => EmptyString
  | S n' => String "a" (filler n')
  end.

Definition seed : string := "http://example.com/".

Definition links_of (n : nat) : list string :=
  map (fun i => ("http://example.com/p" +:+ pretty i)%string) (seq 1 n).

(** A site whose front page has 500 characters of text and 40 links to
    pages of its own, each of them with text and no links. *)
Definition extract (html base : string) : Inspector.extraction :=
  if String.eqb base seed
  then Inspector.Extraction "Front page" (filler 500) (links_of 40)
  else Inspector.Extraction "Page" (filler 500) [].

Definition html : Fetcher.result := Fetcher.Resolved "<html>".

(** The seed is admitted, delayed, fetched and fans out. *)
Definition seed_inspected : list Inspector.action :=
  [Inspector.Resume 0; Inspector.Resume 0; Inspector.Inspected 0 html now].

(** After that, the first child is fetched while the seed waits. *)
Definition child_inspected : list Inspector.action :=
  seed_inspected ++
  [Inspector.Resume 1; Inspector.Resume 1; Inspector.Inspected 1 html now].

Definition page1 : Storage.value := Storage.VObject "{url:'http://example.com/p1'}".
Definition page2 : Storage.value := Storage.VObject "{url:'http://example.com/p2'}".
Definition synthesis : Storage.value := Storage.VObject "{summary:'...'}".


Definition chars (s : string) : list ascii := list_ascii_of_string s.

(** A leaf of the sample site. *)
Definition leaf : string := "http://example.com/p1".

(** The leaf is admitted, delayed and fetched; it has no links and
    returns. *)
Definition leaf_inspected : list Inspector.action :=
  [Inspector.Resume 0; Inspector.Resume 0; Inspector.Inspected 0 html now].

(** A stop callback that answers no to its first [n] calls and yes from
    then on. *)
Definition stop_after (n k : nat) : bool := (n <=? k)%nat.

(** A site every page of which has text and two links of its own. *)
Definition hub (html base : string) : Inspector.extraction :=
  Inspector.Extraction "Hub" (filler 500)
    [(base +:+ "/a")%string; (base +:+ "/b")%string].

Definition three_seeds : list string :=
  ["http://a.example"; "http://b.example"; "http://c.example"]%string.

(** The three seeds are admitted, delayed and fetched, and fan out. *)
Definition three_parents : list Inspector.action :=
  [Inspector.Resume 0; Inspector.Resume 1; Inspector.Resume 2;
   Inspector.Resume 0; Inspector.Resume 1; Inspector.Resume 2;
   Inspector.Inspected 0 html now; Inspector.Inspected 1 html now;
   Inspector.Inspected 2 html now].

(** The third and the seventh call into the file system fail. *)
Definition flaky (n : nat) : bool := Nat.eqb n 2 || Nat.eqb n 6.

Definition session_of_calls : list Storage.request :=
  [Storage.Call (Storage.Initialize now ctx);
   Storage.SaveQuestionTree (Storage.VArray ["q1"%string]);
   Storage.Call (Storage.SavePageResult page1);
   Storage.Call (Storage.SavePageResult page2);
   Storage.Call (Storage.SaveSynthesis synthesis);
   Storage.Call Storage.Flush;
   Storage.Call (Storage.SavePageResult page1)].

End Examples.

(* ===================================================================== *)
(** * Part II: lemmas and theorems                                        *)
(* ===================================================================== *)

(** ** The governor *)

Section SemaphoreFacts.
Import Semaphore.

Lemma take_out_length w l r :
  take_out w l = Some r -> length l = S (length r).
Proof.
  revert r; induction l as [|x l IH]; intros r; simpl; [discriminate|].
  destruct (Nat.eqb x w).
  - intros [= <-]; reflexivity.
  - destruct (take_out w l) as [r'|]; [|discriminate].
    intros [= <-]; simpl; rewrite (IH r' eq_refl); reflexivity.
Qed.

Lemma sem_inv_start m : 0 <= m -> sem_inv m (start m).
Proof. intros Hm; repeat split; simpl; auto; congruence. Qed.

Lemma sem_inv_apply m o st st' :
  0 <= m -> sem_inv m st -> apply o st = Some st' -> sem_inv m st'.
Proof.
  intros Hm (Hmax & Hcur & Hle & Hfifo & Hfull) Happ.
  destruct o as [w|w]; simpl in Happ.
  - unfold acquire in Happ.
    destruct (Z.ltb_spec (current (sem st)) (max (sem st))) as [Hlt|Hge];
      injection Happ as <-; unfold sem_inv; simpl; split_and!; auto;
      rewrite ?length_app; simpl; try lia.
    + intros Hq; specialize (Hfull Hq); lia.
    + rewrite Hfifo, <- app_assoc; reflexivity.
  - destruct (take_out w (holders st)) as [hs|] eqn:Hout; [|discriminate].
    apply take_out_length in Hout.
    unfold release in Happ.
    destruct (queue (sem st)) as [|v q] eqn:Hq;
      injection Happ as <-; unfold sem_inv; simpl; split_and!; auto;
      rewrite ?length_app; simpl; try lia; try congruence.
    + rewrite Hfifo, <- app_assoc; reflexivity.
    + intros _. assert (current (sem st) = m) by (apply Hfull; congruence). lia.
Qed.

Lemma sem_inv_exec m ops : forall st st',
  0 <= m -> sem_inv m st -> exec ops st = Some st' -> sem_inv m st'.
Proof.
  induction ops as [|o ops IH]; intros st st' Hm Hinv; simpl.
  - intros [= <-]; exact Hinv.
  - destruct (apply o st) as [st1|] eqn:Happ; [|discriminate].
    intros Hex; apply (IH st1 st' Hm); [|exact Hex].
    eapply sem_inv_apply; eassumption.
Qed.

(** The counter stays within the capacity whatever is called, in whatever
    order. *)
Lemma counter_within_capacity m ops : forall s,
  max s = m -> current s <= m ->
  max (replay ops s) = m /\ current (replay ops s) <= m.
Proof.
  induction ops as [|o ops IH]; intros s Hmax Hcur; [auto|].
  destruct o as [w|w]; cbn [replay]; apply IH.
  - unfold acquire. destruct (Z.ltb_spec (current s) (max s)); simpl; [auto | auto].
  - unfold acquire. destruct (Z.ltb_spec (current s) (max s)); simpl; lia.
  - unfold release. destruct (queue s); simpl; auto.
  - unfold release. destruct (queue s); simpl; lia.
Qed.

(** [release] hands the freed slot to the head of the queue. *)
Lemma release_wakes_head s :
  snd (release s) = head (queue s) /\
  queue (fst (release s)) = tail (queue s).
Proof. unfold release; destruct (queue s); simpl; auto. Qed.

(** C6. For every history of [acquire]/[release] calls on a governor of
    capacity [m] in which only holders release, the number of held slots is
    the counter [current] and never exceeds [m]; the callers woken so far
    are, in order, a prefix of the callers that blocked, the rest being the
    queue (first blocked, first granted); and a [release] wakes the head of
    the queue, if any. *)
Theorem governor_bounded_and_fifo (m : Z) (ops : list op) (st : observed) :
  0 <= m ->
  exec ops (start m) = Some st ->
  Z.of_nat (length (holders st)) = current (sem st) /\
  Z.of_nat (length (holders st)) <= m /\
  blocked st = woken st ++ queue (sem st) /\
  snd (release (sem st)) = head (queue (sem st)).
Proof.
  intros Hm Hex.
  destruct (sem_inv_exec m ops _ _ Hm (sem_inv_start m Hm) Hex)
    as (_ & Hcur & Hle & Hfifo & _).
  repeat split; auto; try lia.
  apply release_wakes_head.
Qed.

Lemma governor_bounded_and_fifo_witness :
  let ops := [Acquire 1; Acquire 2; Acquire 3; Acquire 4; Acquire 5;
              Release 2; Release 1]%nat in
  let st := Obs (Make 3 3 []) [3; 4; 5]%nat [4; 5]%nat [4; 5]%nat in
  exec ops (start 3) = Some st /\
  Z.of_nat (length (holders st)) = current (sem st) /\
  Z.of_nat (length (holders st)) <= 3 /\
  blocked st = woken st ++ queue (sem st) /\
  snd (release (sem st)) = head (queue (sem st)).
Proof.
  intros ops st. split; [vm_compute; reflexivity|].
  apply (governor_bounded_and_fifo 3 ops st); [lia | vm_compute; reflexivity].
Defined.

End SemaphoreFacts.

(** ** The governor: work conservation *)

Section SemaphoreWork.
Import Semaphore.

(** X1. Nobody waits beside a free slot: in every history of
    [acquire]/[release] calls on a governor of capacity [m >= 0] in which
    only holders release, whenever a caller is parked on the queue the
    counter is at [m] and [m] callers hold a slot. *)
Theorem no_waiting_beside_a_free_slot (m : Z) (ops : list op) (st : observed) :
  0 <= m ->
  exec ops (start m) = Some st ->
  queue (sem st) <> [] ->
  current (sem st) = m /\ Z.of_nat (length (holders st)) = m.
Proof.
  intros Hm Hex Hq.
  destruct (sem_inv_exec m ops _ _ Hm (sem_inv_start m Hm) Hex)
    as (_ & Hcur & _ & _ & Hfull).
  specialize (Hfull Hq). split; [exact Hfull | lia].
Qed.

Lemma no_waiting_beside_a_free_slot_witness :
  let ops := [Acquire 1; Acquire 2; Acquire 3; Acquire 4; Release 2;
              Acquire 5]%nat in
  exists st, exec ops (start 3) = Some st /\
             queue (sem st) = [5%nat] /\
             current (sem st) = 3 /\ Z.of_nat (length (holders st)) = 3.
Proof.
  intros ops. eexists. split; [vm_compute; reflexivity|].
  split; [reflexivity|].
  apply (no_waiting_beside_a_free_slot 3 ops);
    [lia | vm_compute; reflexivity | discriminate].
Defined.

End SemaphoreWork.


(** ** The fetcher *)

Section FetcherFacts.
Import Fetcher.

Lemma string_app_cons x (a b : string) :
  (String x a +:+ b)%string = String x (a +:+ b).
Proof. reflexivity. Qed.

Lemma string_app_assoc (a b c : string) : ((a +:+ b) +:+ c = a +:+ (b +:+ c))%string.
Proof.
  induction a as [|x a IH]; [reflexivity|].
  rewrite !string_app_cons, IH; reflexivity.
Qed.

Lemma string_app_empty_r (a : string) : (a +:+ EmptyString = a)%string.
Proof.
  induction a as [|x a IH]; [reflexivity|].
  rewrite string_app_cons, IH; reflexivity.
Qed.









End FetcherFacts.

(** ** The fetcher: what a fetch resolves with *)

Section FetcherOutcomes.
Import Fetcher.

Lemma read_body_resolved events : forall data d,
  strlen data <= MAX_TEXT_LENGTH * 2 ->
  read_body data events = Resolved d ->
  d = (data +:+ received events)%string /\ strlen d <= MAX_TEXT_LENGTH * 2.
Proof.
  induction events as [|e events IH]; intros data d Hdata; cbn [read_body];
    [discriminate|].
  destruct e as [ab chunk| | | |]; try discriminate.
  - destruct ab; [discriminate|].
    destruct (Z.gtb_spec (strlen (data +:+ chunk)) (MAX_TEXT_LENGTH * 2))
      as [Hbig|Hok]; [discriminate|].
    intros Hr. destruct (IH _ _ Hok Hr) as (-> & Hlen).
    split; [|exact Hlen]. cbn [received]. apply string_app_assoc.
  - intros [= <-]. split; [|exact Hdata].
    cbn [received]. rewrite string_app_empty_r. reflexivity.
Qed.

(** X2. What a fetch resolves with.  When [fetchWithTimeout] resolves,
    the call was not cancelled, the responses before the last were redirects
    that were followed, the last response had status 200 and a content type
    that includes [text/html], and the value is what the ['data'] events
    brought up to the end of the body, put together, at most 100000
    characters long. *)
Theorem fetch_resolves_with_html_body (net : list request) (data : string) :
  fetchWithTimeout net = Resolved data ->
  strlen data <= 100000 /\
  exists hops res rest,
    net = hops ++ Request false (Responded res) :: rest /\
    Forall followed_redirect hops /\
    abortedAtResponse res = false /\
    statusCode res = 200 /\
    includes "text/html" (or_empty (contentType res)) = true /\
    data = received (body res).
Proof.
  induction net as [|rq net IH]; cbn [fetchWithTimeout]; [discriminate|].
  destruct rq as [ac ans]. cbn [abortedAtCall answer].
  destruct ac; [discriminate|].
  destruct ans as [| | |res]; try discriminate.
  destruct (abortedAtResponse res) eqn:Hab; [discriminate|].
  destruct (is_redirect res) eqn:Hred.
  - intros Hr. destruct (IH Hr)
      as (Hlen & hops & res' & rest & -> & Hhops & Hrest).
    split; [exact Hlen|].
    exists (Request false (Responded res) :: hops), res', rest.
    split; [reflexivity|]. split; [|exact Hrest].
    constructor; [|exact Hhops].
    split; [reflexivity|]. exists res. auto.
  - destruct (Z.eqb_spec (statusCode res) 200) as [H200|]; [|discriminate].
    cbn [negb].
    destruct (includes "text/html" (or_empty (contentType res))) eqn:Hct;
      [|discriminate].
    cbn [negb]. intros Hr.
    destruct (read_body_resolved (body res) EmptyString data) as (Hd & Hlen);
      [unfold strlen, MAX_TEXT_LENGTH; cbn; lia | exact Hr |].
    split; [unfold MAX_TEXT_LENGTH in Hlen; lia|].
    exists [], res, net. split_and!; auto.
Qed.

Lemma fetch_resolves_with_html_body_witness :
  let res := Response 200 None (Some "text/html"%string) false
               [Data false "<html>"; Data false "ok</html>"; End;
                Data false "late"]%string in
  let net := [Request false
                (Responded (Response 301 (Some "/new"%string) None false []));
              Request false (Responded res)] in
  fetchWithTimeout net = Resolved "<html>ok</html>"%string /\
  strlen "<html>ok</html>" <= 100000.
Proof.
  intros res net. split; [reflexivity|].
  apply (fetch_resolves_with_html_body net "<html>ok</html>"). reflexivity.
Defined.

End FetcherOutcomes.


(** ** The URL normaliser *)

Section UrlFacts.
Import Url.

(** Facts about single characters are settled by running through the 256
    of them. *)
Ltac by_chars c :=
  destruct c as [[] [] [] [] [] [] [] []]; vm_compute;
  try reflexivity; try discriminate; try (intros; discriminate);
  try (intros; reflexivity); try tauto.

Lemma is_char_eq d c : is_char d c = true <-> c = d.
Proof. unfold is_char. apply Ascii.eqb_eq. Qed.

(** *** Cutting a string *)

Lemma break_app stop a b :
  forallb (fun c => negb (stop c)) a = true ->
  match b with [] => True | c :: _ => stop c = true end ->
  break stop (a ++ b) = (a, b).
Proof.
  intros Ha Hb. induction a as [|x a IH]; simpl in *.
  - destruct b as [|c b]; [reflexivity|]. simpl. rewrite Hb; reflexivity.
  - apply andb_true_iff in Ha as (Hx & Ha).
    apply negb_true_iff in Hx. rewrite Hx, (IH Ha). reflexivity.
Qed.

Lemma break_all stop a :
  forallb (fun c => negb (stop c)) a = true -> break stop a = (a, []).
Proof.
  intros Ha. rewrite <- (app_nil_r a) at 1. apply break_app; [assumption | exact I].
Qed.

Lemma forallb_imp {A} (P Q : A -> bool) l :
  (forall x, P x = true -> Q x = true) ->
  forallb P l = true -> forallb Q l = true.
Proof.
  intros H. induction l as [|x l IH]; simpl; [reflexivity|].
  intros Hl. apply andb_true_iff in Hl as (Hx & Hl).
  rewrite (H x Hx), (IH Hl). reflexivity.
Qed.

Lemma strip_cons x r :
  r <> [] -> strip_trailing_slash (x :: r) = x :: strip_trailing_slash r.
Proof. destruct r; [contradiction | reflexivity]. Qed.

Lemma strip_snoc l c :
  strip_trailing_slash (l ++ [c]) = if is_char "/" c then l else l ++ [c].
Proof.
  induction l as [|x l IH]; [simpl; destruct (is_char "/" c); reflexivity|].
  change ((x :: l) ++ [c]) with (x :: (l ++ [c])).
  rewrite strip_cons by (destruct l; discriminate).
  rewrite IH. destruct (is_char "/" c); reflexivity.
Qed.

Lemma strip_keeps l :
  match last l with Some c => is_char "/" c | None => false end = false ->
  strip_trailing_slash l = l.
Proof.
  destruct l as [|x l _] using rev_ind; [reflexivity|].
  rewrite last_snoc, strip_snoc. intros ->; reflexivity.
Qed.

(** *** Characters *)

Lemma host_chars b h :
  host_ok_from b h = true ->
  forallb (fun c => negb (one_of ["/"; "?"; "#"]%char c)) h = true.
Proof.
  revert b; induction h as [|c h IH]; intros b;
    cbn [forallb host_ok_from]; [reflexivity|].
  assert (Hc : is_lower c || is_digit c || is_char "." c = true ->
               negb (one_of ["/"; "?"; "#"]%char c) = true) by by_chars c.
  destruct b.
  - intros H; apply andb_true_iff in H as (Hl & H).
    rewrite Hc by (rewrite Hl; reflexivity). apply (IH _ H).
  - destruct (is_char "." c) eqn:Hdot.
    + intros H. rewrite Hc by (rewrite orb_true_r; reflexivity). apply (IH _ H).
    + intros H; apply andb_true_iff in H as (Hl & H).
      rewrite Hc by (rewrite Hl; reflexivity). apply (IH _ H).
Qed.

Lemma path_chars b p :
  path_ok_from b p = true ->
  forallb (fun c => negb (one_of ["?"; "#"]%char c)) p = true.
Proof.
  revert b; induction p as [|c p IH]; intros b;
    cbn [forallb path_ok_from]; [reflexivity|].
  assert (Hc : path_char c = true -> negb (one_of ["?"; "#"]%char c) = true)
    by by_chars c.
  intros H; apply andb_true_iff in H as (H1 & H).
  apply andb_true_iff in H1 as (H1 & _).
  rewrite (Hc H1). apply (IH _ H).
Qed.

Lemma query_chars q :
  forallb query_char q = true ->
  forallb (fun c => negb (is_char "#" c)) q = true.
Proof. apply forallb_imp. intros c; by_chars c. Qed.


Lemma path_ok_chars p :
  path_ok p = true ->
  forallb (fun c => negb (one_of ["?"; "#"]%char c)) p = true.
Proof.
  destruct p as [|c r]; [reflexivity|]. cbn [path_ok forallb].
  intros H; apply andb_true_iff in H as (Hc & Hr).
  apply is_char_eq in Hc as ->. rewrite (path_chars _ _ Hr). reflexivity.
Qed.

Lemma parse_built sch h p q :
  sch = list_ascii_of_string "http" \/ sch = list_ascii_of_string "https" ->
  host_ok h = true -> path_ok p = true ->
  forallb query_char (default [] q) = true ->
  parse (sch ++ list_ascii_of_string "://" ++ h ++ p ++
         match q with Some q => "?"%char :: q | None => [] end) =
    Parsed (MkURL sch h (match p with [] => ["/"%char] | _ => p end) q None).
Proof.
  intros Hsch Hh Hp Hq.
  set (tl := match q with Some q => "?"%char :: q | None => [] end).
  assert (Htl : match tl with
                | [] => True
                | c :: _ => one_of ["?"; "#"]%char c = true
                end) by (subst tl; destruct q; [reflexivity | exact I]).
  assert (H1 : break (one_of ["/"; "?"; "#"]%char) (h ++ p ++ tl) = (h, p ++ tl)).
  { apply break_app; [eapply host_chars; exact Hh|].
    destruct p as [|c r].
    - simpl. destruct tl as [|c tl']; [exact I|].
      revert Htl. clear. by_chars c.
    - cbn [path_ok] in Hp. apply andb_true_iff in Hp as (Hc & _).
      apply is_char_eq in Hc as ->. reflexivity. }
  assert (H2 : break (one_of ["?"; "#"]%char) (p ++ tl) = (p, tl))
    by (apply break_app; [apply path_ok_chars, Hp | exact Htl]).
  assert (H3 : match tl with
               | [] => (None, None)
               | c :: rest3 =>
                   if is_char "?" c then
                     let '(q0, rest4) := break (is_char "#") rest3 in
                     (Some q0, match rest4 with [] => None | _ :: f => Some f end)
                   else (None, Some rest3)
               end = (q, @None (list ascii))).
  { subst tl. destruct q as [q|]; [|reflexivity].
    change (is_char "?" "?") with true. cbv iota.
    rewrite break_all; [reflexivity|]. apply query_chars, Hq. }
  unfold parse.
  destruct Hsch as [-> | ->];
    cbn [list_ascii_of_string app existsb is_char Ascii.eqb Bool.eqb orb negb
         strip_prefix http_ https_];
    fold tl; rewrite H1, H2, H3, Hh, Hp, Hq; reflexivity.
Qed.


Lemma parse_well_formed s u : parse s = Parsed u -> well_formed u.
Proof.
  unfold parse. destruct (negb _); [discriminate|].
  set (found := match strip_prefix http_ s with
                | Some rest => Some (list_ascii_of_string "http", rest)
                | None => match strip_prefix https_ s with
                          | Some rest => Some (list_ascii_of_string "https", rest)
                          | None => None
                          end
                end).
  assert (Hsch : forall sch rest, found = Some (sch, rest) ->
            sch = list_ascii_of_string "http" \/ sch = list_ascii_of_string "https").
  { subst found. intros sch rest.
    destruct (strip_prefix http_ s); [intros [= <- _]; auto|].
    destruct (strip_prefix https_ s); [intros [= <- _]; auto | discriminate]. }
  destruct found as [[sch rest]|]; [|discriminate].
  specialize (Hsch sch rest eq_refl).
  destruct (break _ rest) as [h rest1].
  destruct (break _ rest1) as [p rest2].
  match goal with |- (let '(q, f) := ?e in _) = _ -> _ => destruct e as [q f] end.
  destruct (host_ok h) eqn:Hh; [|discriminate].
  destruct (path_ok p) eqn:Hp; [|discriminate].
  destruct (forallb query_char (default [] q)) eqn:Hq; [|discriminate].
  destruct (forallb printable (default [] f)); [|discriminate].
  cbn [andb]. intros [= <-]. unfold well_formed; cbn [scheme host pathname query].
  split_and!; auto.
  - destruct p; [reflexivity | assumption].
  - destruct p; discriminate.
Qed.


(** *** Query strings *)

Lemma forallb_flat_map {A B} (P : B -> bool) (f : A -> list B) l :
  (forall x, forallb P (f x) = true) -> forallb P (flat_map f l) = true.
Proof.
  intros H. induction l as [|x l IH]; simpl; [reflexivity|].
  rewrite forallb_app, H, IH. reflexivity.
Qed.

Lemma encode_query l : forallb query_char (encode l) = true.
Proof. apply forallb_flat_map. intros c; by_chars c. Qed.

Lemma encode_no_amp l :
  forallb (fun c => negb (is_char "&" c)) (encode l) = true.
Proof. apply forallb_flat_map. intros c; by_chars c. Qed.

Lemma encode_no_eq l :
  forallb (fun c => negb (is_char "=" c)) (encode l) = true.
Proof. apply forallb_flat_map. intros c; by_chars c. Qed.

Lemma encode_no_slash l :
  forallb (fun c => negb (is_char "/" c)) (encode l) = true.
Proof. apply forallb_flat_map. intros c; by_chars c. Qed.

Lemma encode_char_shape c :
  match plus_to_space (encode_char c) with
  | [x] => Ascii.eqb x c && negb (is_char "%" x)
  | [p; h; l] =>
      is_char "%" p &&
      match hex_value h, hex_value l with
      | Some a, Some b => Ascii.eqb (ascii_of_N (16 * a + b)) c
      | _, _ => false
      end
  | _ => false
  end = true.
Proof. by_chars c. Qed.

Lemma decode_encode_char c rest :
  percent_decode (plus_to_space (encode_char c) ++ rest) =
  c :: percent_decode rest.
Proof.
  pose proof (encode_char_shape c) as H.
  destruct (plus_to_space (encode_char c)) as [|x [|h [|l [|? ?]]]];
    try discriminate H.
  - apply andb_true_iff in H as (Hx & Hp).
    apply Ascii.eqb_eq in Hx as ->. apply negb_true_iff in Hp.
    cbn [app percent_decode]. rewrite Hp. reflexivity.
  - apply andb_true_iff in H as (Hp & H).
    destruct (hex_value h) as [a|] eqn:Ha; [|discriminate].
    destruct (hex_value l) as [b|] eqn:Hb; [|discriminate].
    apply Ascii.eqb_eq in H.
    cbn [app percent_decode]. rewrite Hp, Ha, Hb, H. reflexivity.
Qed.

Lemma decode_encode l : decode (encode l) = l.
Proof.
  unfold decode, encode, plus_to_space.
  induction l as [|c l IH]; [reflexivity|].
  cbn [flat_map]. rewrite map_app.
  change (map _ (encode_char c)) with (plus_to_space (encode_char c)).
  rewrite decode_encode_char, IH. reflexivity.
Qed.

Lemma split_on_none d a :
  forallb (fun c => negb (is_char d c)) a = true -> split_on d a = [a].
Proof.
  induction a as [|c a IH]; [reflexivity|]. cbn [forallb split_on].
  intros H; apply andb_true_iff in H as (Hc & Ha).
  apply negb_true_iff in Hc. unfold is_char in Hc. rewrite Hc, (IH Ha). reflexivity.
Qed.

Lemma split_on_app d a b :
  forallb (fun c => negb (is_char d c)) a = true ->
  split_on d (a ++ d :: b) = a :: split_on d b.
Proof.
  induction a as [|c a IH]; cbn [forallb split_on app].
  - intros _. rewrite Ascii.eqb_refl. reflexivity.
  - intros H; apply andb_true_iff in H as (Hc & Ha).
    apply negb_true_iff in Hc. unfold is_char in Hc. rewrite Hc, (IH Ha). reflexivity.
Qed.

Lemma parse_pair_encode p :
  ascii_pair p -> parse_pair (encode_pair p) = Some p.
Proof.
  intros (Hk & Hv). destruct p as [k v]; simpl in Hk, Hv.
  unfold parse_pair, encode_pair; cbn [fst snd].
  rewrite break_app; [|apply encode_no_eq | apply Ascii.eqb_refl].
  rewrite !decode_encode, Hk, Hv. reflexivity.
Qed.

Lemma encode_pair_amp p :
  forallb (fun c => negb (is_char "&" c)) (encode_pair p) = true.
Proof.
  unfold encode_pair. rewrite forallb_app. cbn [forallb].
  rewrite !encode_no_amp. reflexivity.
Qed.

Lemma encode_pair_query p : forallb query_char (encode_pair p) = true.
Proof.
  unfold encode_pair. rewrite forallb_app. cbn [forallb].
  rewrite !encode_query. reflexivity.
Qed.

Lemma encode_pair_cons p : exists c r, encode_pair p = c :: r.
Proof. unfold encode_pair. destruct (encode (fst p)); simpl; eauto. Qed.

Lemma split_serialize ps :
  ps <> [] -> split_on "&" (serialize ps) = map encode_pair ps.
Proof.
  induction ps as [|p ps IH]; [contradiction|]. intros _.
  destruct ps as [|p' ps].
  - cbn [serialize map]. apply split_on_none, encode_pair_amp.
  - change (serialize (p :: p' :: ps))
      with (encode_pair p ++ "&"%char :: serialize (p' :: ps)).
    rewrite split_on_app by apply encode_pair_amp.
    rewrite IH by discriminate. reflexivity.
Qed.

Lemma parse_pairs_encode ps :
  Forall ascii_pair ps -> parse_pairs (map encode_pair ps) = Some ps.
Proof.
  induction 1 as [|p ps Hp _ IH]; [reflexivity|].
  cbn [map parse_pairs].
  destruct (encode_pair_cons p) as (c & r & E).
  rewrite E, <- E, (parse_pair_encode p Hp), IH. reflexivity.
Qed.

Lemma params_round_trip ps :
  ps <> [] -> Forall ascii_pair ps ->
  URLSearchParams ("?"%char :: serialize ps) = Some ps.
Proof.
  intros Hne Hps. unfold URLSearchParams.
  change (is_char "?" "?") with true. cbv iota.
  rewrite split_serialize by assumption. apply parse_pairs_encode, Hps.
Qed.

Lemma parse_pairs_ascii pieces ps :
  parse_pairs pieces = Some ps -> Forall ascii_pair ps.
Proof.
  revert ps; induction pieces as [|piece pieces IH]; intros ps; cbn [parse_pairs].
  - intros [= <-]; constructor.
  - destruct piece as [|c r]; [apply IH|].
    destruct (parse_pair (c :: r)) as [p|] eqn:Hp; [|discriminate].
    destruct (parse_pairs pieces) as [ps'|]; [|discriminate].
    intros [= <-]. constructor; [|apply IH; reflexivity].
    unfold parse_pair in Hp. destruct (break _ _) as [n rest].
    destruct (is_ascii (decode n)) eqn:Hn; [|discriminate].
    destruct (is_ascii _) eqn:Hv in Hp; [|discriminate].
    injection Hp as <-. split; assumption.
Qed.

Lemma serialize_query ps : forallb query_char (serialize ps) = true.
Proof.
  induction ps as [|p ps IH]; [reflexivity|].
  destruct ps as [|p' ps]; [apply encode_pair_query|].
  change (serialize (p :: p' :: ps))
    with (encode_pair p ++ "&"%char :: serialize (p' :: ps)).
  rewrite forallb_app, encode_pair_query. cbn [forallb andb].
  rewrite IH. reflexivity.
Qed.

Lemma serialize_cons p ps : exists c r, serialize (p :: ps) = c :: r.
Proof.
  destruct (encode_pair_cons p) as (c & r & E).
  destruct ps; cbn [serialize]; rewrite E; simpl; eauto.
Qed.

Lemma serialize_no_slash ps :
  forallb (fun c => negb (is_char "/" c)) (serialize ps) = true.
Proof.
  assert (Hp : forall p, forallb (fun c => negb (is_char "/" c)) (encode_pair p) = true).
  { intros p. unfold encode_pair. rewrite forallb_app. cbn [forallb].
    rewrite !encode_no_slash. reflexivity. }
  induction ps as [|p ps IH]; [reflexivity|].
  destruct ps as [|p' ps]; [apply Hp|].
  change (serialize (p :: p' :: ps))
    with (encode_pair p ++ "&"%char :: serialize (p' :: ps)).
  rewrite forallb_app, Hp. cbn [forallb andb].
  rewrite IH. reflexivity.
Qed.


(** *** Sorting *)

Lemma lex_le_total a : forall b, lex_le a b = false -> lex_le b a = true.
Proof.
  induction a as [|x a IH]; intros [|y b]; cbn [lex_le]; try discriminate;
    try reflexivity.
  destruct (N.ltb_spec (code x) (code y)); [discriminate|].
  destruct (N.ltb_spec (code y) (code x)); [reflexivity|].
  apply IH.
Qed.

Lemma insert_sorted p l : sorted l -> sorted (insert p l).
Proof.
  unfold sorted. induction 1 as [|q l Hl IH Hq]; cbn [insert].
  - repeat constructor.
  - destruct (entry_le p q) eqn:Hpq.
    + constructor; [constructor; assumption|]. constructor; exact Hpq.
    + constructor; [exact IH|].
      destruct l as [|r l]; cbn [insert].
      * constructor. apply lex_le_total, Hpq.
      * destruct (entry_le p r).
        -- constructor. apply lex_le_total, Hpq.
        -- constructor. inversion Hq; assumption.
Qed.

Lemma sort_sorted l : sorted (sort l).
Proof.
  induction l as [|p l IH]; cbn [sort]; [constructor | apply insert_sorted, IH].
Qed.

Lemma sort_fixed l : sorted l -> sort l = l.
Proof.
  unfold sorted. induction 1 as [|p l Hl IH Hp]; [reflexivity|].
  cbn [sort]. rewrite IH. destruct Hp as [|q l Hpq]; cbn [insert]; [reflexivity|].
  rewrite Hpq. reflexivity.
Qed.

Lemma Forall_insert (P : list ascii * list ascii -> Prop) p l :
  P p -> Forall P l -> Forall P (insert p l).
Proof.
  intros Hp. induction 1 as [|q l Hq Hl IH]; cbn [insert].
  - repeat constructor; assumption.
  - destruct (entry_le p q); repeat constructor; assumption.
Qed.

Lemma Forall_sort (P : list ascii * list ascii -> Prop) l :
  Forall P l -> Forall P (sort l).
Proof.
  induction 1; cbn [sort]; [constructor | apply Forall_insert; assumption].
Qed.

Lemma insert_cons p l : exists q r, insert p l = q :: r.
Proof. destruct l as [|q l]; cbn [insert]; [|destruct (entry_le p q)]; eauto. Qed.

Lemma filter_all {A} (P : A -> Prop) `{!forall x, Decision (P x)} (l : list A) :
  Forall P l -> filter P l = l.
Proof.
  induction 1 as [|x l Hx _ IH]; [reflexivity|].
  rewrite filter_cons, decide_True, IH by assumption. reflexivity.
Qed.

Lemma Forall_filter_kept (l : list (list ascii * list ascii)) :
  Forall (fun p => kept p = true) (filter (fun p => kept p = true) l).
Proof.
  apply Forall_forall. intros p Hp.
  apply list_elem_of_filter in Hp as (Hk & _). exact Hk.
Qed.

Lemma Forall_filter_keeps {A} (P Q : A -> Prop) `{!forall x, Decision (Q x)} l :
  Forall P l -> Forall P (filter Q l).
Proof.
  rewrite !Forall_forall. intros Hall x Hx.
  apply list_elem_of_filter in Hx as (_ & Hx). auto.
Qed.

(** *** Paths *)

Lemma path_ok_from_prefix a t : forall b,
  path_ok_from b (a ++ t) = true -> path_ok_from b a = true.
Proof.
  induction a as [|c a IH]; intros b; [reflexivity|]. cbn [app path_ok_from].
  intros H; apply andb_true_iff in H as (H1 & H).
  rewrite H1, (IH _ H). reflexivity.
Qed.

Lemma path_ok_prefix r t : path_ok (r ++ t) = true -> path_ok r = true.
Proof.
  destruct r as [|x r]; [reflexivity|]. cbn [app path_ok].
  intros H; apply andb_true_iff in H as (H1 & H).
  rewrite H1, (path_ok_from_prefix _ _ _ H). reflexivity.
Qed.


(** *** The fixed point *)

Lemma href_no_fragment sch h p q :
  href (MkURL sch h p q None) =
  sch ++ list_ascii_of_string "://" ++ h ++ p ++
  match q with Some q => "?"%char :: q | None => [] end.
Proof. unfold href; cbn [scheme host pathname query fragment]. rewrite app_nil_r. reflexivity. Qed.

Lemma canonical_query_ok q :
  canonical q -> forallb query_char (default [] q) = true.
Proof.
  intros [-> | [-> | (ps & _ & _ & _ & _ & ->)]]; try reflexivity.
  apply serialize_query.
Qed.

(** With a canonical query, normalising the text of the record gives the
    text back. *)
Lemma normalize_href sch h p q :
  sch = list_ascii_of_string "http" \/ sch = list_ascii_of_string "https" ->
  host_ok h = true -> path_ok p = true -> p <> [] -> canonical q ->
  normalize (href (MkURL sch h p q None)) =
    Some (strip_trailing_slash (href (MkURL sch h p q None))).
Proof.
  intros Hsch Hh Hp Hne Hq.
  unfold normalize at 1. rewrite href_no_fragment at 1.
  rewrite (parse_built sch h p q Hsch Hh Hp (canonical_query_ok q Hq)).
  replace (match p with [] => ["/"%char] | _ :: _ => p end) with p
    by (destruct p; [contradiction | reflexivity]).
  change (clear_hash (MkURL sch h p q None)) with (MkURL sch h p q None).
  destruct Hq as [-> | [-> | (ps & Hps & Hascii & Hkept & Hsorted & ->)]];
    try reflexivity.
  destruct ps as [|p0 ps]; [contradiction|].
  destruct (serialize_cons p0 ps) as (c & r & E).
  unfold search; cbn [query]. rewrite E, <- E.
  rewrite params_round_trip by assumption.
  rewrite filter_all by assumption.
  rewrite sort_fixed by assumption.
  unfold set_search; cbn [scheme host pathname query fragment].
  rewrite E. reflexivity.
Qed.

Lemma strip_href_query sch h p q0 :
  forallb (fun c => negb (is_char "/" c)) q0 = true ->
  strip_trailing_slash (href (MkURL sch h p (Some q0) None)) =
  href (MkURL sch h p (Some q0) None).
Proof.
  intros Hq0. rewrite href_no_fragment.
  destruct q0 as [|c q0 _] using rev_ind.
  - rewrite !app_assoc. apply strip_snoc.
  - rewrite forallb_app in Hq0. apply andb_true_iff in Hq0 as (_ & Hc).
    cbn [forallb] in Hc. rewrite andb_true_r in Hc. apply negb_true_iff in Hc.
    change ("?"%char :: q0 ++ [c]) with (("?"%char :: q0) ++ [c]).
    rewrite !app_assoc, strip_snoc, Hc. reflexivity.
Qed.

Lemma normalize_record sch h p q :
  sch = list_ascii_of_string "http" \/ sch = list_ascii_of_string "https" ->
  host_ok h = true -> path_ok p = true -> p <> [] -> canonical q ->
  let w := strip_trailing_slash (href (MkURL sch h p q None)) in
  no_slash_at_end w -> normalize w = Some w.
Proof.
  intros Hsch Hh Hp Hne Hq w Hw.
  assert (Hsame : w = href (MkURL sch h p q None) -> normalize w = Some w).
  { intros E. rewrite E at 1. rewrite normalize_href by assumption. reflexivity. }
  destruct q as [q0|].
  - (* a query ends the text, and it does not end in a slash *)
    apply Hsame. subst w. apply strip_href_query.
    destruct Hq as [[=] | [[= ->] | (ps & _ & _ & _ & _ & [= ->])]];
      [reflexivity | apply serialize_no_slash].
  - (* the path ends the text *)
    destruct p as [|c r _] using rev_ind; [contradiction|].
    subst w. rewrite href_no_fragment in *. rewrite app_nil_r in *.
    rewrite !app_assoc in *. rewrite strip_snoc in *.
    destruct (is_char "/" c) eqn:Hc; [|apply Hsame; reflexivity].
    clear Hsame. rewrite <- !app_assoc in *.
    assert (Hr : path_ok r = true) by (eapply path_ok_prefix; exact Hp).
    pose proof (parse_built sch h r None Hsch Hh Hr eq_refl) as Hparse.
    rewrite app_nil_r in Hparse.
    unfold normalize. rewrite Hparse.
    change (clear_hash ?u) with u. unfold search; cbn [query].
    rewrite href_no_fragment, app_nil_r.
    destruct r as [|x r].
    + rewrite !app_assoc, strip_snoc.
      change (is_char "/" "/") with true. cbv iota.
      rewrite ?app_nil_r. reflexivity.
    + rewrite strip_keeps; [reflexivity | exact Hw].
Qed.

Lemma normalize_fixed s v :
  normalize s = Some v -> no_slash_at_end v -> normalize v = Some v.
Proof.
  unfold normalize at 1. destruct (parse s) as [url| |] eqn:Hparse;
    [| intros [= <-] _; unfold normalize; rewrite Hparse; reflexivity
     | discriminate].
  destruct (parse_well_formed s url Hparse) as (Hsch & Hh & Hp & Hne & Hq).
  destruct url as [sch h p q f]; cbn [scheme host pathname query] in *.
  change (clear_hash (MkURL sch h p q f)) with (MkURL sch h p q None).
  unfold search; cbn [query].
  destruct q as [[|c q0]|].
  - intros [= <-]. apply normalize_record; auto. right; left; reflexivity.
  - destruct (URLSearchParams _) as [params|] eqn:Hparams; [|discriminate].
    set (ps := sort (filter (fun p => kept p = true) params)).
    intros [= <-].
    unfold set_search; cbn [scheme host pathname query fragment].
    apply normalize_record; auto.
    destruct ps as [|p0 ps'] eqn:Eps; [left; reflexivity|].
    destruct (serialize_cons p0 ps') as (c' & r' & E). rewrite E, <- E.
    right; right. exists (p0 :: ps'). rewrite <- Eps. split_and!.
    + rewrite Eps; discriminate.
    + apply Forall_sort, Forall_filter_keeps.
      unfold URLSearchParams in Hparams. eapply parse_pairs_ascii, Hparams.
    + apply Forall_sort, Forall_filter_kept.
    + apply sort_sorted.
    + reflexivity.
  - intros [= <-]. apply normalize_record; auto. left; reflexivity.
Qed.

Lemma normalize_invalid s :
  existsb (is_char ":") s = false -> normalize s = Some s.
Proof. intros H. unfold normalize, parse. rewrite H. reflexivity. Qed.

(** C9, the claim as written fails: a path that ends in two slashes loses
    one of them at each pass. *)
Lemma normalizeUrl_not_idempotent :
  normalizeUrl "http://example.com//" = Some "http://example.com/"%string /\
  normalizeUrl "http://example.com/" = Some "http://example.com"%string /\
  ~ (forall u v w : string,
       normalizeUrl u = Some v -> normalizeUrl v = Some w -> w = v).
Proof.
  split; [reflexivity|]. split; [reflexivity|].
  intros H.
  specialize (H "http://example.com//"%string "http://example.com/"%string
                "http://example.com"%string eq_refl eq_refl).
  discriminate H.
Qed.

(** C9, amended.  On the modelled URLs, normalising a normalised URL that
    does not end in a slash yields the same string. *)
Theorem normalizeUrl_fixed_point (u v : string) :
  normalizeUrl u = Some v -> ends_with_slash v = false ->
  normalizeUrl v = Some v.
Proof.
  unfold normalizeUrl, ends_with_slash.
  destruct (normalize (list_ascii_of_string u)) as [l|] eqn:Hn; [|discriminate].
  cbn [fmap option_fmap option_map]. intros [= <-].
  rewrite list_ascii_of_string_of_list_ascii. intros Hl.
  rewrite (normalize_fixed _ _ Hn Hl). reflexivity.
Qed.

Lemma normalizeUrl_fixed_point_witness :
  normalizeUrl "https://example.com/a/?b=2&utm_source=x&a=1#top"
    = Some "https://example.com/a/?a=1&b=2"%string /\
  normalizeUrl "https://example.com/a/?a=1&b=2"
    = Some "https://example.com/a/?a=1&b=2"%string.
Proof.
  split; [reflexivity|].
  apply (normalizeUrl_fixed_point
           "https://example.com/a/?b=2&utm_source=x&a=1#top"
           "https://example.com/a/?a=1&b=2"); reflexivity.
Defined.

(** On a string without a colon [new URL] throws, and the string is
    returned as it is. *)
Lemma normalizeUrl_catch (u : string) :
  existsb (is_char ":") (list_ascii_of_string u) = false ->
  normalizeUrl u = Some u.
Proof.
  intros H. unfold normalizeUrl. rewrite (normalize_invalid _ H).
  cbn. rewrite string_of_list_ascii_of_string. reflexivity.
Qed.

End UrlFacts.

(** ** The URL normaliser: what it removes *)

Section UrlInsensitivity.
Import Url Examples.

(** *** What a normalised URL looks like *)

(** The record that [normalizeUrl] serialises. *)
Lemma normalize_parsed s url v :
  parse s = Parsed url -> normalize s = Some v ->
  exists q,
    v = strip_trailing_slash
          (href (MkURL (scheme url) (host url) (pathname url) q None)) /\
    canonical q /\
    (q = None \/ q = Some [] \/
     exists params,
       URLSearchParams (search url) = Some params /\
       q = Some (serialize (sort (filter (fun p => kept p = true) params))) /\
       sort (filter (fun p => kept p = true) params) <> []).
Proof.
  intros Hparse. unfold normalize. rewrite Hparse.
  destruct url as [sch h p q f]; cbn [scheme host pathname query] in *.
  change (clear_hash (MkURL sch h p q f)) with (MkURL sch h p q None).
  unfold search; cbn [query].
  destruct q as [[|c q0]|].
  - intros [= <-]. exists (Some []). split; [reflexivity|].
    split; [right; left; reflexivity | auto].
  - destruct (URLSearchParams _) as [params|] eqn:Hparams; [|discriminate].
    set (ps := sort (filter (fun p => kept p = true) params)).
    intros [= <-].
    unfold set_search; cbn [scheme host pathname query fragment].
    destruct ps as [|p0 ps'] eqn:Eps.
    + exists None. split; [reflexivity|]. split; [left; reflexivity | auto].
    + destruct (serialize_cons p0 ps') as (c' & r' & E). rewrite E, <- E.
      exists (Some (serialize (p0 :: ps'))). split; [reflexivity|].
      assert (Hcan : Forall ascii_pair ps /\
                     Forall (fun p => kept p = true) ps /\ sorted ps).
      { subst ps. split_and!.
        - apply Forall_sort, Forall_filter_keeps.
          unfold URLSearchParams in Hparams. eapply parse_pairs_ascii, Hparams.
        - apply Forall_sort, Forall_filter_kept.
        - apply sort_sorted. }
      rewrite Eps in Hcan. destruct Hcan as (H1 & H2 & H3).
      split.
      * right; right. exists (p0 :: ps'). split_and!; auto; try discriminate.
      * right; right. exists params. fold ps. rewrite Eps.
        split_and!; auto; discriminate.
  - intros [= <-]. exists None. split; [reflexivity|].
    split; [left; reflexivity | auto].
Qed.

(** Reading a normalised URL back. *)
Lemma parse_stripped sch h p q :
  sch = list_ascii_of_string "http" \/ sch = list_ascii_of_string "https" ->
  host_ok h = true -> path_ok p = true -> p <> [] -> canonical q ->
  exists p',
    parse (strip_trailing_slash (href (MkURL sch h p q None))) =
      Parsed (MkURL sch h p' q None).
Proof.
  intros Hsch Hh Hp Hne Hq.
  pose proof (canonical_query_ok q Hq) as Hqc.
  destruct q as [q0|].
  - (* a query ends the text, and it does not end in a slash *)
    rewrite strip_href_query.
    + rewrite href_no_fragment, (parse_built sch h p (Some q0)) by assumption.
      eauto.
    + destruct Hq as [[=] | [[= ->] | (ps & _ & _ & _ & _ & [= ->])]];
        [reflexivity | apply serialize_no_slash].
  - destruct p as [|c r _] using rev_ind; [contradiction|].
    rewrite href_no_fragment, app_nil_r.
    rewrite !app_assoc, strip_snoc.
    destruct (is_char "/" c) eqn:Hc.
    + assert (Hr : path_ok r = true) by (eapply path_ok_prefix; exact Hp).
      pose proof (parse_built sch h r None Hsch Hh Hr eq_refl) as Hparse.
      rewrite app_nil_r in Hparse. rewrite <- !app_assoc, Hparse. eauto.
    + pose proof (parse_built sch h (r ++ [c]) None Hsch Hh Hp eq_refl) as Hparse.
      rewrite app_nil_r in Hparse. rewrite <- !app_assoc.
      rewrite Hparse. eauto.
Qed.

(** X3. The URL that [normalizeUrl] returns for a URL that parses is
    itself a URL that parses, with the same scheme and host, without
    fragment and without tracking parameter ([utm_...], [ref], [fbclid]),
    its parameters in the order of the sort. *)
Theorem normalizeUrl_output_is_clean (u v : string) (url : URL) :
  parse (list_ascii_of_string u) = Parsed url ->
  normalizeUrl u = Some v ->
  exists url' params,
    parse (list_ascii_of_string v) = Parsed url' /\
    scheme url' = scheme url /\ host url' = host url /\
    fragment url' = None /\
    URLSearchParams (search url') = Some params /\
    Forall (fun p => kept p = true) params /\
    sorted params.
Proof.
  intros Hparse. unfold normalizeUrl.
  destruct (normalize (list_ascii_of_string u)) as [l|] eqn:Hn; [|discriminate].
  cbn [fmap option_fmap option_map]. intros [= <-].
  rewrite list_ascii_of_string_of_list_ascii.
  destruct (parse_well_formed _ _ Hparse) as (Hsch & Hh & Hp & Hne & _).
  destruct (normalize_parsed _ _ _ Hparse Hn) as (q & -> & Hq & _).
  destruct (parse_stripped _ _ _ q Hsch Hh Hp Hne Hq) as (p' & Hp').
  assert (Hps : exists params,
            URLSearchParams match q with
                            | Some ((_ :: _) as q0) => "?"%char :: q0
                            | _ => []
                            end = Some params /\
            Forall (fun p => kept p = true) params /\ sorted params).
  { destruct Hq as [-> | [-> | (ps & Hne' & Ha & Hk & Hs & ->)]].
    - exists []. split_and!; [reflexivity | constructor | constructor].
    - exists []. split_and!; [reflexivity | constructor | constructor].
    - exists ps. destruct ps as [|p0 ps']; [contradiction|].
      destruct (serialize_cons p0 ps') as (c' & r' & E).
      rewrite E. cbv beta iota. rewrite <- E.
      split_and!; [apply params_round_trip; [discriminate | exact Ha]
                  | exact Hk | exact Hs]. }
  destruct Hps as (params & H1 & H2 & H3).
  rewrite Hp'. eexists _, params. split; [reflexivity|].
  cbn [scheme host fragment]. unfold search; cbn [query].
  split_and!; auto.
Qed.


(** *** Fragments *)

Lemma break_more stop a b x y :
  break stop a = (x, y) ->
  match b with [] => True | c :: _ => stop c = true end ->
  break stop (a ++ b) = (x, y ++ b).
Proof.
  revert x y. induction a as [|c a IH]; intros x y; cbn [break app].
  - intros [= <- <-]. destruct b as [|c b]; [reflexivity|].
    intros Hc. cbn [break]. rewrite Hc. reflexivity.
  - destruct (stop c); [intros [= <- <-] _; reflexivity|].
    destruct (break stop a) as [x' y']. intros [= <- <-] Hb.
    rewrite (IH x' y' eq_refl Hb). reflexivity.
Qed.

Lemma strip_prefix_more p l rest b :
  strip_prefix p l = Some rest -> strip_prefix p (l ++ b) = Some (rest ++ b).
Proof.
  revert l. induction p as [|c p IH]; intros l; cbn [strip_prefix].
  - intros [= <-]. reflexivity.
  - destruct l as [|d l]; [discriminate|]. cbn [app].
    destruct (Ascii.eqb c d); [apply IH | discriminate].
Qed.

Lemma strip_prefix_none p l b :
  strip_prefix p l = None -> (length p <= length l)%nat ->
  strip_prefix p (l ++ b) = None.
Proof.
  revert l. induction p as [|c p IH]; intros l; cbn [strip_prefix].
  - discriminate.
  - destruct l as [|d l]; [cbn; lia|]. cbn [app length].
    destruct (Ascii.eqb c d); [|reflexivity].
    intros H Hl. apply IH; [exact H | lia].
Qed.


Lemma parse_with_fragment s url f :
  parse s = Parsed url -> forallb printable f = true ->
  exists f',
    parse (s ++ "#"%char :: f) =
      Parsed (MkURL (scheme url) (host url) (pathname url) (query url)
                (Some f')).
Proof.
  intros Hparse Hf. set (b := "#"%char :: f).
  unfold parse in *.
  destruct (existsb (is_char ":") s) eqn:Hcolon; [|discriminate].
  rewrite existsb_app, Hcolon. cbn [orb negb] in *.
  set (found := match strip_prefix http_ s with
                | Some rest => Some (list_ascii_of_string "http", rest)
                | None => match strip_prefix https_ s with
                          | Some rest => Some (list_ascii_of_string "https", rest)
                          | None => None
                          end
                end) in *.
  assert (Hfound : forall sch rest, found = Some (sch, rest) ->
            match strip_prefix http_ (s ++ b) with
            | Some rest => Some (list_ascii_of_string "http", rest)
            | None => match strip_prefix https_ (s ++ b) with
                      | Some rest => Some (list_ascii_of_string "https", rest)
                      | None => None
                      end
            end = Some (sch, rest ++ b)).
  { subst found. intros sch rest.
    destruct (strip_prefix http_ s) as [r|] eqn:E1.
    - intros [= <- <-]. rewrite (strip_prefix_more _ _ _ b E1). reflexivity.
    - destruct (strip_prefix https_ s) as [r|] eqn:E2; [|discriminate].
      intros [= <- <-].
      rewrite (strip_prefix_more _ _ _ b E2).
      rewrite strip_prefix_none; [reflexivity | exact E1 |].
      assert (Hlen : forall p l r0, strip_prefix p l = Some r0 ->
                (length p <= length l)%nat).
      { induction p as [|c p IH]; intros l r0; [cbn; lia|].
        destruct l as [|d l]; [discriminate|]. cbn [strip_prefix length].
        destruct (Ascii.eqb c d); [|discriminate].
        intros H. apply IH in H. lia. }
      apply Hlen in E2. cbn in *. lia. }
  destruct found as [[sch rest]|]; [|discriminate].
  rewrite (Hfound sch rest eq_refl). clear Hfound.
  destruct (break (one_of ["/"; "?"; "#"]%char) rest) as [h rest1] eqn:B1.
  rewrite (break_more _ rest b h rest1 B1 eq_refl).
  destruct (break (one_of ["?"; "#"]%char) rest1) as [p rest2] eqn:B2.
  rewrite (break_more _ rest1 b p rest2 B2 eq_refl).
  assert (Hhash : printable "#" = true) by reflexivity.
  destruct rest2 as [|c rest3].
  - cbn [app]. unfold b at 1. change (is_char "?" "#") with false. cbv iota.
    unfold default in *; cbn [from_option id forallb] in *.
    destruct (host_ok h && path_ok p && true && true) eqn:Hok; [|discriminate].
    rewrite andb_true_r in Hok. rewrite andb_true_r in Hok. rewrite Hok.
    rewrite Hf. cbn [andb]. injection Hparse as <-. eexists. reflexivity.
  - cbn [app]. destruct (is_char "?" c).
    + destruct (break (is_char "#") rest3) as [q0 rest4] eqn:B3.
      rewrite (break_more _ rest3 b q0 rest4 B3 eq_refl).
      destruct rest4 as [|x f0]; unfold default in *; cbn [app from_option id] in *.
      * unfold b at 1. cbn [forallb] in *.
        destruct (host_ok h && path_ok p && forallb query_char q0 && true)
          eqn:Hok; [|discriminate].
        rewrite andb_true_r in Hok. rewrite Hok, Hf. cbn [andb].
        injection Hparse as <-. eexists. reflexivity.
      * destruct (host_ok h && path_ok p && forallb query_char q0) eqn:Hok;
          [|discriminate].
        cbn [andb] in *.
        destruct (forallb printable f0) eqn:Hf0; [|discriminate].
        rewrite forallb_app, Hf0. unfold b. cbn [forallb]. rewrite Hhash, Hf.
        cbn [andb]. injection Hparse as <-. eexists. reflexivity.
    + unfold default in *; cbn [from_option id forallb] in *.
      destruct (host_ok h && path_ok p && true) eqn:Hok; [|discriminate].
      cbn [andb] in *.
      destruct (forallb printable rest3) eqn:Hf0; [|discriminate].
      rewrite forallb_app, Hf0. unfold b. cbn [forallb]. rewrite Hhash, Hf.
      cbn [andb]. injection Hparse as <-. eexists. reflexivity.
Qed.

(** X4. A fragment does not change the normal form: a URL that parses,
    followed by [#] and a fragment, has the normal form of the URL
    alone. *)
Theorem normalizeUrl_ignores_fragment (u f : string) (url : URL) :
  parse (list_ascii_of_string u) = Parsed url ->
  forallb printable (list_ascii_of_string f) = true ->
  normalizeUrl (u +:+ "#" +:+ f) = normalizeUrl u.
Proof.
  intros Hparse Hf.
  destruct (parse_with_fragment _ _ _ Hparse Hf) as (f' & Hparse').
  unfold normalizeUrl. f_equal.
  assert (E : list_ascii_of_string (u +:+ "#" +:+ f) =
              list_ascii_of_string u ++ "#"%char :: list_ascii_of_string f).
  { clear. induction u as [|x u IH]; [reflexivity|].
    change (String x u +:+ "#" +:+ f)%string
      with (String x (u +:+ "#" +:+ f)).
    cbn [list_ascii_of_string app]. rewrite IH. reflexivity. }
  rewrite E. unfold normalize. rewrite Hparse, Hparse'.
  destruct url as [sch h p q f0]. reflexivity.
Qed.

(** *** Tracking parameters *)

Lemma normalize_build sch h p ps :
  sch = list_ascii_of_string "http" \/ sch = list_ascii_of_string "https" ->
  host_ok h = true -> path_ok p = true -> Forall ascii_pair ps ->
  normalize (build sch h p ps) =
    Some (strip_trailing_slash
            (build sch h (match p with [] => ["/"%char] | _ => p end)
               (sort (filter (fun p => kept p = true) ps)))).
Proof.
  intros Hsch Hh Hp Hps. unfold build, normalize.
  destruct ps as [|p0 ps].
  - rewrite (parse_built sch h p None Hsch Hh Hp eq_refl).
    reflexivity.
  - destruct (serialize_cons p0 ps) as (c & r & E).
    pose proof (parse_built sch h p (Some (serialize (p0 :: ps))) Hsch Hh Hp
                  (serialize_query (p0 :: ps))) as Hparse.
    cbv beta iota in Hparse. rewrite Hparse.
    change (clear_hash ?u) with u.
    unfold search; cbn [query]. rewrite E, <- E.
    rewrite params_round_trip by (discriminate || assumption).
    set (qs := sort (filter (fun p => kept p = true) (p0 :: ps))).
    unfold set_search, href; cbn [scheme host pathname query fragment].
    destruct qs as [|q0 qs'] eqn:Eq.
    + cbn [serialize]. rewrite !app_nil_r. reflexivity.
    + destruct (serialize_cons q0 qs') as (c' & r' & E').
      rewrite E', <- E'. rewrite !app_nil_r. reflexivity.
Qed.

(** X5. A tracking parameter does not change the normal form: a URL of
    the modelled syntax, with ASCII parameters, has the same normal form with
    and without a parameter whose name, in lower case, starts with [utm_] or
    is [ref] or [fbclid], wherever the parameter stands among the
    others. *)
Theorem normalizeUrl_ignores_tracking sch h p ps1 t ps2 :
  sch = list_ascii_of_string "http" \/ sch = list_ascii_of_string "https" ->
  host_ok h = true -> path_ok p = true ->
  Forall ascii_pair (ps1 ++ t :: ps2) ->
  kept t = false ->
  normalize (build sch h p (ps1 ++ t :: ps2)) =
  normalize (build sch h p (ps1 ++ ps2)).
Proof.
  intros Hsch Hh Hp Hps Ht.
  assert (Hps' : Forall ascii_pair (ps1 ++ ps2)).
  { apply Forall_app in Hps as (H1 & H2). apply Forall_cons in H2 as (_ & H2).
    apply Forall_app; auto. }
  rewrite !normalize_build by assumption.
  rewrite !filter_app, filter_cons.
  rewrite decide_False by congruence. reflexivity.
Qed.


(** *** The order of the parameters *)

Lemma code_inj x y : code x = code y -> x = y.
Proof.
  unfold code. intros H. apply (f_equal ascii_of_N) in H.
  rewrite !ascii_N_embedding in H. exact H.
Qed.

Lemma lex_le_antisym a : forall b,
  lex_le a b = true -> lex_le b a = true -> a = b.
Proof.
  induction a as [|x a IH]; intros [|y b]; cbn [lex_le]; try discriminate;
    [reflexivity|].
  destruct (N.ltb_spec (code x) (code y)) as [Hxy|Hxy];
    destruct (N.ltb_spec (code y) (code x)) as [Hyx|Hyx];
    try discriminate; try lia.
  intros H1 H2. assert (code x = code y) by lia.
  rewrite (code_inj x y) by assumption. f_equal. apply IH; assumption.
Qed.

Lemma lex_le_trans a : forall b c,
  lex_le a b = true -> lex_le b c = true -> lex_le a c = true.
Proof.
  induction a as [|x a IH]; intros [|y b] [|z c]; cbn [lex_le];
    try discriminate; try reflexivity.
  destruct (N.ltb_spec (code x) (code y)) as [Hxy|Hxy];
    destruct (N.ltb_spec (code y) (code x)) as [Hyx|Hyx];
    destruct (N.ltb_spec (code y) (code z)) as [Hyz|Hyz];
    destruct (N.ltb_spec (code z) (code y)) as [Hzy|Hzy];
    destruct (N.ltb_spec (code x) (code z)) as [Hxz|Hxz];
    destruct (N.ltb_spec (code z) (code x)) as [Hzx|Hzx];
    try discriminate; try reflexivity; try lia.
  apply IH.
Qed.

Lemma entry_string_inj p q :
  plain_name p -> plain_name q -> entry_string p = entry_string q -> p = q.
Proof.
  unfold plain_name, entry_string.
  destruct p as [a b], q as [a' b']. cbn [fst snd].
  revert a'. induction a as [|x a IH]; intros [|y a']; cbn [app existsb].
  - intros _ _ [= ->]. reflexivity.
  - intros _ H [= <- _]. rewrite orb_false_iff in H. destruct H as (H & _).
    discriminate H.
  - intros H _ [= -> _]. rewrite orb_false_iff in H. destruct H as (H & _).
    discriminate H.
  - intros H1 H2 [= -> H]. apply orb_false_iff in H1 as (_ & H1).
    apply orb_false_iff in H2 as (_ & H2).
    specialize (IH a' H1 H2 H). injection IH as -> ->. reflexivity.
Qed.

Lemma insert_perm p l : insert p l ≡ₚ p :: l.
Proof.
  induction l as [|q l IH]; [reflexivity|].
  cbn [insert]. destruct (entry_le p q); [reflexivity|].
  rewrite IH. apply Permutation_swap.
Qed.

Lemma sort_perm l : sort l ≡ₚ l.
Proof.
  induction l as [|p l IH]; [reflexivity|].
  cbn [sort]. rewrite insert_perm, IH. reflexivity.
Qed.

Lemma sorted_perm_eq l : forall l',
  sorted l -> sorted l' -> l ≡ₚ l' -> Forall plain_name l -> l = l'.
Proof.
  assert (Htrans : Relations_1.Transitive
                     (fun p q : list ascii * list ascii => entry_le p q = true)).
  { intros p q r. unfold entry_le. apply lex_le_trans. }
  induction l as [|a l IH]; intros l' Hs Hs' Hperm Hplain.
  - apply Permutation_nil_l in Hperm. congruence.
  - destruct l' as [|b l'].
    { symmetry in Hperm. apply Permutation_nil_cons in Hperm. contradiction. }
    assert (Hplain' : Forall plain_name (b :: l')).
    { eapply Permutation_Forall; eassumption. }
    apply (Sorted_StronglySorted Htrans) in Hs as Hss.
    apply (Sorted_StronglySorted Htrans) in Hs' as Hss'.
    apply StronglySorted_inv in Hss as (Hss & Ha).
    apply StronglySorted_inv in Hss' as (Hss' & Hb).
    assert (Hab : a = b).
    { assert (Hin : a ∈ b :: l') by (rewrite <- Hperm; left).
      assert (Hin' : b ∈ a :: l) by (rewrite Hperm; left).
      apply elem_of_cons in Hin as [->|Hin]; [reflexivity|].
      apply elem_of_cons in Hin' as [->|Hin']; [reflexivity|].
      rewrite List.Forall_forall in Ha, Hb.
      apply list_elem_of_In in Hin, Hin'.
      specialize (Ha b Hin'). specialize (Hb a Hin).
      apply Forall_cons in Hplain as (Hpa & _).
      apply Forall_cons in Hplain' as (Hpb & _).
      apply (entry_string_inj a b Hpa Hpb).
      apply lex_le_antisym; assumption. }
    subst b. f_equal. apply IH.
    + apply StronglySorted_Sorted, Hss.
    + apply StronglySorted_Sorted, Hss'.
    + eapply Permutation_cons_inv, Hperm.
    + apply Forall_cons in Hplain as (_ & H). exact H.
Qed.

(** X6. When no parameter name has a comma in it, the order of the
    parameters does not change the normal form: two URLs of the modelled
    syntax, with ASCII parameters, that differ by a rearrangement of their
    parameters have the same normal form.  (The sort
    compares the strings [name,value]; with a comma in a name two different
    parameters can give the same string, and then keep the order they came
    in.) *)
Theorem normalizeUrl_ignores_order sch h p ps ps' :
  sch = list_ascii_of_string "http" \/ sch = list_ascii_of_string "https" ->
  host_ok h = true -> path_ok p = true ->
  Forall ascii_pair ps -> Forall plain_name ps ->
  ps ≡ₚ ps' ->
  normalize (build sch h p ps) = normalize (build sch h p ps').
Proof.
  intros Hsch Hh Hp Hps Hplain Hperm.
  assert (Hps' : Forall ascii_pair ps').
  { eapply Permutation_Forall; eassumption. }
  rewrite !normalize_build by assumption.
  do 3 f_equal. apply sorted_perm_eq.
  - apply sort_sorted.
  - apply sort_sorted.
  - rewrite !sort_perm. apply filter_Permutation, Hperm.
  - eapply Permutation_Forall; [symmetry; apply sort_perm|].
    apply Forall_filter_keeps, Hplain.
Qed.

(** *** Sample URLs *)

Lemma normalizeUrl_output_is_clean_witness :
  normalizeUrl "https://example.com/docs/?utm_source=mail&b=2&a=1#top"
    = Some "https://example.com/docs/?a=1&b=2"%string /\
  exists url' params,
    parse (chars "https://example.com/docs/?a=1&b=2") = Parsed url' /\
    host url' = chars "example.com" /\
    fragment url' = None /\
    URLSearchParams (search url') = Some params /\
    Forall (fun p => kept p = true) params /\
    sorted params.
Proof.
  split; [vm_compute; reflexivity|].
  destruct (normalizeUrl_output_is_clean
              "https://example.com/docs/?utm_source=mail&b=2&a=1#top"
              "https://example.com/docs/?a=1&b=2"
              (MkURL (chars "https") (chars "example.com") (chars "/docs/")
                 (Some (chars "utm_source=mail&b=2&a=1")) (Some (chars "top"))))
    as (url' & params & H1 & _ & H3 & H4 & H5 & H6 & H7).
  - vm_compute; reflexivity.
  - vm_compute; reflexivity.
  - exists url', params. split_and!; assumption.
Defined.

Lemma normalizeUrl_ignores_fragment_witness :
  normalizeUrl "http://example.com/a?b=1#section-2" = Some "http://example.com/a?b=1"%string /\
  normalizeUrl ("http://example.com/a?b=1" +:+ "#" +:+ "section-2")
    = normalizeUrl "http://example.com/a?b=1".
Proof.
  split; [vm_compute; reflexivity|].
  eapply (normalizeUrl_ignores_fragment "http://example.com/a?b=1" "section-2").
  - vm_compute; reflexivity.
  - vm_compute; reflexivity.
Defined.

Lemma normalizeUrl_ignores_tracking_witness :
  build (chars "http") (chars "example.com") (chars "/a")
    ([(chars "b", chars "2")] ++ (chars "utm_source", chars "mail") :: [(chars "a", chars "1")])
    = chars "http://example.com/a?b=2&utm_source=mail&a=1" /\
  normalize (build (chars "http") (chars "example.com") (chars "/a")
    ([(chars "b", chars "2")] ++ (chars "utm_source", chars "mail") :: [(chars "a", chars "1")]))
  = normalize (build (chars "http") (chars "example.com") (chars "/a")
    ([(chars "b", chars "2")] ++ [(chars "a", chars "1")])).
Proof.
  split; [vm_compute; reflexivity|].
  apply normalizeUrl_ignores_tracking.
  - left; reflexivity.
  - vm_compute; reflexivity.
  - vm_compute; reflexivity.
  - repeat constructor.
  - vm_compute; reflexivity.
Defined.

Lemma normalizeUrl_ignores_order_witness :
  normalize (build (chars "http") (chars "example.com") (chars "/a")
    [(chars "b", chars "2"); (chars "a", chars "1")])
  = normalize (build (chars "http") (chars "example.com") (chars "/a")
    [(chars "a", chars "1"); (chars "b", chars "2")]).
Proof.
  apply normalizeUrl_ignores_order.
  - left; reflexivity.
  - vm_compute; reflexivity.
  - vm_compute; reflexivity.
  - repeat constructor.
  - repeat constructor.
  - apply Permutation_swap.
Defined.

End UrlInsensitivity.




(** ** The crawl orchestrator *)

Section InspectorFacts.
Import Inspector.

Variable normalizeUrl : string -> string.
Variable extractTextAndLinks : string -> string -> extraction.
Variable shouldStopFn : nat -> bool.

Local Abbreviation processUrl := (processUrl normalizeUrl shouldStopFn).
Local Abbreviation shouldAbort := (shouldAbort shouldStopFn).
Local Abbreviation step := (step normalizeUrl extractTextAndLinks shouldStopFn).
Local Abbreviation run := (run normalizeUrl extractTextAndLinks shouldStopFn).
Local Abbreviation inspectQuestion := (inspectQuestion normalizeUrl shouldStopFn).
Local Abbreviation fan_out := (fan_out normalizeUrl shouldStopFn).
Local Abbreviation claims_ok := (claims_ok normalizeUrl).

(** *** What the pieces of [processUrl] touch *)

Lemma shouldAbort_frame s :
  let s' := (shouldAbort s).2 in
  visitedUrls s' = visitedUrls s /\ semaphore s' = semaphore s /\
  pageCount s' = pageCount s /\ tasks s' = tasks s /\
  held s' = held s /\ log s' = log s.
Proof. unfold Inspector.shouldAbort; destruct (aborted s); simpl; auto 10. Qed.

Lemma pc_of_set_pc s who p i :
  pc_of (set_pc who p s) i =
    if decide (who = i) then (fun _ => p) <$> pc_of s i else pc_of s i.
Proof.
  unfold pc_of, set_pc; simpl. rewrite list_lookup_alter.
  destruct (decide (who = i)) as [->|]; [|reflexivity].
  destruct (tasks s !! i); reflexivity.
Qed.

Lemma lookup_set_pc s who p i :
  tasks (set_pc who p s) !! i =
    if decide (who = i)
    then (fun t => Task (t_url t) (t_depth t) (t_parent t) p) <$> tasks s !! i
    else tasks s !! i.
Proof.
  unfold set_pc; simpl. rewrite list_lookup_alter.
  destruct (decide (who = i)) as [->|]; reflexivity.
Qed.


(** [processUrl] either returns at once, leaving everything but the list of
    calls as it was, or claims the URL and asks for a slot. *)
Lemma processUrl_cases u d p s :
  let s' := processUrl u d p s in
  let me := length (tasks s) in
  let n := normalizeUrl u in
  pageCount s' = pageCount s /\
  ((tasks s' = tasks s ++ [Task u d p Returned] /\
    visitedUrls s' = visitedUrls s /\ semaphore s' = semaphore s /\
    held s' = held s /\ log s' = log s)
   \/
   ((n ∉ visitedUrls s) /\
    tasks s' = tasks s ++ [Task u d p AwaitAcquire] /\
    visitedUrls s' = {[n]} ∪ visitedUrls s /\
    log s' = log s ++ [Claimed me n] /\
    ((Semaphore.current (semaphore s) < Semaphore.max (semaphore s) /\
      semaphore s' = Semaphore.Make (Semaphore.max (semaphore s))
                       (Semaphore.current (semaphore s) + 1)
                       (Semaphore.queue (semaphore s)) /\
      held s' = {[me]} ∪ held s)
     \/
     (Semaphore.max (semaphore s) <= Semaphore.current (semaphore s) /\
      semaphore s' = Semaphore.Make (Semaphore.max (semaphore s))
                       (Semaphore.current (semaphore s))
                       (Semaphore.queue (semaphore s) ++ [me]) /\
      held s' = held s)))).
Proof.
  intros s' me n; subst s' me n; unfold Inspector.processUrl.
  pose proof (shouldAbort_frame s) as (Hv & Hs & Hp & Ht & Hh & Hl).
  destruct (shouldAbort s) as [stop s1]; simpl in *.
  destruct stop.
  - simpl; rewrite Hv, Hs, Hp, Ht, Hh, Hl; auto 10.
  - destruct (bool_decide_reflect (normalizeUrl u ∈ visitedUrls s1)) as [Hin|Hout].
    + simpl; rewrite Hv, Hs, Hp, Ht, Hh, Hl; auto 10.
    + unfold Semaphore.acquire.
      rewrite Hv in Hout.
      destruct (Z.ltb_spec (Semaphore.current (semaphore s1))
                  (Semaphore.max (semaphore s1))) as [Hlt|Hge];
        simpl; rewrite ?Hv, ?Hs, ?Hp, ?Ht, ?Hh, ?Hl in *;
        (split; [reflexivity|]); right; split_and!; auto.
Qed.

Lemma leave_cases who s :
  let s' := leave who s in
  visitedUrls s' = visitedUrls s /\ pageCount s' = pageCount s /\
  log s' = log s /\ aborted s' = aborted s /\
  tasks s' = alter (fun t => Task (t_url t) (t_depth t) (t_parent t) Returned)
               who (tasks s) /\
  ((Semaphore.queue (semaphore s) = [] /\
    semaphore s' = Semaphore.Make (Semaphore.max (semaphore s))
                     (Semaphore.current (semaphore s) - 1) [] /\
    held s' = held s ∖ {[who]})
   \/
   (exists v q, Semaphore.queue (semaphore s) = v :: q /\
    semaphore s' = Semaphore.Make (Semaphore.max (semaphore s))
                     (Semaphore.current (semaphore s) - 1 + 1) q /\
    held s' = {[v]} ∪ held s ∖ {[who]})).
Proof.
  intros s'; subst s'; unfold leave, Semaphore.release.
  destruct (Semaphore.queue (semaphore s)) as [|v q] eqn:Hq; simpl;
    split_and!; auto.
  right; eauto.
Qed.


(** *** Slots *)

Lemma slots_ok_ext s s' :
  semaphore s' = semaphore s -> held s' = held s -> tasks s' = tasks s ->
  slots_ok s -> slots_ok s'.
Proof.
  intros Hs Hh Ht [? ? ? ? ? ? ? ?].
  split; unfold pc_of in *; rewrite ?Hs, ?Hh, ?Ht; assumption.
Qed.

Lemma pc_of_Some s i p :
  pc_of s i = Some p <-> exists t, tasks s !! i = Some t /\ t_pc t = p.
Proof.
  unfold pc_of; destruct (tasks s !! i) as [t|]; simpl; split.
  - intros [= <-]; eauto.
  - intros (t' & [= <-] & <-); reflexivity.
  - discriminate.
  - intros (? & ? & _); discriminate.
Qed.

Lemma slots_fresh s :
  slots_ok s ->
  (length (tasks s) ∉ held s) /\
  length (tasks s) ∉ Semaphore.queue (semaphore s).
Proof.
  intros H; split; intros Hin.
  - destruct (so_held _ H _ Hin) as (t & Ht & _).
    apply lookup_lt_Some in Ht; lia.
  - destruct (so_queue _ H _ Hin) as (_ & Hpc).
    apply pc_of_Some in Hpc as (t & Ht & _).
    apply lookup_lt_Some in Ht; lia.
Qed.

Lemma slots_processUrl u d p s : slots_ok s -> slots_ok (processUrl u d p s).
Proof.
  intros H.
  destruct (slots_fresh s H) as (Hfh & Hfq).
  destruct (processUrl_cases u d p s) as (_ & [(Ht & _ & Hs & Hh & _) | (_ & Ht & _ & _ & Hsem)]).
  - (* early return *)
    destruct H as [? ? ? ? ? Hq Hheld Hlive].
    split; unfold pc_of; rewrite ?Hs, ?Hh, ?Ht; auto.
    + intros w Hw; destruct (Hq w Hw) as (? & Hpc); split; [assumption|].
      apply pc_of_Some in Hpc as (t & Hlk & Hpc).
      unfold pc_of in *. rewrite lookup_app_l by (apply lookup_lt_Some in Hlk; lia).
      rewrite Hlk; simpl; congruence.
    + intros w Hw; destruct (Hheld w Hw) as (t & Hlk & Hpc).
      exists t; split; [|assumption].
      rewrite lookup_app_l by (apply lookup_lt_Some in Hlk; lia); assumption.
    + intros i t Hlk Hpc. apply lookup_snoc_Some in Hlk as [(_ & Hlk)|(_ & <-)].
      * eauto.
      * contradiction.
  - destruct H as [Hmax Hcur Hle Hfull Hnd Hq Hheld Hlive].
    destruct Hsem as [(Hlt & Hs & Hh) | (Hge & Hs & Hh)].
    + (* the slot is granted *)
      split; unfold pc_of; rewrite ?Hs, ?Hh, ?Ht; simpl; auto.
      * rewrite size_union by set_solver. rewrite size_singleton; lia.
      * lia.
      * intros Hne; specialize (Hfull Hne); lia.
      * intros w Hw; destruct (Hq w Hw) as (? & Hpc); split.
        -- assert (w <> length (tasks s)) by congruence. set_solver.
        -- apply pc_of_Some in Hpc as (t & Hlk & Hpc).
           rewrite lookup_app_l by (apply lookup_lt_Some in Hlk; lia).
           rewrite Hlk; simpl; congruence.
      * intros w Hw. apply elem_of_union in Hw as [Hw|Hw].
        -- apply elem_of_singleton in Hw as ->.
           eexists; split; [apply list_lookup_middle; reflexivity|]; simpl; congruence.
        -- destruct (Hheld w Hw) as (t & Hlk & Hpc).
           exists t; split; [|assumption].
           rewrite lookup_app_l by (apply lookup_lt_Some in Hlk; lia); assumption.
      * intros i t Hlk Hpc. apply lookup_snoc_Some in Hlk as [(_ & Hlk)|(-> & <-)].
        -- destruct (Hlive i t Hlk Hpc); [left | right]; set_solver.
        -- right; set_solver.
    + (* the caller is parked *)
      split; unfold pc_of; rewrite ?Hs, ?Hh, ?Ht; simpl; auto.
      * intros _; lia.
      * apply NoDup_app; split_and!; auto.
        -- intros x Hx Hx'. apply list_elem_of_singleton in Hx'. congruence.
        -- apply NoDup_singleton.
      * intros w Hw. apply elem_of_app in Hw as [Hw|Hw].
        -- destruct (Hq w Hw) as (? & Hpc); split; [assumption|].
           apply pc_of_Some in Hpc as (t & Hlk & Hpc).
           rewrite lookup_app_l by (apply lookup_lt_Some in Hlk; lia).
           rewrite Hlk; simpl; congruence.
        -- apply list_elem_of_singleton in Hw as ->. split; [assumption|].
           rewrite list_lookup_middle by reflexivity; reflexivity.
      * intros w Hw; destruct (Hheld w Hw) as (t & Hlk & Hpc).
        exists t; split; [|assumption].
        rewrite lookup_app_l by (apply lookup_lt_Some in Hlk; lia); assumption.
      * intros i t Hlk Hpc. apply lookup_snoc_Some in Hlk as [(_ & Hlk)|(-> & <-)].
        -- destruct (Hlive i t Hlk Hpc); [left | right]; set_solver.
        -- left; set_solver.
Qed.


Lemma slots_set_pc who p s :
  slots_ok s -> who ∈ held s -> p <> Returned ->
  slots_ok (set_pc who p s).
Proof.
  intros [Hmax Hcur Hle Hfull Hnd Hq Hheld Hlive] Hwho Hp.
  split; try assumption.
  - intros w Hw; destruct (Hq w Hw) as (Hnh & Hpc); split; [assumption|].
    rewrite pc_of_set_pc. destruct (decide (who = w)) as [->|]; [contradiction|assumption].
  - intros w Hw; destruct (Hheld w Hw) as (t & Hlk & Hpc).
    rewrite lookup_set_pc. destruct (decide (who = w)) as [->|].
    + rewrite Hlk; simpl; eauto.
    + eauto.
  - intros i t. rewrite lookup_set_pc. destruct (decide (who = i)) as [->|].
    + intros _ _; right; assumption.
    + apply Hlive.
Qed.

Lemma slots_leave who s :
  slots_ok s -> who ∈ held s -> slots_ok (leave who s).
Proof.
  intros [Hmax Hcur Hle Hfull Hnd Hq Hheld Hlive] Hwho.
  assert (Hsz : size (held s) = S (size (held s ∖ {[who]}))).
  { rewrite (size_difference (held s) {[who]}) by set_solver.
    rewrite size_singleton.
    assert (size (held s) <> 0%nat); [|lia].
    intros Hz; apply size_empty_inv in Hz; set_solver. }
  assert (Hwq : who ∉ Semaphore.queue (semaphore s)).
  { intros Hin; destruct (Hq who Hin); contradiction. }
  destruct (leave_cases who s) as (_ & _ & _ & _ & Ht & Hcase).
  assert (Hlk : forall i, tasks (leave who s) !! i =
            if decide (who = i)
            then (fun t => Task (t_url t) (t_depth t) (t_parent t) Returned)
                   <$> tasks s !! i
            else tasks s !! i).
  { intros i; rewrite Ht, list_lookup_alter.
    destruct (decide (who = i)) as [->|]; reflexivity. }
  assert (Hpcq : forall w, w ∈ Semaphore.queue (semaphore s) ->
            pc_of (leave who s) w = Some AwaitAcquire).
  { intros w Hw. unfold pc_of; rewrite Hlk.
    destruct (decide (who = w)) as [->|]; [contradiction|].
    apply (Hq w Hw). }
  destruct Hcase as [(Hempty & Hs & Hh) | (v & q & Hvq & Hs & Hh)].
  - split; rewrite ?Hs, ?Hh; simpl; auto; try lia.
    + congruence.
    + apply NoDup_nil_2.
    + intros w Hw; apply elem_of_nil in Hw; contradiction.
    + intros w Hw. apply elem_of_difference in Hw as (Hw & Hne).
      destruct (Hheld w Hw) as (t & Hlkw & Hpc).
      rewrite Hlk. destruct (decide (who = w)) as [->|]; [set_solver|eauto].
    + intros i t. rewrite Hlk. destruct (decide (who = i)) as [->|].
      * destruct (tasks s !! i); simpl; [|discriminate].
        intros [= <-]; simpl; congruence.
      * intros Hi Hpc. destruct (Hlive i t Hi Hpc) as [Hin|Hin].
        -- rewrite Hempty in Hin; apply elem_of_nil in Hin; contradiction.
        -- right; set_solver.
  - rewrite Hvq in *.
    assert (Hv : v ∉ held s) by (apply Hq; left).
    apply NoDup_cons in Hnd as (Hvq' & Hnd).
    split; rewrite ?Hs, ?Hh; simpl; auto.
    + rewrite size_union by set_solver. rewrite size_singleton.
      rewrite Hcur; lia.
    + lia.
    + intros _. assert (Semaphore.current (semaphore s) = MAX_CONCURRENT)
        by (apply Hfull; discriminate). lia.
    + intros w Hw. split.
      * assert (w ∉ held s) by (apply Hq; right; assumption).
        assert (w <> v) by congruence. set_solver.
      * apply Hpcq; right; assumption.
    + intros w Hw. rewrite Hlk.
      apply elem_of_union in Hw as [Hw|Hw].
      * apply elem_of_singleton in Hw as ->.
        destruct (decide (who = v)) as [->|]; [contradiction|].
        destruct (Hq v) as (_ & Hpc); [left|].
        apply pc_of_Some in Hpc as (t & Hlkv & Hpc).
        exists t; split; [assumption | congruence].
      * apply elem_of_difference in Hw as (Hw & Hne).
        destruct (Hheld w Hw) as (t & Hlkw & Hpc).
        destruct (decide (who = w)) as [->|]; [set_solver|eauto].
    + intros i t. rewrite Hlk. destruct (decide (who = i)) as [->|].
      * destruct (tasks s !! i); simpl; [|discriminate].
        intros [= <-]; simpl; congruence.
      * intros Hi Hpc. destruct (Hlive i t Hi Hpc) as [Hin|Hin].
        -- apply elem_of_cons in Hin as [->|Hin]; [right; set_solver | left; assumption].
        -- right; set_solver.
Qed.


Lemma slots_holder s who t :
  slots_ok s -> tasks s !! who = Some t -> t_pc t <> Returned ->
  waiting s who = false \/ t_pc t <> AwaitAcquire ->
  who ∈ held s.
Proof.
  intros H Hlk Hpc Hnw.
  destruct (so_live _ H _ _ Hlk Hpc) as [Hin|Hin]; [exfalso | assumption].
  destruct Hnw as [Hnw|Hnw].
  - unfold waiting in Hnw. apply bool_decide_eq_false in Hnw; contradiction.
  - destruct (so_queue _ H _ Hin) as (_ & Hq).
    apply pc_of_Some in Hq as (t' & Hlk' & Hq). congruence.
Qed.

Lemma slots_shouldAbort s : slots_ok s -> slots_ok (shouldAbort s).2.
Proof.
  destruct (shouldAbort_frame s) as (_ & ? & _ & ? & ? & _).
  apply slots_ok_ext; assumption.
Qed.

Lemma slots_fan_out who us : forall s,
  slots_ok s -> slots_ok (fan_out who us s).
Proof.
  unfold Inspector.fan_out.
  induction us as [|u us IH]; intros s H; simpl; [assumption|].
  apply IH, slots_processUrl, H.
Qed.

Lemma processUrl_grows u d p s :
  held s ⊆ held (processUrl u d p s) /\
  tasks s `prefix_of` tasks (processUrl u d p s).
Proof.
  destruct (processUrl_cases u d p s)
    as (_ & [(Ht & _ & _ & Hh & _) | (_ & Ht & _ & _ & [(_ & _ & Hh)|(_ & _ & Hh)])]);
    rewrite Ht, Hh; split; try set_solver; apply prefix_app_r; reflexivity.
Qed.

Lemma fan_out_grows who us : forall s,
  held s ⊆ held (fan_out who us s) /\
  tasks s `prefix_of` tasks (fan_out who us s).
Proof.
  unfold Inspector.fan_out.
  induction us as [|u us IH]; intros s; simpl; [split; reflexivity|].
  destruct (processUrl_grows u 1%nat (Some who) s) as (Hh & Ht).
  destruct (IH (processUrl u 1%nat (Some who) s)) as (Hh' & Ht').
  split; etrans; eassumption.
Qed.

Lemma slots_start :
  slots_ok (Session ∅ (Semaphore.new MAX_CONCURRENT) 0 false 0 [] ∅ []).
Proof.
  split; simpl; try done.
  - apply NoDup_nil_2.
  - intros w Hw; apply elem_of_nil in Hw; contradiction.
Qed.

Lemma slots_seeds us : forall s,
  slots_ok s -> slots_ok (fold_left (fun s u => processUrl u 0%nat None s) us s).
Proof.
  induction us as [|u us IH]; intros s H; simpl; [assumption|].
  apply IH, slots_processUrl, H.
Qed.

Ltac abort_cases s stop s1 :=
  let E := fresh "E" in
  pose proof (shouldAbort_frame s) as E;
  destruct (shouldAbort s) as [stop s1]; simpl in E;
  destruct E as (? & ? & ? & ? & ? & ?).

Lemma slots_step a s s' :
  slots_ok s -> step a s = Some s' -> slots_ok s'.
Proof.
  intros H Hstep.
  destruct a as [who | who fetched now | who]; simpl in Hstep;
    destruct (tasks s !! who) as [t|] eqn:Hlk; try discriminate;
    destruct (t_pc t) as [| | |kids|] eqn:Hpc; try discriminate.
  - (* resumed after [acquire] *)
    destruct (waiting s who) eqn:Hw; [discriminate|].
    assert (Hin : who ∈ held s)
      by (apply (slots_holder s who t); [exact H | exact Hlk | congruence | left; exact Hw]).
    pose proof (slots_shouldAbort s H) as H1.
    abort_cases s stop s1.
    destruct stop; injection Hstep as <-.
    + apply slots_leave; [assumption | congruence].
    + apply slots_set_pc; [assumption | congruence | discriminate].
  - (* resumed after the delay *)
    assert (Hin : who ∈ held s)
      by (apply (slots_holder s who t); [exact H | exact Hlk | congruence | right; congruence]).
    pose proof (slots_shouldAbort s H) as H1.
    abort_cases s stop s1.
    destruct stop; injection Hstep as <-.
    + apply slots_leave; [assumption | congruence].
    + apply slots_set_pc; [| simpl; congruence | discriminate].
      eapply slots_ok_ext; [| | | exact H1]; reflexivity.
  - (* the page is back *)
    assert (Hin : who ∈ held s)
      by (apply (slots_holder s who t); [exact H | exact Hlk | congruence | right; congruence]).
    destruct (inspectPage _ _ _ _) as [result|].
    2:{ injection Hstep as <-. apply slots_leave; assumption. }
    pose proof (slots_shouldAbort s H) as H1.
    abort_cases s stop s1.
    destruct stop.
    { injection Hstep as <-. apply slots_leave; [assumption | congruence]. }
    match type of Hstep with
    | (if _ then Some (set_pc _ _ (Inspector.fan_out _ _ _ ?us ?s2)) else _) = _ =>
        set (s2' := s2) in *; set (us' := us) in *
    end.
    assert (Hok2 : slots_ok s2')
      by (eapply slots_ok_ext; [| | | exact H1]; reflexivity).
    assert (Hin2 : who ∈ held s2') by (subst s2'; simpl; congruence).
    destruct (_ && _); injection Hstep as <-.
    + apply slots_set_pc; [apply slots_fan_out, Hok2 | | discriminate].
      apply (proj1 (fan_out_grows who us' s2')), Hin2.
    + apply slots_leave; assumption.
  - (* the children are back *)
    destruct (all_returned s kids); [|discriminate].
    injection Hstep as <-.
    apply slots_leave; [assumption|].
    apply (slots_holder s who t); [exact H | exact Hlk | congruence | right; congruence].
Qed.


(** *** Claims *)

Lemma snoc_split {A} (l l1 l2 : list A) e x :
  l ++ [e] = l1 ++ x :: l2 ->
  (l2 = [] /\ l1 = l /\ x = e) \/
  (exists l2', l2 = l2' ++ [e] /\ l = l1 ++ x :: l2').
Proof.
  destruct l2 as [|y l2 _] using rev_ind; intros Heq.
  - left. apply app_inj_tail in Heq as (-> & ->); auto.
  - right. exists l2.
    change (l ++ [e] = l1 ++ (x :: l2) ++ [y]) in Heq.
    rewrite app_assoc in Heq.
    apply app_inj_tail in Heq as (-> & ->); auto.
Qed.

Lemma claims_snoc l e :
  claims (l ++ [e]) =
    claims l ++ match e with Claimed w n => [(w, n)] | _ => [] end.
Proof. unfold claims; rewrite omap_app; destruct e; reflexivity. Qed.

Lemma fetched_snoc l e :
  fetched_urls (l ++ [e]) =
    fetched_urls l ++ match e with Fetching _ u => [u] | _ => [] end.
Proof. unfold fetched_urls; rewrite omap_app; destruct e; reflexivity. Qed.

Lemma claims_app_in l1 l2 c : c ∈ claims l1 -> c ∈ claims (l1 ++ l2).
Proof. unfold claims; rewrite omap_app; set_solver. Qed.

Lemma claim_owner (l : list (nat * string)) a b n :
  NoDup (l.*2) -> (a, n) ∈ l -> (b, n) ∈ l -> a = b.
Proof.
  induction l as [|[c m] l IH]; simpl; intros Hnd H1 H2.
  - apply elem_of_nil in H1; contradiction.
  - apply NoDup_cons in Hnd as (Hnotin & Hnd).
    apply elem_of_cons in H1; apply elem_of_cons in H2.
    destruct H1 as [H1|H1]; destruct H2 as [H2|H2].
    + congruence.
    + injection H1 as -> ->. exfalso; apply Hnotin.
      apply list_elem_of_fmap. exists (b, m); auto.
    + injection H2 as -> ->. exfalso; apply Hnotin.
      apply list_elem_of_fmap. exists (a, m); auto.
    + auto.
Qed.

Lemma claims_ok_retask s s' who p t :
  claims_ok s -> tasks s !! who = Some t ->
  visitedUrls s' = visitedUrls s -> log s' = log s ->
  tasks s' = alter (fun t => Task (t_url t) (t_depth t) (t_parent t) p)
               who (tasks s) ->
  (p <> Returned -> t_pc t <> Returned) ->
  (before_fetch p -> before_fetch (t_pc t)) ->
  claims_ok s'.
Proof.
  intros [Hclaim Hnd Hlive Hfetch Honce] Hlk Hv Hl Ht Hp Hb.
  assert (Hlk' : forall i, tasks s' !! i =
            if decide (who = i)
            then (fun t => Task (t_url t) (t_depth t) (t_parent t) p)
                   <$> tasks s !! i
            else tasks s !! i).
  { intros i; rewrite Ht, list_lookup_alter.
    destruct (decide (who = i)) as [->|]; reflexivity. }
  split; rewrite ?Hv, ?Hl; auto.
  - intros w n Hin. destruct (Hclaim w n Hin) as (? & t' & Hw & Hn).
    split; [assumption|]. rewrite Hlk'.
    destruct (decide (who = w)) as [->|]; [|eauto].
    rewrite Hw; simpl; eauto.
  - intros i t'. rewrite Hlk'. destruct (decide (who = i)) as [->|]; [|apply Hlive].
    rewrite Hlk; simpl; intros [= <-]; simpl; intros Hne.
    apply (Hlive i t Hlk), Hp, Hne.
  - intros l1 l2 w u Heq. destruct (Hfetch l1 l2 w u Heq) as (? & t' & Hw & Hu & Hnb).
    split; [assumption|]. rewrite Hlk'.
    destruct (decide (who = w)) as [->|]; [|eauto].
    rewrite Hw; simpl. eexists; split_and!; [reflexivity | assumption |]; simpl.
    intros Hbp; apply Hnb. rewrite Hlk in Hw; injection Hw as <-. auto.
Qed.

Lemma claims_ok_progress s s' n :
  claims_ok s ->
  visitedUrls s' = visitedUrls s -> tasks s' = tasks s ->
  log s' = log s ++ [Progress n] ->
  claims_ok s'.
Proof.
  intros [Hclaim Hnd Hlive Hfetch Honce] Hv Ht Hl.
  split; rewrite ?Hv, ?Hl, ?Ht, ?claims_snoc, ?fetched_snoc, ?app_nil_r; auto.
  intros l1 l2 w u Heq.
  apply snoc_split in Heq as [(_ & _ & [=]) | (l2' & -> & Heq)].
  eauto.
Qed.

Lemma claims_ok_fetch s s' who t :
  claims_ok s -> tasks s !! who = Some t -> t_pc t = AwaitDelay ->
  visitedUrls s' = visitedUrls s ->
  log s' = log s ++ [Fetching who (t_url t)] ->
  tasks s' = alter (fun t => Task (t_url t) (t_depth t) (t_parent t) AwaitInspect)
               who (tasks s) ->
  claims_ok s'.
Proof.
  intros [Hclaim Hnd Hlive Hfetch Honce] Hlk Hpc Hv Hl Ht.
  assert (Hlk' : forall i, tasks s' !! i =
            if decide (who = i)
            then (fun t => Task (t_url t) (t_depth t) (t_parent t) AwaitInspect)
                   <$> tasks s !! i
            else tasks s !! i).
  { intros i; rewrite Ht, list_lookup_alter.
    destruct (decide (who = i)) as [->|]; reflexivity. }
  assert (Hmine : (who, normalizeUrl (t_url t)) ∈ claims (log s))
    by (apply (Hlive who t Hlk); congruence).
  split; rewrite ?Hv, ?Hl, ?claims_snoc, ?fetched_snoc, ?app_nil_r; auto.
  - intros w n Hin. destruct (Hclaim w n Hin) as (? & t' & Hw & Hn).
    split; [assumption|]. rewrite Hlk'.
    destruct (decide (who = w)) as [->|]; [|eauto].
    rewrite Hw; simpl; eauto.
  - intros i t'. rewrite Hlk'. destruct (decide (who = i)) as [->|]; [|apply Hlive].
    rewrite Hlk; simpl; intros [= <-]; simpl; intros _. exact Hmine.
  - intros l1 l2 w u Heq.
    apply snoc_split in Heq as [(-> & -> & [= -> ->]) | (l2' & -> & Heq)].
    + split; [assumption|]. rewrite Hlk'.
      destruct (decide (who = who)); [|congruence].
      rewrite Hlk; simpl. eexists; split_and!; [reflexivity..|]; simpl.
      unfold before_fetch; intros [|]; discriminate.
    + destruct (Hfetch l1 l2' w u Heq) as (? & t' & Hw & Hu & Hnb).
      split; [assumption|]. rewrite Hlk'.
      destruct (decide (who = w)) as [->|]; [|eauto].
      exfalso; apply Hnb. rewrite Hlk in Hw; injection Hw as <-.
      right; assumption.
  - rewrite fmap_app; simpl. apply NoDup_app; split_and!; auto.
    + intros n Hn Hn'. apply list_elem_of_singleton in Hn' as ->.
      apply list_elem_of_fmap in Hn as (u' & Hu' & Hin).
      apply list_elem_of_omap in Hin as (e & Hin & He).
      destruct e as [| w' u'' |]; try discriminate. injection He as ->.
      apply list_elem_of_split in Hin as (l1 & l2 & Hsplit).
      destruct (Hfetch l1 l2 w' u' Hsplit) as (Hc & t' & Hw' & Hut & Hnb).
      assert (Hc' : (w', normalizeUrl u') ∈ claims (log s))
        by (rewrite Hsplit; apply claims_app_in, Hc).
      rewrite <- Hu' in Hc'.
      assert (w' = who).
      { eapply claim_owner; eassumption. }
      subst w'. apply Hnb. rewrite Hlk in Hw'; injection Hw' as <-.
      right; assumption.
    + apply NoDup_singleton.
Qed.


Lemma claims_ok_ext s s' :
  visitedUrls s' = visitedUrls s -> tasks s' = tasks s -> log s' = log s ->
  claims_ok s -> claims_ok s'.
Proof.
  intros Hv Ht Hl [? ? ? ? ?].
  split; rewrite ?Hv, ?Ht, ?Hl; assumption.
Qed.

Lemma claims_shouldAbort s : claims_ok s -> claims_ok (shouldAbort s).2.
Proof.
  destruct (shouldAbort_frame s) as (? & _ & _ & ? & _ & ?).
  apply claims_ok_ext; assumption.
Qed.

Lemma claims_processUrl u d p s : claims_ok s -> claims_ok (processUrl u d p s).
Proof.
  intros [Hclaim Hnd Hlive Hfetch Honce].
  destruct (processUrl_cases u d p s)
    as (_ & [(Ht & Hv & _ & _ & Hl) | (Hfresh & Ht & Hv & Hl & _)]).
  - split; rewrite ?Hv, ?Hl, ?Ht; auto.
    + intros w n Hin. destruct (Hclaim w n Hin) as (? & t & Hw & Hn).
      split; [assumption|]. exists t; split; [|assumption].
      rewrite lookup_app_l by (apply lookup_lt_Some in Hw; lia); assumption.
    + intros i t Hlk Hpc. apply lookup_snoc_Some in Hlk as [(_ & Hlk)|(_ & <-)].
      * eauto.
      * contradiction.
    + intros l1 l2 w u' Heq. destruct (Hfetch l1 l2 w u' Heq) as (? & t & Hw & Hu & Hnb).
      split; [assumption|]. exists t; split; [|auto].
      rewrite lookup_app_l by (apply lookup_lt_Some in Hw; lia); assumption.
  - split; rewrite ?Hv, ?Hl, ?Ht, ?claims_snoc, ?fetched_snoc, ?app_nil_r; auto.
    + intros w n Hin. apply elem_of_app in Hin as [Hin|Hin].
      * destruct (Hclaim w n Hin) as (? & t & Hw & Hn).
        split; [set_solver|]. exists t; split; [|assumption].
        rewrite lookup_app_l by (apply lookup_lt_Some in Hw; lia); assumption.
      * apply list_elem_of_singleton in Hin as [= -> ->].
        split; [set_solver|]. eexists; split; [apply list_lookup_middle|]; reflexivity.
    + rewrite fmap_app; simpl. apply NoDup_app; split_and!; auto.
      * intros n Hn Hn'. apply list_elem_of_singleton in Hn' as ->.
        apply list_elem_of_fmap in Hn as ([w n'] & Hn' & Hin); simpl in Hn'; subst n'.
        apply Hfresh, (Hclaim _ _ Hin).
      * apply NoDup_singleton.
    + intros i t Hlk Hpc. apply lookup_snoc_Some in Hlk as [(_ & Hlk)|(-> & <-)].
      * apply elem_of_app; left; eauto.
      * apply elem_of_app; right; simpl. apply list_elem_of_singleton; reflexivity.
    + intros l1 l2 w u' Heq.
      apply snoc_split in Heq as [(_ & _ & [=]) | (l2' & -> & Heq)].
      destruct (Hfetch l1 l2' w u' Heq) as (? & t & Hw & Hu & Hnb).
      split; [assumption|]. exists t; split; [|auto].
      rewrite lookup_app_l by (apply lookup_lt_Some in Hw; lia); assumption.
Qed.

Lemma claims_fan_out who us : forall s,
  claims_ok s -> claims_ok (fan_out who us s).
Proof.
  unfold Inspector.fan_out.
  induction us as [|u us IH]; intros s H; simpl; [assumption|].
  apply IH, claims_processUrl, H.
Qed.

Lemma claims_seeds us : forall s,
  claims_ok s -> claims_ok (fold_left (fun s u => processUrl u 0%nat None s) us s).
Proof.
  induction us as [|u us IH]; intros s H; simpl; [assumption|].
  apply IH, claims_processUrl, H.
Qed.

Lemma claims_start :
  claims_ok (Session ∅ (Semaphore.new MAX_CONCURRENT) 0 false 0 [] ∅ []).
Proof.
  split; simpl.
  - intros w n Hin; apply elem_of_nil in Hin; contradiction.
  - apply NoDup_nil_2.
  - intros i t Hlk; rewrite lookup_nil in Hlk; discriminate.
  - intros [|? ?] l2 w u Heq; discriminate.
  - apply NoDup_nil_2.
Qed.

Lemma claims_leave who s t :
  claims_ok s -> tasks s !! who = Some t -> claims_ok (leave who s).
Proof.
  intros H Hlk.
  destruct (leave_cases who s) as (Hv & _ & Hl & _ & Ht & _).
  apply (claims_ok_retask s _ who Returned t H Hlk Hv Hl Ht).
  - intros Hne; contradiction.
  - unfold before_fetch; intros [|]; discriminate.
Qed.

Lemma claims_step a s s' :
  claims_ok s -> step a s = Some s' -> claims_ok s'.
Proof.
  intros H Hstep.
  destruct a as [who | who fetched now | who]; simpl in Hstep;
    destruct (tasks s !! who) as [t|] eqn:Hlk; try discriminate;
    destruct (t_pc t) as [| | |kids|] eqn:Hpc; try discriminate.
  - destruct (waiting s who); [discriminate|].
    pose proof (claims_shouldAbort s H) as H1.
    abort_cases s stop s1.
    assert (Hlk1 : tasks s1 !! who = Some t) by congruence.
    destruct stop; injection Hstep as <-.
    + eapply claims_leave; eassumption.
    + apply (claims_ok_retask s1 _ who AwaitDelay t H1 Hlk1); try reflexivity.
      * congruence.
      * intros _; left; assumption.
  - pose proof (claims_shouldAbort s H) as H1.
    abort_cases s stop s1.
    assert (Hlk1 : tasks s1 !! who = Some t) by congruence.
    destruct stop; injection Hstep as <-.
    + eapply claims_leave; eassumption.
    + apply (claims_ok_fetch s1 _ who t H1 Hlk1 Hpc); reflexivity.
  - destruct (inspectPage _ _ _ _) as [result|].
    2:{ injection Hstep as <-. eapply claims_leave; eassumption. }
    pose proof (claims_shouldAbort s H) as H1.
    abort_cases s stop s1.
    assert (Hlk1 : tasks s1 !! who = Some t) by congruence.
    destruct stop.
    { injection Hstep as <-. eapply claims_leave; eassumption. }
    match type of Hstep with
    | (if _ then Some (set_pc _ _ (Inspector.fan_out _ _ _ ?us ?s2)) else _) = _ =>
        set (s2' := s2) in *; set (us' := us) in *
    end.
    assert (Hok2 : claims_ok s2')
      by (eapply (claims_ok_progress s1); [exact H1 | reflexivity..]).
    assert (Hlk2 : tasks s2' !! who = Some t) by (subst s2'; simpl; congruence).
    destruct (_ && _); injection Hstep as <-.
    + pose proof (claims_fan_out who us' s2' Hok2) as Hok3.
      destruct (fan_out_grows who us' s2') as (_ & Hpre).
      eapply (claims_ok_retask _ _ who _ t); try exact Hok3; try reflexivity.
      * eapply prefix_lookup_Some; eassumption.
      * congruence.
      * unfold before_fetch; intros [|]; discriminate.
    + eapply claims_leave; eassumption.
  - destruct (all_returned s kids); [|discriminate].
    injection Hstep as <-.
    eapply claims_leave; eassumption.
Qed.


(** *** Family *)

Lemma parents_alter p who (l : list task) :
  t_parent <$> alter (fun t => Task (t_url t) (t_depth t) (t_parent t) p) who l
  = t_parent <$> l.
Proof.
  apply list_eq; intros i. rewrite !list_lookup_fmap, list_lookup_alter.
  destruct (decide (who = i)) as [->|]; [|reflexivity].
  destruct (l !! i); reflexivity.
Qed.

Lemma select_links_bound visited links : forall acc,
  (length acc <= MAX_EXPANDED_URLS)%nat ->
  (length (select_links normalizeUrl visited links acc) <= MAX_EXPANDED_URLS)%nat.
Proof.
  induction links as [|l links IH]; intros acc Hacc;
    cbn [Inspector.select_links]; [assumption|].
  destruct (Nat.leb_spec MAX_EXPANDED_URLS (length acc)); [assumption|].
  destruct (bool_decide _); apply IH; [assumption|].
  rewrite length_app; simpl; lia.
Qed.


Lemma processUrl_all d p us : forall s,
  exists new,
    tasks (fold_left (fun s u => processUrl u d p s) us s) = tasks s ++ new /\
    length new = length us /\
    Forall (fun t => t_depth t = d /\ t_parent t = p) new.
Proof.
  induction us as [|u us IH]; intros s; simpl.
  - exists []; rewrite app_nil_r; auto.
  - destruct (IH (processUrl u d p s)) as (new & Ht & Hlen & Hall).
    assert (exists t, tasks (processUrl u d p s) = tasks s ++ [t] /\
                      t_depth t = d /\ t_parent t = p) as (t & Ht1 & Hd & Hp).
    { destruct (processUrl_cases u d p s) as (_ & [(Ht1 & _) | (_ & Ht1 & _)]);
        eexists; (split; [exact Ht1|]); auto. }
    exists (t :: new). rewrite Ht, Ht1, <- app_assoc. simpl.
    split_and!; auto.
Qed.

Lemma family_start seedUrls :
  family_ok (length seedUrls) (inspectQuestion seedUrls).
Proof.
  unfold Inspector.inspectQuestion.
  destruct (processUrl_all 0%nat None seedUrls
              (Session ∅ (Semaphore.new MAX_CONCURRENT) 0 false 0 [] ∅ []))
    as (new & Ht & Hlen & Hall).
  simpl in Ht.
  split; unfold children, parents; rewrite ?Ht.
  - lia.
  - intros i t Hlk _. eapply Forall_lookup_1 in Hall; eauto.
  - intros c tc Hlk Hc. apply lookup_lt_Some in Hlk; lia.
  - intros p.
    assert (Hnil : filter (fun q => q = Some p) (t_parent <$> new) = []).
    { clear -Hall. induction Hall as [|t l (_ & Hp) _ IH]; [reflexivity|].
      rewrite fmap_cons, filter_cons, Hp.
      destruct (decide (None = Some p)); [discriminate | exact IH]. }
    rewrite Hnil; simpl; lia.
Qed.

Lemma family_retask seeds s s' who p t :
  family_ok seeds s -> tasks s !! who = Some t ->
  tasks s' = alter (fun t => Task (t_url t) (t_depth t) (t_parent t) p)
               who (tasks s) ->
  t_pc t <> Returned ->
  (forall c tc, tasks s !! c = Some tc -> child_ok c tc (t_pc t) ->
                child_ok c tc p) ->
  family_ok seeds s'.
Proof.
  intros [Hseeds Hseed Hchild Hcount] Hlk Ht Hlive Hkids.
  assert (Hlk' : forall i, tasks s' !! i =
            if decide (who = i)
            then (fun t => Task (t_url t) (t_depth t) (t_parent t) p)
                   <$> tasks s !! i
            else tasks s !! i).
  { intros i; rewrite Ht, list_lookup_alter.
    destruct (decide (who = i)) as [->|]; reflexivity. }
  split.
  - rewrite Ht, length_alter; assumption.
  - intros i t'. rewrite Hlk'. destruct (decide (who = i)) as [->|]; [|apply Hseed].
    rewrite Hlk; simpl; intros [= <-]; simpl. apply (Hseed i t Hlk).
  - intros c tc'. rewrite Hlk'.
    assert (Hgen : forall tc, tasks s !! c = Some tc -> (seeds <= c)%nat ->
              exists pp tp, t_parent tc = Some pp /\ (pp < seeds)%nat /\
                tasks s' !! pp = Some tp /\
                (c <> who -> child_ok c tc (t_pc tp)) /\
                (c = who -> child_ok c (Task (t_url tc) (t_depth tc) (t_parent tc) p)
                              (t_pc tp))).
    { intros tc Hc Hge.
      destruct (Hchild c tc Hc Hge) as (_ & pp & tp & Hpp & Hlt & Hlkp & Hok).
      exists pp. rewrite Hlk'. destruct (decide (who = pp)) as [->|Hne].
      - rewrite Hlkp; simpl. eexists; split_and!; [assumption..|reflexivity| |]; simpl.
        + intros _. rewrite Hlk in Hlkp; injection Hlkp as <-. apply Hkids; assumption.
        + intros ->. lia.
      - exists tp; split_and!; auto.
        intros ->. rewrite Hlk in Hc; injection Hc as <-.
        destruct (t_pc tp); simpl in *; auto. contradiction. }
    destruct (decide (who = c)) as [->|Hne].
    + rewrite Hlk; simpl; intros [= <-] Hge; simpl.
      split; [apply (Hchild c t Hlk Hge)|].
      destruct (Hgen t Hlk Hge) as (pp & tp & ? & ? & ? & _ & Hok).
      exists pp, tp; auto.
    + intros Hc Hge. split; [apply (Hchild c tc' Hc Hge)|].
      destruct (Hgen tc' Hc Hge) as (pp & tp & ? & ? & ? & Hok & _).
      exists pp, tp; split_and!; auto.
  - intros q. unfold children, parents. rewrite Ht, parents_alter. apply Hcount.
Qed.


Lemma family_ok_ext seeds s s' :
  tasks s' = tasks s -> family_ok seeds s -> family_ok seeds s'.
Proof.
  intros Ht [? ? ? ?].
  split; unfold children, parents; rewrite ?Ht; assumption.
Qed.

Lemma filter_none {A} (P : A -> Prop) `{!forall x, Decision (P x)} (l : list A) :
  (forall x, x ∈ l -> ~ P x) -> filter P l = [].
Proof.
  induction l as [|x l IH]; intros Hno; [reflexivity|].
  rewrite filter_cons. destruct (decide (P x)) as [HP|_].
  - exfalso; apply (Hno x); [left | assumption].
  - apply IH. intros y Hy; apply Hno; right; assumption.
Qed.

(** A call that has not fanned out has no children. *)
Lemma family_childless seeds s who t :
  family_ok seeds s -> tasks s !! who = Some t ->
  (forall c tc, ~ child_ok c tc (t_pc t)) ->
  forall c tc, tasks s !! c = Some tc -> t_parent tc <> Some who.
Proof.
  intros [Hseeds Hseed Hchild Hcount] Hlk Hno c tc Hc Hp.
  destruct (Nat.lt_ge_cases c seeds) as [Hlt|Hge].
  - destruct (Hseed c tc Hc Hlt) as (_ & Hnone). congruence.
  - destruct (Hchild c tc Hc Hge) as (_ & pp & tp & Hpp & _ & Hlkp & Hok).
    assert (pp = who) by congruence. subst pp.
    rewrite Hlk in Hlkp; injection Hlkp as <-. exact (Hno c tc Hok).
Qed.

Lemma family_fan_out seeds s who t us :
  family_ok seeds s -> tasks s !! who = Some t ->
  t_pc t = AwaitInspect -> t_depth t = 0%nat ->
  (length us <= MAX_EXPANDED_URLS)%nat ->
  family_ok seeds
    (set_pc who (AwaitChildren (seq (length (tasks s)) (length us)))
       (fan_out who us s)).
Proof.
  intros H Hlk Hpc Hdepth Hlen.
  assert (Hchildless : forall c tc, tasks s !! c = Some tc ->
            t_parent tc <> Some who).
  { apply (family_childless seeds s who t H Hlk).
    intros c tc; rewrite Hpc; simpl; auto. }
  destruct H as [Hseeds Hseed Hchild Hcount].
  assert (Hwho : (who < seeds)%nat).
  { destruct (Nat.lt_ge_cases who seeds) as [|Hge]; [assumption|].
    destruct (Hchild who t Hlk Hge) as (Hd & _). lia. }
  destruct (processUrl_all 1%nat (Some who) us s) as (new & Ht & Hnew & Hall).
  fold (fan_out who us s) in Ht.
  assert (Hlk' : forall i,
            tasks (set_pc who (AwaitChildren (seq (length (tasks s)) (length us)))
                     (fan_out who us s)) !! i =
            if decide (who = i)
            then Some (Task (t_url t) (t_depth t) (t_parent t)
                         (AwaitChildren (seq (length (tasks s)) (length us))))
            else (tasks s ++ new) !! i).
  { intros i. rewrite lookup_set_pc, Ht.
    destruct (decide (who = i)) as [->|]; [|reflexivity].
    rewrite lookup_app_l by (apply lookup_lt_Some in Hlk; lia).
    rewrite Hlk; reflexivity. }
  split.
  - unfold set_pc; simpl. rewrite length_alter, Ht, length_app; lia.
  - intros i t'. rewrite Hlk'. destruct (decide (who = i)) as [->|].
    + intros [= <-] _; simpl. apply (Hseed i t Hlk Hwho).
    + intros Hi Hlt. apply (Hseed i t'); [|assumption].
      rewrite lookup_app_l in Hi by lia; assumption.
  - intros c tc. rewrite Hlk'. destruct (decide (who = c)) as [->|Hne]; [lia|].
    intros Hc Hge. apply lookup_app_Some in Hc as [Hc|(Hlen' & Hc)].
    + destruct (Hchild c tc Hc Hge) as (Hd & pp & tp & Hpp & Hlt & Hlkp & Hok).
      split; [assumption|]. exists pp, tp. split_and!; auto.
      rewrite Hlk'. destruct (decide (who = pp)) as [->|].
      * exfalso; exact (Hchildless c tc Hc Hpp).
      * rewrite lookup_app_l by (apply lookup_lt_Some in Hlkp; lia); assumption.
    + destruct (Forall_lookup_1 _ _ _ _ Hall Hc) as (Hd & Hp).
      split; [assumption|]. eexists who, _. split_and!; [assumption..| |].
      * rewrite Hlk'. destruct (decide (who = who)); [reflexivity | congruence].
      * simpl. apply elem_of_seq. apply lookup_lt_Some in Hc. lia.
  - intros q. unfold children, parents, set_pc; simpl.
    rewrite parents_alter, Ht, fmap_app, filter_app, length_app.
    destruct (decide (q = who)) as [->|Hq].
    + assert (Hnil : filter (fun q => q = Some who) (t_parent <$> tasks s) = []).
      { apply filter_none. intros x Hx Heq; subst x.
        apply list_elem_of_fmap in Hx as (tc & Hp & Hin).
        apply list_elem_of_lookup in Hin as (c & Hc).
        apply (Hchildless c tc Hc); congruence. }
      rewrite Hnil; simpl.
      pose proof (length_filter (fun q => q = Some who) (t_parent <$> new)) as Hf.
      rewrite length_fmap in Hf. lia.
    + assert (Hnil : filter (fun q' => q' = Some q) (t_parent <$> new) = []).
      { apply filter_none. intros x Hx Heq; subst x.
        apply list_elem_of_fmap in Hx as (tc & Hp & Hin).
        rewrite Forall_forall in Hall.
        destruct (Hall tc) as (_ & Hp'); [assumption|].
        congruence. }
      rewrite Hnil; simpl. specialize (Hcount q).
      unfold children, parents in Hcount. lia.
Qed.

Lemma family_leave seeds s who t :
  family_ok seeds s -> tasks s !! who = Some t -> t_pc t <> Returned ->
  (forall kids, t_pc t = AwaitChildren kids -> all_returned s kids = true) ->
  family_ok seeds (leave who s).
Proof.
  intros H Hlk Hlive Hkids.
  destruct (leave_cases who s) as (_ & _ & _ & _ & Ht & _).
  apply (family_retask seeds s _ who Returned t H Hlk Ht Hlive).
  intros c tc Hc. destruct (t_pc t) as [| | |kids|] eqn:Hpc; simpl; try contradiction.
  intros Hin. specialize (Hkids kids eq_refl).
  unfold all_returned in Hkids. rewrite forallb_forall in Hkids.
  specialize (Hkids c). unfold pc_of in Hkids. rewrite Hc in Hkids; simpl in Hkids.
  destruct (t_pc tc); try reflexivity;
    (assert (false = true) by (apply Hkids, list_elem_of_In, Hin); discriminate).
Qed.

Lemma family_step seeds a s s' :
  family_ok seeds s -> step a s = Some s' -> family_ok seeds s'.
Proof.
  intros H Hstep.
  destruct a as [who | who fetched now | who]; simpl in Hstep;
    destruct (tasks s !! who) as [t|] eqn:Hlk; try discriminate;
    destruct (t_pc t) as [| | |kids|] eqn:Hpc; try discriminate.
  - destruct (waiting s who); [discriminate|].
    abort_cases s stop s1.
    assert (Hlk1 : tasks s1 !! who = Some t) by congruence.
    assert (Hok1 : family_ok seeds s1) by (eapply family_ok_ext; eassumption).
    destruct stop; injection Hstep as <-.
    + apply (family_leave seeds s1 who t Hok1 Hlk1); congruence.
    + apply (family_retask seeds s1 (set_pc who AwaitDelay s1) who AwaitDelay t Hok1 Hlk1 eq_refl); [congruence|].
      intros c tc _; rewrite Hpc; simpl; auto.
  - abort_cases s stop s1.
    assert (Hlk1 : tasks s1 !! who = Some t) by congruence.
    assert (Hok1 : family_ok seeds s1) by (eapply family_ok_ext; eassumption).
    destruct stop; injection Hstep as <-.
    + apply (family_leave seeds s1 who t Hok1 Hlk1); congruence.
    + eapply (family_retask seeds s1 _ who AwaitInspect t Hok1 Hlk1); [reflexivity|congruence|].
      intros c tc _; rewrite Hpc; simpl; auto.
  - destruct (inspectPage _ _ _ _) as [result|].
    2:{ injection Hstep as <-. apply (family_leave seeds s who t H Hlk); congruence. }
    abort_cases s stop s1.
    assert (Hlk1 : tasks s1 !! who = Some t) by congruence.
    assert (Hok1 : family_ok seeds s1) by (eapply family_ok_ext; eassumption).
    destruct stop.
    { injection Hstep as <-. apply (family_leave seeds s1 who t Hok1 Hlk1); congruence. }
    match type of Hstep with
    | (if _ then Some (set_pc _ _ (Inspector.fan_out _ _ _ ?us ?s2)) else _) = _ =>
        set (s2' := s2) in *; set (us' := us) in *
    end.
    assert (Hok2 : family_ok seeds s2')
      by (eapply (family_ok_ext seeds s1); [reflexivity | exact Hok1]).
    assert (Hlk2 : tasks s2' !! who = Some t) by exact Hlk1.
    destruct (Nat.eqb_spec (t_depth t) 0) as [Hd|Hd]; simpl in Hstep.
    + destruct (0 <? length (links result))%nat; injection Hstep as <-.
      * change (length (tasks s1)) with (length (tasks s2')).
        apply (family_fan_out seeds s2' who t us' Hok2 Hlk2 Hpc Hd).
        apply (select_links_bound _ _ []); simpl; lia.
      * apply (family_leave seeds s2' who t Hok2 Hlk2); congruence.
    + injection Hstep as <-.
      apply (family_leave seeds s2' who t Hok2 Hlk2); congruence.
  - destruct (all_returned s kids) eqn:Hall; [|discriminate].
    injection Hstep as <-.
    apply (family_leave seeds s who t H Hlk); [congruence|].
    intros kids' Hk. rewrite Hpc in Hk; injection Hk as <-. exact Hall.
Qed.


(** *** Reachable sessions *)

Lemma run_invariants (seedUrls : list string) acts : forall s s',
  slots_ok s /\ claims_ok s /\ family_ok (length seedUrls) s ->
  run acts s = Some s' ->
  slots_ok s' /\ claims_ok s' /\ family_ok (length seedUrls) s'.
Proof.
  induction acts as [|a acts IH]; intros s s' Hinv; simpl.
  - intros [= <-]; exact Hinv.
  - destruct (step a s) as [s1|] eqn:Hstep; [|discriminate].
    apply IH. destruct Hinv as (Hs & Hc & Hf).
    split_and!; [eapply slots_step | eapply claims_step | eapply family_step];
      eassumption.
Qed.

Lemma session_invariants (seedUrls : list string) acts s :
  run acts (inspectQuestion seedUrls) = Some s ->
  slots_ok s /\ claims_ok s /\ family_ok (length seedUrls) s.
Proof.
  apply run_invariants. split_and!.
  - apply slots_seeds, slots_start.
  - apply claims_seeds, claims_start.
  - apply family_start.
Qed.

(** A step leaves the calls other than its own where they are. *)
Lemma processUrl_lookup u d p s i :
  (i < length (tasks s))%nat -> tasks (processUrl u d p s) !! i = tasks s !! i.
Proof.
  intros Hi. destruct (processUrl_grows u d p s) as (_ & (k & ->)).
  apply lookup_app_l, Hi.
Qed.

Lemma fan_out_lookup who us s i :
  (i < length (tasks s))%nat -> tasks (fan_out who us s) !! i = tasks s !! i.
Proof.
  intros Hi. destruct (fan_out_grows who us s) as (_ & (k & ->)).
  apply lookup_app_l, Hi.
Qed.

Lemma step_frame a s s' i :
  step a s = Some s' -> i <> actor a -> (i < length (tasks s))%nat ->
  tasks s' !! i = tasks s !! i.
Proof.
  intros Hstep Hi Hlt.
  assert (Hleave : forall s0, tasks s0 = tasks s ->
            tasks (leave (actor a) s0) !! i = tasks s !! i).
  { intros s0 H0. destruct (leave_cases (actor a) s0) as (_ & _ & _ & _ & Ht & _).
    rewrite Ht, list_lookup_alter_ne, H0 by congruence. reflexivity. }
  assert (Hset : forall p s0, tasks s0 !! i = tasks s !! i ->
            tasks (set_pc (actor a) p s0) !! i = tasks s !! i).
  { intros p s0 H0. rewrite lookup_set_pc.
    destruct (decide (actor a = i)); [congruence | assumption]. }
  destruct a as [who | who fetched now | who]; simpl in Hstep, Hi, Hleave, Hset;
    destruct (tasks s !! who) as [t|] eqn:Hlk; try discriminate;
    destruct (t_pc t) as [| | |kids|] eqn:Hpc; try discriminate.
  - destruct (waiting s who); [discriminate|].
    abort_cases s stop s1.
    destruct stop; injection Hstep as <-; [apply Hleave | apply Hset]; congruence.
  - abort_cases s stop s1.
    destruct stop; injection Hstep as <-; [apply Hleave | apply Hset]; simpl; congruence.
  - destruct (inspectPage _ _ _ _) as [result|].
    2:{ injection Hstep as <-. apply Hleave; reflexivity. }
    abort_cases s stop s1.
    destruct stop.
    { injection Hstep as <-. apply Hleave; assumption. }
    destruct (_ && _); injection Hstep as <-.
    + apply Hset. rewrite fan_out_lookup by (simpl; congruence). simpl; congruence.
    + apply Hleave; simpl; assumption.
  - destruct (all_returned s kids); [|discriminate].
    injection Hstep as <-. apply Hleave; reflexivity.
Qed.


Lemma processUrl_skips u d p s :
  normalizeUrl u ∈ visitedUrls s ->
  let s' := processUrl u d p s in
  tasks s' = tasks s ++ [Task u d p Returned] /\
  log s' = log s /\ semaphore s' = semaphore s /\ held s' = held s.
Proof.
  intros Hin s'.
  destruct (processUrl_cases u d p s) as (_ & [(Ht & _ & Hs & Hh & Hl) | (Hout & _)]);
    [auto | contradiction].
Qed.

Lemma processUrl_claims u d p s :
  normalizeUrl u ∉ visitedUrls s -> (shouldAbort s).1 = false ->
  let s' := processUrl u d p s in
  tasks s' = tasks s ++ [Task u d p AwaitAcquire] /\
  normalizeUrl u ∈ visitedUrls s' /\
  log s' = log s ++ [Claimed (length (tasks s)) (normalizeUrl u)].
Proof.
  intros Hout Hgo s'; subst s'. unfold Inspector.processUrl.
  abort_cases s stop s1. simpl in Hgo; subst stop.
  rewrite bool_decide_eq_false_2 by congruence.
  destruct (Semaphore.acquire _ _) as [sem' granted]; simpl.
  split_and!; [congruence | set_solver | congruence].
Qed.

(** C5. In a session, no normalised URL is fetched twice: the normalised
    URLs of the fetches are pairwise distinct; a fetch is preceded in the log
    by the claim of its normalised URL by the same call; two fetches of URLs
    with the same normalised form are one and the same; a call whose
    normalised URL is already claimed returns at once, touching neither the
    log nor the semaphore; and a call that goes ahead claims its URL in the
    transition in which it starts, before it asks for a slot. *)
Theorem no_url_fetched_twice (seedUrls : list string) acts s :
  run acts (inspectQuestion seedUrls) = Some s ->
  NoDup (normalizeUrl <$> fetched_urls (log s)) /\
  (forall l1 l2 w u, log s = l1 ++ Fetching w u :: l2 ->
     (w, normalizeUrl u) ∈ claims l1 /\ normalizeUrl u ∈ visitedUrls s) /\
  (forall w1 u1 w2 u2,
     Fetching w1 u1 ∈ log s -> Fetching w2 u2 ∈ log s ->
     normalizeUrl u1 = normalizeUrl u2 -> w1 = w2 /\ u1 = u2) /\
  (forall u d p, normalizeUrl u ∈ visitedUrls s ->
     let s' := processUrl u d p s in
     tasks s' = tasks s ++ [Task u d p Returned] /\
     log s' = log s /\ semaphore s' = semaphore s /\ held s' = held s) /\
  (forall u d p, normalizeUrl u ∉ visitedUrls s -> (shouldAbort s).1 = false ->
     let s' := processUrl u d p s in
     tasks s' = tasks s ++ [Task u d p AwaitAcquire] /\
     normalizeUrl u ∈ visitedUrls s' /\
     log s' = log s ++ [Claimed (length (tasks s)) (normalizeUrl u)]).
Proof.
  intros Hrun.
  destruct (session_invariants seedUrls acts s Hrun)
    as (_ & [Hclaim Hnd Hlive Hfetch Honce] & _).
  assert (Hf : forall w u, Fetching w u ∈ log s ->
            (w, normalizeUrl u) ∈ claims (log s) /\
            exists t, tasks s !! w = Some t /\ t_url t = u).
  { intros w u Hin. apply list_elem_of_split in Hin as (l1 & l2 & Hsplit).
    destruct (Hfetch l1 l2 w u Hsplit) as (Hc & t & Hw & Hu & _).
    split; [rewrite Hsplit; apply claims_app_in, Hc | eauto]. }
  split_and!.
  - exact Honce.
  - intros l1 l2 w u Hsplit.
    destruct (Hfetch l1 l2 w u Hsplit) as (Hc & _). split; [assumption|].
    destruct (Hclaim w (normalizeUrl u)) as (Hv & _); [|exact Hv].
    rewrite Hsplit. apply claims_app_in, Hc.
  - intros w1 u1 w2 u2 H1 H2 Heq.
    destruct (Hf w1 u1 H1) as (Hc1 & t1 & Hw1 & Hu1).
    destruct (Hf w2 u2 H2) as (Hc2 & t2 & Hw2 & Hu2).
    rewrite Heq in Hc1.
    assert (w1 = w2) by (eapply claim_owner; eassumption).
    subst w2. split; [reflexivity | congruence].
  - intros u d p; apply processUrl_skips.
  - intros u d p; apply processUrl_claims.
Qed.



(** C10. In a session the semaphore has capacity 3 and its counter is the
    number of calls that hold a slot.  As long as a call made from a fan-out
    has not returned, its parent is suspended at [await Promise.all] on it
    and holds a slot, while the child itself either holds a slot or is
    queued at its [acquire] on the same semaphore.  A step after which a
    parent that awaited its children no longer holds its slot is the
    parent's own resumption, and all its children had returned. *)
Theorem parent_keeps_slot (seedUrls : list string) acts s :
  run acts (inspectQuestion seedUrls) = Some s ->
  Semaphore.max (semaphore s) = 3 /\
  Semaphore.current (semaphore s) = Z.of_nat (size (held s)) /\
  Semaphore.current (semaphore s) <= 3 /\
  (forall c tc p, tasks s !! c = Some tc -> t_parent tc = Some p ->
     t_pc tc <> Returned ->
     exists tp kids,
       tasks s !! p = Some tp /\ t_pc tp = AwaitChildren kids /\ c ∈ kids /\
       p ∈ held s /\
       (c ∈ held s \/
        (t_pc tc = AwaitAcquire /\ c ∈ Semaphore.queue (semaphore s)))) /\
  (forall p tp kids a s',
     tasks s !! p = Some tp -> t_pc tp = AwaitChildren kids ->
     step a s = Some s' -> p ∉ held s' ->
     a = Joined p /\ all_returned s kids = true).
Proof.
  intros Hrun.
  destruct (session_invariants seedUrls acts s Hrun) as (Hs & Hc & Hf).
  split_and!; try apply Hs.
  - intros c tc p Hlk Hp Hlive.
    destruct Hf as [Hseeds Hseed Hchild Hcount].
    destruct (Nat.lt_ge_cases c (length seedUrls)) as [Hlt|Hge].
    { destruct (Hseed c tc Hlk Hlt) as (_ & Hnone); congruence. }
    destruct (Hchild c tc Hlk Hge) as (Hd & pp & tp & Hpp & Hlt & Hlkp & Hok).
    assert (pp = p) by congruence; subst pp.
    destruct (t_pc tp) as [| | |kids|] eqn:Hpc; simpl in Hok; try contradiction.
    exists tp, kids. split_and!; auto.
    + apply (slots_holder s p tp Hs Hlkp); [congruence | right; congruence].
    + destruct (so_live _ Hs c tc Hlk Hlive) as [Hq|Hh]; [right | left; assumption].
      split; [|assumption].
      destruct (so_queue _ Hs c Hq) as (_ & Hpcq).
      apply pc_of_Some in Hpcq as (t' & Hlk' & Hpcq). congruence.
  - intros p tp kids a s' Hlk Hpc Hstep Hout.
    destruct (decide (actor a = p)) as [Ha|Ha].
    + destruct a as [who | who fetched now | who]; simpl in Ha; subst who;
        simpl in Hstep; rewrite Hlk, Hpc in Hstep; try discriminate.
      destruct (all_returned s kids); [auto | discriminate].
    + exfalso; apply Hout.
      assert (Hlk' : tasks s' !! p = Some tp).
      { erewrite step_frame; eauto. apply lookup_lt_Some in Hlk; assumption. }
      apply (slots_holder s' p tp); [eapply slots_step; eassumption | assumption | |];
        [congruence | right; congruence].
Qed.

Lemma processUrl_log u d p s :
  exists rest, log (processUrl u d p s) = log s ++ rest /\
               Forall (fun e => exists w n, e = Claimed w n) rest.
Proof.
  destruct (processUrl_cases u d p s) as (_ & [(_ & _ & _ & _ & Hl) | (_ & _ & _ & Hl & _)]).
  - exists []; rewrite app_nil_r; auto.
  - eexists; split; [exact Hl|]. repeat constructor. eauto.
Qed.

Lemma fan_out_log who us : forall s,
  exists rest, log (fan_out who us s) = log s ++ rest /\
               Forall (fun e => exists w n, e = Claimed w n) rest.
Proof.
  unfold Inspector.fan_out.
  induction us as [|u us IH]; intros s; simpl.
  - exists []; rewrite app_nil_r; auto.
  - destruct (processUrl_log u 1%nat (Some who) s) as (r1 & Hl1 & Hr1).
    destruct (IH (processUrl u 1%nat (Some who) s)) as (r2 & Hl2 & Hr2).
    exists (r1 ++ r2). rewrite Hl2, Hl1, app_assoc. split; [reflexivity|].
    apply Forall_app; auto.
Qed.

Lemma fan_out_pageCount who us : forall s,
  pageCount (fan_out who us s) = pageCount s.
Proof.
  unfold Inspector.fan_out.
  induction us as [|u us IH]; intros s; simpl; [reflexivity|].
  rewrite IH. apply processUrl_cases.
Qed.

(** C1, what the code does at a successful inspection.  When the fetch of
    a call resolves, the extracted text has at least [MIN_TEXT_LENGTH]
    characters and the stop callback does not ask to stop at the check after
    the fetch, the session counts the page and passes the new count to the
    progress callback; what follows in the log of that step are the claims
    of the fan-out, and the step has no other effect.  The page record is
    not handed to the store: [inspector.js] does not load [storage.js], and
    [Storage.savePageResult] has no caller. *)
Theorem successful_inspection_reports who html now s t :
  tasks s !! who = Some t -> t_pc t = AwaitInspect ->
  MIN_TEXT_LENGTH <= Fetcher.strlen (ex_text (extractTextAndLinks html (t_url t))) ->
  (shouldAbort s).1 = false ->
  exists s',
    step (Inspected who (Fetcher.Resolved html) now) s = Some s' /\
    pageCount s' = pageCount s + 1 /\
    exists rest,
      log s' = log s ++ Progress (pageCount s + 1) :: rest /\
      Forall (fun e => exists w n, e = Claimed w n) rest.
Proof.
  intros Hlk Hpc Hlen Hgo.
  - cbn [Inspector.step]. rewrite Hlk, Hpc.
    unfold inspectPage.
    destruct (Z.ltb_spec (Fetcher.strlen (ex_text (extractTextAndLinks html (t_url t))))
                MIN_TEXT_LENGTH) as [|_]; [lia|].
    abort_cases s stop s1. simpl in Hgo; subst stop.
    cbn [links].
    match goal with
    | |- exists s', (if ?c then _ else _) = _ /\ _ => destruct c
    end.
    + eexists; split; [reflexivity|]. split.
      * unfold set_pc, with_tasks; cbn [pageCount].
        rewrite fan_out_pageCount. cbn [pageCount]. congruence.
      * match goal with
        | |- context [Inspector.fan_out _ _ who ?us ?s2] =>
            destruct (fan_out_log who us s2)
              as (rest & Hl & Hrest)
        end.
        exists rest. split; [|exact Hrest].
        unfold set_pc, with_tasks; cbn [log].
        rewrite Hl. cbn [log]. rewrite <- app_assoc. simpl. congruence.
    + eexists; split; [reflexivity|].
      match goal with
      | |- context [leave who ?s2] =>
          destruct (leave_cases who s2) as (_ & Hp & Hl & _)
      end.
      rewrite Hp, Hl. cbn [pageCount log]. split; [congruence|].
      exists []. split; [congruence | constructor].
Qed.

End InspectorFacts.

Section InspectorRuns.
Import Inspector Examples.

Local Abbreviation norm := Url.normalizeUrl_or_self.

Lemma successful_inspection_reports_witness :
  exists s s',
    run norm extract never_stop [Resume 0; Resume 0] (inspectQuestion norm never_stop [seed])
      = Some s /\
    step norm extract never_stop (Inspected 0 (Fetcher.Resolved "<html>") now) s
      = Some s' /\
    pageCount s' = pageCount s + 1.
Proof.
  eexists. 
  destruct (successful_inspection_reports norm extract never_stop 0%nat
              "<html>" now
              (default (inspectQuestion norm never_stop [])
                 (run norm extract never_stop [Resume 0; Resume 0]
                    (inspectQuestion norm never_stop [seed])))
              (Task seed 0 None AwaitInspect))
    as (s' & Hstep & Hcount & _).
  - vm_compute; reflexivity.
  - reflexivity.
  - vm_compute; discriminate.
  - vm_compute; reflexivity.
  - exists s'. split; [vm_compute; reflexivity|]. split; [exact Hstep | exact Hcount].
Defined.

Lemma no_url_fetched_twice_witness :
  exists s,
    run norm extract never_stop seed_inspected
      (inspectQuestion norm never_stop [seed; "http://example.com"%string]) = Some s /\
    NoDup (norm <$> fetched_urls (log s)).
Proof.
  eexists. split; [vm_compute; reflexivity|].
  eapply proj1.
  apply (no_url_fetched_twice norm extract never_stop
           [seed; "http://example.com"%string] seed_inspected).
  vm_compute; reflexivity.
Defined.

Lemma parent_keeps_slot_witness :
  exists s,
    run norm extract never_stop child_inspected
      (inspectQuestion norm never_stop [seed]) = Some s /\
    pc_of s 1 = Some Returned /\ pc_of s 2 = Some AwaitAcquire /\
    Semaphore.current (semaphore s) = Z.of_nat (size (held s)) /\
    Semaphore.current (semaphore s) <= 3.
Proof.
  eexists. split; [vm_compute; reflexivity|].
  split; [reflexivity|]. split; [reflexivity|].
  refine (let H := parent_keeps_slot norm extract never_stop [seed]
                     child_inspected _ _ in
          conj (proj1 (proj2 H)) (proj1 (proj2 (proj2 H)))).
  vm_compute; reflexivity.
Defined.

End InspectorRuns.

(** ** The crawl orchestrator: how a session ends, and how large it gets *)

Section InspectorProgress.
Import Inspector.

Variable normalizeUrl : string -> string.
Variable extractTextAndLinks : string -> string -> extraction.
Variable shouldStopFn : nat -> bool.

Local Abbreviation processUrl := (processUrl normalizeUrl shouldStopFn).
Local Abbreviation shouldAbort := (shouldAbort shouldStopFn).
Local Abbreviation step := (step normalizeUrl extractTextAndLinks shouldStopFn).
Local Abbreviation run := (run normalizeUrl extractTextAndLinks shouldStopFn).
Local Abbreviation inspectQuestion := (inspectQuestion normalizeUrl shouldStopFn).
Local Abbreviation fan_out := (fan_out normalizeUrl shouldStopFn).
Local Abbreviation claims_ok := (claims_ok normalizeUrl).

Ltac abort_cases s stop s1 :=
  let E := fresh "E" in
  pose proof (shouldAbort_frame shouldStopFn s) as E;
  destruct (shouldAbort s) as [stop s1]; simpl in E;
  destruct E as (? & ? & ? & ? & ? & ?).

(** *** The end of a session *)

Lemma finished_returned s i t :
  finished s = true -> tasks s !! i = Some t -> t_pc t = Returned.
Proof.
  unfold finished. rewrite forallb_forall. intros Hall Hlk.
  assert (Hin : In t (tasks s)).
  { apply list_elem_of_In, list_elem_of_lookup. eauto. }
  specialize (Hall t Hin). destruct (t_pc t); try discriminate. reflexivity.
Qed.

(** X7. In a session, when every call of [processUrl] has returned
    ([Promise.all(seedTasks)] is fulfilled), every slot is free: the counter
    of the semaphore is 0, nobody is parked on its queue and no call holds a
    slot. *)
Theorem finished_session_holds_no_slot (seedUrls : list string) acts s :
  run acts (inspectQuestion seedUrls) = Some s ->
  finished s = true ->
  Semaphore.current (semaphore s) = 0 /\
  Semaphore.queue (semaphore s) = [] /\
  held s = ∅.
Proof.
  intros Hrun Hfin.
  destruct (session_invariants normalizeUrl extractTextAndLinks shouldStopFn
              seedUrls acts s Hrun) as (Hs & _ & _).
  assert (Hh : held s = ∅).
  { apply leibniz_equiv. apply elem_of_equiv_empty. intros w Hw.
    destruct (so_held _ Hs w Hw) as (t & Hlk & Hpc).
    apply Hpc. eapply finished_returned; eassumption. }
  split_and!.
  - rewrite (so_cur _ Hs), Hh, size_empty. reflexivity.
  - destruct (Semaphore.queue (semaphore s)) as [|w q] eqn:Hq; [reflexivity|].
    destruct (so_queue _ Hs w) as (_ & Hpc); [rewrite Hq; left|].
    apply pc_of_Some in Hpc as (t & Hlk & Hpc).
    rewrite (finished_returned s w t Hfin Hlk) in Hpc. discriminate.
  - exact Hh.
Qed.

(** *** After the stop *)

Lemma shouldAbort_aborted s :
  aborted s = true -> shouldAbort s = (true, s).
Proof. intros H. unfold Inspector.shouldAbort. rewrite H. reflexivity. Qed.

Lemma step_aborted a s s' :
  aborted s = true -> step a s = Some s' -> s' = leave (actor a) s.
Proof.
  intros Hab Hstep.
  destruct a as [who | who fetched now | who]; simpl in Hstep |- *;
    destruct (tasks s !! who) as [t|] eqn:Hlk; try discriminate;
    destruct (t_pc t) as [| | |kids|] eqn:Hpc; try discriminate.
  - destruct (waiting s who); [discriminate|].
    rewrite (shouldAbort_aborted s Hab) in Hstep. congruence.
  - rewrite (shouldAbort_aborted s Hab) in Hstep. congruence.
  - destruct (inspectPage _ _ _ _); [|congruence].
    rewrite (shouldAbort_aborted s Hab) in Hstep. congruence.
  - destruct (all_returned s kids); [congruence | discriminate].
Qed.

Lemma leave_stopCalls who s : stopCalls (leave who s) = stopCalls s.
Proof. unfold leave. destruct (Semaphore.release _) as [sem' [v|]]; reflexivity. Qed.

Lemma leave_length who s : length (tasks (leave who s)) = length (tasks s).
Proof.
  destruct (leave_cases who s) as (_ & _ & _ & _ & Ht & _).
  rewrite Ht, length_alter. reflexivity.
Qed.

Lemma leave_returned who s i :
  pc_of s i = Some Returned \/ (i = who /\ is_Some (tasks s !! i)) ->
  pc_of (leave who s) i = Some Returned.
Proof.
  destruct (leave_cases who s) as (_ & _ & _ & _ & Ht & _).
  unfold pc_of. rewrite Ht, list_lookup_alter.
  intros [H | (-> & (t & Hlk))].
  - destruct (decide (who = i)) as [->|]; [|exact H].
    destruct (tasks s !! i); [reflexivity | discriminate].
  - rewrite decide_True by reflexivity. rewrite Hlk. reflexivity.
Qed.

Lemma step_actor a s s' : step a s = Some s' -> is_Some (tasks s !! actor a).
Proof.
  destruct a as [who | who fetched now | who]; simpl;
    destruct (tasks s !! who); try discriminate; eauto.
Qed.

Lemma run_aborted acts : forall s s',
  aborted s = true -> run acts s = Some s' ->
  aborted s' = true /\ stopCalls s' = stopCalls s /\
  visitedUrls s' = visitedUrls s /\ log s' = log s /\
  pageCount s' = pageCount s /\ length (tasks s') = length (tasks s) /\
  (forall i, pc_of s i = Some Returned -> pc_of s' i = Some Returned) /\
  Forall (fun a => pc_of s' (actor a) = Some Returned) acts.
Proof.
  induction acts as [|a acts IH]; intros s s' Hab; simpl.
  - intros [= <-]. split_and!; auto.
  - destruct (step a s) as [s1|] eqn:Hstep; [|discriminate].
    intros Hrun.
    pose proof (step_aborted a s s1 Hab Hstep) as ->.
    destruct (leave_cases (actor a) s) as (Hv & Hp & Hl & Ha & Ht & _).
    destruct (IH (leave (actor a) s) s') as (Ha' & Hc' & Hv' & Hl' & Hp' & Hn' & Hret & Hall);
      [congruence | exact Hrun |].
    split_and!; try congruence.
    + rewrite Hc'. apply leave_stopCalls.
    + rewrite Hn'. apply leave_length.
    + intros i Hi. apply Hret, leave_returned. left; exact Hi.
    + constructor; [|exact Hall].
      apply Hret, leave_returned. right. split; [reflexivity|].
      eapply step_actor; eassumption.
Qed.

(** X8. Once [aborted] is set the session only winds down: whatever
    the scheduler runs from there, [aborted] stays set, the stop callback is
    not called again, no URL is claimed, nothing is fetched or counted, no
    call of [processUrl] is made, and every call that is resumed has
    returned at the end. *)
Theorem stopped_session_winds_down acts s s' :
  aborted s = true ->
  run acts s = Some s' ->
  aborted s' = true /\
  stopCalls s' = stopCalls s /\
  visitedUrls s' = visitedUrls s /\
  log s' = log s /\
  pageCount s' = pageCount s /\
  length (tasks s') = length (tasks s) /\
  Forall (fun a => pc_of s' (actor a) = Some Returned) acts.
Proof.
  intros Hab Hrun.
  destruct (run_aborted acts s s' Hab Hrun) as (? & ? & ? & ? & ? & ? & _ & ?).
  split_and!; assumption.
Qed.

(** *** The fan-out *)

Lemma select_links_acc visited links : forall acc,
  (length acc <= MAX_EXPANDED_URLS)%nat ->
  select_links normalizeUrl visited links acc =
  acc ++ take (MAX_EXPANDED_URLS - length acc)
           (filter (fun l => normalizeUrl l ∉ visited) links).
Proof.
  induction links as [|l links IH]; intros acc Hacc.
  - cbn [select_links]. rewrite filter_nil, take_nil, app_nil_r. reflexivity.
  - cbn [select_links]. rewrite filter_cons.
    destruct (Nat.leb_spec MAX_EXPANDED_URLS (length acc)) as [Hfull|Hroom].
    + replace (MAX_EXPANDED_URLS - length acc)%nat with 0%nat by lia.
      rewrite take_0, app_nil_r. reflexivity.
    + destruct (decide (normalizeUrl l ∉ visited)) as [Hout|Hin].
      * rewrite bool_decide_eq_false_2 by exact Hout.
        rewrite IH by (rewrite length_app; simpl; lia).
        rewrite length_app; simpl.
        replace (MAX_EXPANDED_URLS - length acc)%nat
          with (S (MAX_EXPANDED_URLS - (length acc + 1)))%nat by lia.
        rewrite firstn_cons, <- app_assoc. reflexivity.
      * rewrite bool_decide_eq_true_2 by (destruct (decide (normalizeUrl l ∈ visited)); tauto).
        apply IH, Hacc.
Qed.

(** X9. The fan-out of a page takes the first 25 of its links whose
    normal form is not in [visitedUrls] when the page is expanded, in the
    order of the page; the loop does not look at what it has taken, so a
    link that occurs twice among them is taken twice. *)
Theorem expansion_takes_first_unvisited visited links :
  select_links normalizeUrl visited links [] =
  take 25 (filter (fun l => normalizeUrl l ∉ visited) links).
Proof.
  rewrite select_links_acc by (simpl; unfold MAX_EXPANDED_URLS; lia).
  reflexivity.
Qed.

(** *** Three parents *)

Lemma three_holders s p1 p2 p3 :
  slots_ok s -> NoDup [p1; p2; p3] ->
  blocked_parent s p1 -> blocked_parent s p2 -> blocked_parent s p3 ->
  held s = {[p1; p2; p3]}.
Proof.
  intros Hs Hnd H1 H2 H3.
  assert (Hin : forall p, blocked_parent s p -> p ∈ held s).
  { intros p (t & kids & Hlk & Hpc & _).
    apply (slots_holder s p t Hs Hlk); [congruence | right; congruence]. }
  symmetry. apply set_subseteq_size_eq.
  - intros x Hx. apply elem_of_union in Hx as [Hx|Hx];
      [apply elem_of_union in Hx as [Hx|Hx]|];
      apply elem_of_singleton in Hx as ->; auto.
  - apply NoDup_cons in Hnd as (Hn1 & Hnd).
    apply NoDup_cons in Hnd as (Hn2 & _).
    rewrite !size_union by set_solver. rewrite !size_singleton.
    pose proof (so_cur _ Hs). pose proof (so_le _ Hs).
    unfold MAX_CONCURRENT in *. lia.
Qed.

(** X10. Three parents starve their children.  In a session, when three
    different calls are suspended at [Promise.all] on children that have not
    all returned, no call can be resumed, no schedule continues the session,
    and the session is not finished: the three hold the three slots that
    their children wait for. *)
Theorem three_parents_deadlock (seedUrls : list string) acts s p1 p2 p3 :
  run acts (inspectQuestion seedUrls) = Some s ->
  NoDup [p1; p2; p3] ->
  blocked_parent s p1 -> blocked_parent s p2 -> blocked_parent s p3 ->
  (forall a, step a s = None) /\
  (forall a acts', run (a :: acts') s = None) /\
  finished s = false.
Proof.
  intros Hrun Hnd H1 H2 H3.
  destruct (session_invariants normalizeUrl extractTextAndLinks shouldStopFn
              seedUrls acts s Hrun) as (Hs & _ & _).
  pose proof (three_holders s p1 p2 p3 Hs Hnd H1 H2 H3) as Hheld.
  assert (Hbp : forall w, w ∈ held s -> blocked_parent s w).
  { intros w Hw. rewrite Hheld in Hw.
    apply elem_of_union in Hw as [Hw|Hw];
      [apply elem_of_union in Hw as [Hw|Hw]|];
      apply elem_of_singleton in Hw as ->; assumption. }
  assert (Hstuck : forall a, step a s = None).
  { intros a.
    assert (Hcase : forall w t, tasks s !! w = Some t ->
              (t_pc t = AwaitAcquire -> waiting s w = true) /\
              t_pc t <> AwaitDelay /\ t_pc t <> AwaitInspect /\
              (forall kids, t_pc t = AwaitChildren kids ->
                 all_returned s kids = false)).
    { intros w t Hlk.
      assert (Hlive : t_pc t <> Returned ->
                (w ∈ Semaphore.queue (semaphore s) /\ t_pc t = AwaitAcquire) \/
                blocked_parent s w).
      { intros Hpc. destruct (so_live _ Hs w t Hlk Hpc) as [Hq|Hh].
        - left. split; [assumption|].
          destruct (so_queue _ Hs w Hq) as (_ & Hpcq).
          apply pc_of_Some in Hpcq as (t' & Hlk' & Hpcq). congruence.
        - right. apply Hbp, Hh. }
      split_and!.
      - intros Hpc. destruct Hlive as [(Hq & _) | (t' & kids & Hlk' & Hpc' & _)];
          [congruence | | congruence].
        unfold waiting. apply bool_decide_eq_true_2. exact Hq.
      - intros Hpc. destruct Hlive as [(_ & Hq) | (t' & kids & Hlk' & Hpc' & _)];
          congruence.
      - intros Hpc. destruct Hlive as [(_ & Hq) | (t' & kids & Hlk' & Hpc' & _)];
          congruence.
      - intros kids Hpc. destruct Hlive as [(_ & Hq) | (t' & kids' & Hlk' & Hpc' & Hall)];
          [congruence | congruence |].
        assert (t' = t) by congruence. subst t'. congruence. }
    destruct a as [who | who fetched now | who]; simpl;
      destruct (tasks s !! who) as [t|] eqn:Hlk; try reflexivity;
      destruct (Hcase who t Hlk) as (Hacq & Hdel & Hins & Hch);
      destruct (t_pc t) as [| | |kids|] eqn:Hpc; try reflexivity;
      try congruence.
    - rewrite Hacq by reflexivity. reflexivity.
    - rewrite (Hch kids eq_refl). reflexivity. }
  split_and!.
  - exact Hstuck.
  - intros a acts'. simpl. rewrite Hstuck. reflexivity.
  - destruct H1 as (t & kids & Hlk & Hpc & _).
    destruct (finished s) eqn:Hfin; [|reflexivity].
    unfold finished in Hfin. rewrite forallb_forall in Hfin.
    assert (Hin : In t (tasks s)).
    { apply list_elem_of_In, list_elem_of_lookup. eauto. }
    specialize (Hfin t Hin). rewrite Hpc in Hfin. discriminate.
Qed.

(** *** Two parents *)

Lemma processUrl_fresh d p us : forall s,
  exists new,
    tasks (fold_left (fun s u => processUrl u d p s) us s) = tasks s ++ new /\
    length new = length us /\ Forall fresh_pc new.
Proof.
  induction us as [|u us IH]; intros s; simpl.
  - exists []; rewrite app_nil_r; auto.
  - destruct (IH (processUrl u d p s)) as (new & Ht & Hlen & Hall).
    assert (exists t, tasks (processUrl u d p s) = tasks s ++ [t] /\
                      fresh_pc t) as (t & Ht1 & Hf).
    { destruct (processUrl_cases normalizeUrl shouldStopFn u d p s)
        as (_ & [(Ht1 & _) | (_ & Ht1 & _)]);
        eexists; (split; [exact Ht1|]); [right | left]; reflexivity. }
    exists (t :: new). rewrite Ht, Ht1, <- app_assoc. simpl.
    split_and!; auto.
Qed.

Lemma awaited_start seedUrls :
  awaited_ok (length seedUrls) (inspectQuestion seedUrls).
Proof.
  unfold Inspector.inspectQuestion.
  destruct (processUrl_fresh 0%nat None seedUrls
              (Session ∅ (Semaphore.new MAX_CONCURRENT) 0 false 0 [] ∅ []))
    as (new & Ht & _ & Hall).
  intros p t kids Hlk Hpc. rewrite Ht in Hlk. cbn [tasks app] in Hlk.
  rewrite Forall_lookup in Hall. destruct (Hall p t Hlk); congruence.
Qed.

Lemma awaited_ext seeds s s' :
  tasks s' = tasks s -> awaited_ok seeds s -> awaited_ok seeds s'.
Proof. intros Ht H p t kids. rewrite Ht. apply H. Qed.

(** A call moves to a place other than [Promise.all]. *)
Lemma awaited_retask seeds s s' who p' :
  tasks s' = alter (fun t => Task (t_url t) (t_depth t) (t_parent t) p') who
               (tasks s) ->
  (forall kids, p' <> AwaitChildren kids) ->
  awaited_ok seeds s -> awaited_ok seeds s'.
Proof.
  intros Ht Hp' H p t kids Hlk Hpc. rewrite Ht in Hlk.
  rewrite Ht, length_alter.
  destruct (decide (who = p)) as [->|Hne].
  - rewrite list_lookup_alter_eq in Hlk.
    destruct (tasks s !! p) as [t0|]; [|discriminate].
    injection Hlk as <-. cbn in Hpc. destruct (Hp' kids Hpc).
  - rewrite list_lookup_alter_ne in Hlk by exact Hne.
    apply (H p t kids Hlk Hpc).
Qed.

Lemma awaited_leave seeds who s :
  awaited_ok seeds s -> awaited_ok seeds (leave who s).
Proof.
  intros H. destruct (leave_cases who s) as (_ & _ & _ & _ & Ht & _).
  eapply awaited_retask; [exact Ht | discriminate | exact H].
Qed.

Lemma awaited_set_pc seeds who p' s :
  (forall kids, p' <> AwaitChildren kids) ->
  awaited_ok seeds s -> awaited_ok seeds (set_pc who p' s).
Proof. intros Hp' H. eapply awaited_retask; [reflexivity | exact Hp' | exact H]. Qed.

Lemma awaited_step seeds a s s' :
  family_ok seeds s -> awaited_ok seeds s -> step a s = Some s' ->
  awaited_ok seeds s'.
Proof.
  intros Hfam Ha Hstep.
  destruct a as [who | who fetched now | who]; simpl in Hstep;
    destruct (tasks s !! who) as [t|] eqn:Hlk; try discriminate;
    destruct (t_pc t) as [| | |kids|] eqn:Hpc; try discriminate.
  - destruct (waiting s who); [discriminate|].
    abort_cases s stop s1.
    assert (Ha1 : awaited_ok seeds s1) by (eapply awaited_ext; eassumption).
    destruct stop; injection Hstep as <-.
    + apply awaited_leave, Ha1.
    + apply awaited_set_pc; [discriminate | exact Ha1].
  - abort_cases s stop s1.
    assert (Ha1 : awaited_ok seeds s1) by (eapply awaited_ext; eassumption).
    destruct stop; injection Hstep as <-.
    + apply awaited_leave, Ha1.
    + apply awaited_set_pc; [discriminate|].
      eapply awaited_ext; [|exact Ha1]. reflexivity.
  - destruct (inspectPage _ _ _ _) as [result|].
    2:{ injection Hstep as <-. apply awaited_leave, Ha. }
    abort_cases s stop s1.
    assert (Ha1 : awaited_ok seeds s1) by (eapply awaited_ext; eassumption).
    destruct stop.
    { injection Hstep as <-. apply awaited_leave, Ha1. }
    match type of Hstep with
    | (if _ then Some (set_pc _ _ (Inspector.fan_out _ _ _ ?us ?s2)) else _) = _ =>
        set (s2' := s2) in *; set (us' := us) in *
    end.
    assert (Ha2 : awaited_ok seeds s2')
      by (eapply (awaited_ext seeds s1); [reflexivity | exact Ha1]).
    assert (Ht2 : tasks s2' = tasks s) by (simpl; congruence).
    destruct (Nat.eqb_spec (t_depth t) 0) as [Hd|Hd]; simpl in Hstep.
    2:{ injection Hstep as <-. apply awaited_leave, Ha2. }
    destruct (0 <? length (links result))%nat; injection Hstep as <-.
    2:{ apply awaited_leave, Ha2. }
    change (length (tasks s1)) with (length (tasks s2')).
    destruct (processUrl_fresh 1%nat (Some who) us' s2')
      as (new & Hnew & Hlen & Hfresh).
    change (fold_left _ us' s2') with (fan_out who us' s2') in Hnew.
    intros p tp kids' Hlkp Hpcp.
    rewrite lookup_set_pc in Hlkp.
    unfold set_pc; cbn [tasks with_tasks]. rewrite length_alter.
    rewrite Hnew, length_app, Hlen, Ht2 in *.
    assert (Hwho : (who < seeds)%nat).
    { destruct (Nat.lt_ge_cases who seeds) as [Hlt|Hge]; [exact Hlt|].
      destruct (fo_child _ _ Hfam who t Hlk Hge) as (Hd1 & _). lia. }
    destruct (decide (who = p)) as [->|Hne].
    + rewrite lookup_app_l in Hlkp by (eapply lookup_lt_Some, Hlk).
      rewrite Hlk in Hlkp. injection Hlkp as <-. cbn in Hpcp.
      injection Hpcp as <-. split; [exact Hwho|].
      apply Forall_forall. intros k Hk. apply elem_of_seq in Hk.
      pose proof (fo_seeds _ _ Hfam). lia.
    + destruct (Nat.lt_ge_cases p (length (tasks s))) as [Hlt|Hge].
      * rewrite lookup_app_l in Hlkp by exact Hlt.
        destruct (Ha p tp kids' Hlkp Hpcp) as (Hp & Hkids).
        split; [exact Hp|]. eapply Forall_impl; [exact Hkids|].
        cbn. intros k Hk. lia.
      * rewrite lookup_app_r in Hlkp by exact Hge.
        rewrite Forall_lookup in Hfresh.
        destruct (Hfresh _ _ Hlkp); congruence.
  - destruct (all_returned s kids); [|discriminate].
    injection Hstep as <-. apply awaited_leave, Ha.
Qed.

Lemma awaited_run seeds acts : forall s s',
  family_ok seeds s -> awaited_ok seeds s -> run acts s = Some s' ->
  awaited_ok seeds s'.
Proof.
  induction acts as [|a acts IH]; intros s s' Hf H; simpl.
  - intros [= <-]; exact H.
  - destruct (step a s) as [s1|] eqn:Hstep; [|discriminate].
    apply IH.
    + eapply family_step; eassumption.
    + eapply awaited_step; eassumption.
Qed.

(** A call that is neither parked on the queue nor a parent whose children
    are out can be resumed. *)
Lemma live_call_enabled s i t :
  tasks s !! i = Some t -> t_pc t <> Returned ->
  (exists a, is_Some (step a s)) \/
  (t_pc t = AwaitAcquire /\ waiting s i = true) \/
  (exists kids, t_pc t = AwaitChildren kids /\ all_returned s kids = false).
Proof.
  intros Hlk Hlive. destruct (t_pc t) as [| | |kids|] eqn:Hpc.
  - destruct (waiting s i) eqn:Hw; [right; left; auto|].
    left. exists (Resume i). simpl. rewrite Hlk, Hpc, Hw.
    destruct (shouldAbort s) as [[] ?]; eauto.
  - left. exists (Resume i). simpl. rewrite Hlk, Hpc.
    destruct (shouldAbort s) as [[] ?]; eauto.
  - left. exists (Inspected i (Fetcher.Rejected Fetcher.Timeout) EmptyString).
    simpl. rewrite Hlk, Hpc. eauto.
  - destruct (all_returned s kids) eqn:Hall; [|right; right; eauto].
    left. exists (Joined i). simpl. rewrite Hlk, Hpc, Hall. eauto.
  - contradiction.
Qed.


Lemma unfinished_live s :
  finished s = false ->
  exists i t, tasks s !! i = Some t /\ t_pc t <> Returned.
Proof.
  unfold finished. intros Hfin.
  induction (tasks s) as [|t l IH]; [discriminate|].
  cbn [forallb] in Hfin. apply andb_false_iff in Hfin as [Ht|Hl].
  - exists 0%nat, t. split; [reflexivity|]. intros E. rewrite E in Ht. discriminate.
  - destruct (IH Hl) as (i & t' & Hlk & Hpc). exists (S i), t'. auto.
Qed.

Lemma unreturned_kid s kids :
  all_returned s kids = false ->
  exists k, k ∈ kids /\ pc_of s k <> Some Returned.
Proof.
  unfold all_returned. induction kids as [|k kids IH]; [discriminate|].
  cbn [forallb]. intros H. apply andb_false_iff in H as [Hk|Hl].
  - exists k. split; [left|]. intros E. rewrite E in Hk. discriminate.
  - destruct (IH Hl) as (k' & Hin & Hpc). exists k'. split; [right|]; assumption.
Qed.

(** With a caller parked on the queue and at most two seeds, one of the
    three holders of a slot is not a parent, and can be resumed. *)
Lemma parked_call_enabled seeds s i :
  (seeds <= 2)%nat -> slots_ok s -> awaited_ok seeds s ->
  waiting s i = true ->
  exists a, is_Some (step a s).
Proof.
  intros Hseeds Hs Ha Hw. unfold waiting in Hw. apply bool_decide_eq_true in Hw.
  assert (Hfull : size (held s) = 3%nat).
  { pose proof (so_cur _ Hs) as Hc.
    rewrite (so_full _ Hs) in Hc by (intros E; rewrite E in Hw; inversion Hw).
    unfold MAX_CONCURRENT in Hc. lia. }
  destruct (decide (Forall (fun w => (w < seeds)%nat) (elements (held s))))
    as [Hall|Hex].
  - exfalso.
    assert (Hsub : held s ⊆ ({[0%nat; 1%nat]} : gset nat)).
    { intros w Hin. rewrite Forall_forall in Hall.
      specialize (Hall w ltac:(apply elem_of_elements, Hin)).
      assert (Hw01 : w = 0%nat \/ w = 1%nat) by (clear -Hall Hseeds; lia).
      destruct Hw01 as [-> | ->]; set_solver. }
    apply subseteq_size in Hsub.
    rewrite size_union, !size_singleton in Hsub by set_solver. lia.
  - apply not_Forall_Exists in Hex; [|intros w; apply _].
    apply Exists_exists in Hex as (w & Hin & Hge).
    apply elem_of_elements in Hin.
    destruct (so_held _ Hs w Hin) as (t & Hlk & Hlive).
    destruct (live_call_enabled s w t Hlk Hlive)
      as [He | [(_ & Hww) | (kids & Hpc & _)]].
    + exact He.
    + unfold waiting in Hww. apply bool_decide_eq_true in Hww.
      destruct (so_queue _ Hs w Hww) as (Hnot & _). contradiction.
    + destruct (Ha w t kids Hlk Hpc) as (Hlt & _). destruct (Hge Hlt).
Qed.

(** With at most two seeds, a session in which a call has not returned
    can take a step. *)
Lemma live_session_enabled seeds s :
  (seeds <= 2)%nat -> slots_ok s -> awaited_ok seeds s ->
  finished s = false ->
  exists a, is_Some (step a s).
Proof.
  intros Hseeds Hs Ha Hfin.
  destruct (unfinished_live s Hfin) as (i & t & Hlk & Hlive).
  destruct (live_call_enabled s i t Hlk Hlive)
    as [He | [(_ & Hw) | (kids & Hpc & Hall)]].
  - exact He.
  - eapply parked_call_enabled; eassumption.
  - destruct (unreturned_kid s kids Hall) as (k & Hin & Hk).
    destruct (Ha i t kids Hlk Hpc) as (_ & Hkids).
    rewrite Forall_forall in Hkids. specialize (Hkids k Hin).
    destruct (lookup_lt_is_Some_2 (tasks s) k ltac:(lia)) as (tk & Hlkk).
    assert (Hlivek : t_pc tk <> Returned).
    { intros E. apply Hk. unfold pc_of. rewrite Hlkk. cbn. congruence. }
    destruct (live_call_enabled s k tk Hlkk Hlivek)
      as [He | [(_ & Hw) | (kids' & Hpc' & _)]].
    + exact He.
    + eapply parked_call_enabled; eassumption.
    + destruct (Ha k tk kids' Hlkk Hpc') as (Hlt & _). lia.
Qed.

Lemma session_awaited (seedUrls : list string) acts s :
  run acts (inspectQuestion seedUrls) = Some s ->
  awaited_ok (length seedUrls) s.
Proof.
  intros Hrun. eapply awaited_run; [| |exact Hrun].
  - apply family_start.
  - apply awaited_start.
Qed.

(** X11. With at most two seed URLs a session cannot get stuck: in every
    state it reaches in which some call has not returned, some call can be
    resumed. *)
Theorem two_seeds_never_stuck (seedUrls : list string) acts s :
  (length seedUrls <= 2)%nat ->
  run acts (inspectQuestion seedUrls) = Some s ->
  finished s = false ->
  exists a s', step a s = Some s'.
Proof.
  intros Hseeds Hrun Hfin.
  destruct (session_invariants normalizeUrl extractTextAndLinks shouldStopFn
              seedUrls acts s Hrun) as (Hs & _ & _).
  pose proof (session_awaited seedUrls acts s Hrun) as Ha.
  destruct (live_session_enabled (length seedUrls) s Hseeds Hs Ha Hfin)
    as (a & s' & Hstep).
  exists a, s'. exact Hstep.
Qed.

(** *** The size of a session *)

Lemma filter_filter_length {A} (P Q : A -> Prop)
    `{!forall x, Decision (P x)} `{!forall x, Decision (Q x)} (l : list A) :
  (length (filter P (filter Q l)) <= length (filter P l))%nat.
Proof.
  induction l as [|x l IH]; [reflexivity|].
  rewrite !filter_cons.
  destruct (decide (Q x)); destruct (decide (P x)); rewrite ?filter_cons;
    try (destruct (decide (P x)); try contradiction); simpl; lia.
Qed.

(** Calls counted by their parent: with at most [k] calls per parent and
    [n] parents there are at most [k * n] calls. *)
Lemma count_by_parent (k n : nat) : forall l : list (option nat),
  Forall (fun x => exists p, x = Some p /\ (p < n)%nat) l ->
  (forall p, (length (filter (fun x => x = Some p) l) <= k)%nat) ->
  (length l <= k * n)%nat.
Proof.
  induction n as [|n IH]; intros l Hall Hk.
  - destruct l as [|x l]; [simpl; lia|].
    apply Forall_cons in Hall as ((p & _ & Hp) & _). lia.
  - pose proof (filter_app_complement (fun x => x = Some n) l) as Hperm.
    apply Permutation_length in Hperm. rewrite length_app in Hperm.
    pose proof (Hk n) as Hn.
    assert (Hrest : (length (filter (fun x => ~ x = Some n) l) <= k * n)%nat).
    { apply IH.
      - apply Forall_forall. intros x Hx.
        apply list_elem_of_filter in Hx as (Hne & Hx).
        rewrite Forall_forall in Hall.
        destruct (Hall x Hx) as (p & -> & Hp).
        exists p. split; [reflexivity|].
        assert (p <> n) by congruence. lia.
      - intros p. etrans; [apply filter_filter_length | apply (Hk p)]. }
    lia.
Qed.

Lemma filter_drop_length {A} (P : A -> Prop) `{!forall x, Decision (P x)}
    (n : nat) (l : list A) :
  (length (filter P (drop n l)) <= length (filter P l))%nat.
Proof.
  rewrite <- (take_drop n l) at 2. rewrite filter_app, length_app. lia.
Qed.

Lemma calls_bounded seeds s :
  family_ok seeds s -> (length (tasks s) <= 26 * seeds)%nat.
Proof.
  intros [Hseeds Hseed Hchild Hcount].
  assert (Hkids : (length (drop seeds (parents s)) <= 25 * seeds)%nat).
  { apply count_by_parent.
    - apply Forall_forall. intros x Hx.
      apply list_elem_of_lookup in Hx as (i & Hx).
      rewrite lookup_drop in Hx. unfold parents in Hx.
      rewrite list_lookup_fmap in Hx.
      destruct (tasks s !! (seeds + i)%nat) as [tc|] eqn:Hlk; [|discriminate].
      injection Hx as <-.
      destruct (Hchild (seeds + i)%nat tc Hlk ltac:(lia))
        as (_ & p & tp & Hp & Hlt & _).
      eauto.
    - intros p. etrans; [apply filter_drop_length | apply (Hcount p)]. }
  rewrite length_drop in Hkids. unfold parents in Hkids.
  rewrite length_fmap in Hkids. lia.
Qed.

(** X12. A session with [n] seeds makes at most [26 * n] calls of
    [processUrl], and no more fetches than calls. *)
Theorem session_size_bounded (seedUrls : list string) acts s :
  run acts (inspectQuestion seedUrls) = Some s ->
  (length (tasks s) <= 26 * length seedUrls)%nat /\
  (length (fetched_urls (log s)) <= length (tasks s))%nat.
Proof.
  intros Hrun.
  destruct (session_invariants normalizeUrl extractTextAndLinks shouldStopFn
              seedUrls acts s Hrun)
    as (_ & [_ _ _ Hfetch Honce] & Hfam).
  split.
  - apply calls_bounded, Hfam.
  - rewrite <- (length_fmap t_url (tasks s)).
    apply submseteq_length, NoDup_submseteq.
    + eapply NoDup_fmap_1, Honce.
    + intros u Hu. unfold fetched_urls in Hu.
      apply list_elem_of_omap in Hu as (e & He & Hf).
      destruct e as [| w u' |]; try discriminate. injection Hf as ->.
      apply list_elem_of_split in He as (l1 & l2 & Hsplit).
      destruct (Hfetch l1 l2 w u Hsplit) as (_ & t & Hlk & Hurl & _).
      rewrite <- Hurl. apply list_elem_of_fmap. exists t. split; [reflexivity|].
      apply list_elem_of_lookup. eauto.
Qed.

(** *** Counting pages *)

Lemma in_flight_alter (f : task -> task) who l t :
  l !! who = Some t ->
  (length (filter (fun t => inspecting t = true) (alter f who l)) +
   (if inspecting t then 1 else 0) =
   length (filter (fun t => inspecting t = true) l) +
   (if inspecting (f t) then 1 else 0))%nat.
Proof.
  revert who; induction l as [|x l IH]; intros who Hlk; [discriminate|].
  destruct who as [|who]; simpl in Hlk.
  - injection Hlk as ->. cbn [alter list_alter]. rewrite !filter_cons.
    destruct (inspecting (f t)) eqn:E; destruct (inspecting t) eqn:E';
      rewrite ?(decide_True (P := true = true)) by reflexivity;
      rewrite ?(decide_False (P := false = true)) by discriminate;
      simpl; lia.
  - change (alter f (S who) (x :: l)) with (x :: alter f who l).
    rewrite !filter_cons. specialize (IH who Hlk).
    destruct (decide (inspecting x = true)); simpl; lia.
Qed.

Lemma in_flight_snoc l t :
  inspecting t = false ->
  length (filter (fun t => inspecting t = true) (l ++ [t])) =
  length (filter (fun t => inspecting t = true) l).
Proof.
  intros H. rewrite filter_app, length_app, filter_cons, filter_nil.
  rewrite decide_False by congruence. simpl. lia.
Qed.

Lemma processUrl_counts u d p s :
  let s' := processUrl u d p s in
  reports (log s') = reports (log s) /\
  fetched_urls (log s') = fetched_urls (log s) /\
  pageCount s' = pageCount s /\ in_flight s' = in_flight s.
Proof.
  intros s'; subst s'.
  destruct (processUrl_cases normalizeUrl shouldStopFn u d p s)
    as (Hp & [(Ht & _ & _ & _ & Hl) | (_ & Ht & _ & Hl & _)]);
    unfold in_flight, reports, fetched_urls; rewrite Ht, Hl, ?omap_app;
    cbn [omap]; rewrite ?app_nil_r, in_flight_snoc by reflexivity; auto.
Qed.

Lemma fan_out_counts who us : forall s,
  let s' := fan_out who us s in
  reports (log s') = reports (log s) /\
  fetched_urls (log s') = fetched_urls (log s) /\
  pageCount s' = pageCount s /\ in_flight s' = in_flight s.
Proof.
  unfold Inspector.fan_out.
  induction us as [|u us IH]; intros s; simpl; [auto|].
  destruct (processUrl_counts u 1%nat (Some who) s) as (H1 & H2 & H3 & H4).
  destruct (IH (processUrl u 1%nat (Some who) s)) as (H1' & H2' & H3' & H4').
  split_and!; congruence.
Qed.

Lemma leave_counts who s t :
  tasks s !! who = Some t ->
  let s' := leave who s in
  log s' = log s /\ pageCount s' = pageCount s /\
  (in_flight s' + (if inspecting t then 1 else 0) = in_flight s)%nat.
Proof.
  intros Hlk s'; subst s'.
  destruct (leave_cases who s) as (_ & Hp & Hl & _ & Ht & _).
  split_and!; auto. unfold in_flight. rewrite Ht.
  rewrite (in_flight_alter _ who (tasks s) t Hlk). cbn. lia.
Qed.

Lemma set_pc_counts who p s t :
  tasks s !! who = Some t ->
  (in_flight (set_pc who p s) + (if inspecting t then 1 else 0) =
   in_flight s + (match p with AwaitInspect => 1 | _ => 0 end))%nat.
Proof.
  intros Hlk. unfold in_flight, set_pc. cbn [tasks with_tasks].
  rewrite (in_flight_alter _ who (tasks s) t Hlk).
  unfold inspecting at 3. cbn [t_pc]. destruct p; reflexivity.
Qed.

Lemma counts_ext s s' :
  log s' = log s -> pageCount s' = pageCount s -> tasks s' = tasks s ->
  counts_ok s -> counts_ok s'.
Proof.
  intros Hl Hp Ht [H1 H2 H3].
  split; unfold in_flight in *; rewrite ?Hl, ?Hp, ?Ht; assumption.
Qed.

Lemma counts_leave who s t :
  tasks s !! who = Some t -> counts_ok s -> counts_ok (leave who s).
Proof.
  intros Hlk [H1 H2 H3].
  destruct (leave_counts who s t Hlk) as (Hl & Hp & Hf).
  split; rewrite ?Hl, ?Hp; try assumption. lia.
Qed.

Lemma counts_seeds us : forall s,
  counts_ok s -> counts_ok (fold_left (fun s u => processUrl u 0%nat None s) us s).
Proof.
  induction us as [|u us IH]; intros s H; simpl; [assumption|].
  apply IH. destruct (processUrl_counts u 0%nat None s) as (H1 & H2 & H3 & H4).
  destruct H as [G1 G2 G3]. split; rewrite ?H1, ?H2, ?H3, ?H4; assumption.
Qed.

Lemma seq_snoc_Z (n : Z) :
  0 <= n ->
  (Z.of_nat <$> seq 1 (Z.to_nat (n + 1))) =
  (Z.of_nat <$> seq 1 (Z.to_nat n)) ++ [n + 1].
Proof.
  intros Hn. replace (Z.to_nat (n + 1)) with (Z.to_nat n + 1)%nat by lia.
  rewrite seq_app, fmap_app. cbn [seq fmap list_fmap]. do 2 f_equal. lia.
Qed.

Lemma counts_step a s s' :
  counts_ok s -> step a s = Some s' -> counts_ok s'.
Proof.
  intros Hc Hstep.
  destruct a as [who | who fetched now | who]; simpl in Hstep;
    destruct (tasks s !! who) as [t|] eqn:Hlk; try discriminate;
    destruct (t_pc t) as [| | |kids|] eqn:Hpc; try discriminate.
  - destruct (waiting s who); [discriminate|].
    abort_cases s stop s1.
    assert (Hc1 : counts_ok s1) by (eapply counts_ext; eassumption).
    assert (Hlk1 : tasks s1 !! who = Some t) by congruence.
    destruct stop; injection Hstep as <-.
    + eapply counts_leave; eassumption.
    + destruct Hc1 as [G1 G2 G3].
      pose proof (set_pc_counts who AwaitDelay s1 t Hlk1) as Hf.
      unfold inspecting in Hf at 1. rewrite Hpc in Hf.
      split; change (log (set_pc ?w ?p ?s0)) with (log s0);
        change (pageCount (set_pc ?w ?p ?s0)) with (pageCount s0);
        try assumption. lia.
  - abort_cases s stop s1.
    assert (Hc1 : counts_ok s1) by (eapply counts_ext; eassumption).
    assert (Hlk1 : tasks s1 !! who = Some t) by congruence.
    destruct stop; injection Hstep as <-.
    + eapply counts_leave; eassumption.
    + destruct Hc1 as [G1 G2 G3].
      match goal with
      | |- counts_ok (set_pc who AwaitInspect ?s2) =>
          pose proof (set_pc_counts who AwaitInspect s2 t Hlk1) as Hf;
          change (in_flight s2) with (in_flight s1) in Hf
      end.
      unfold inspecting in Hf at 1. rewrite Hpc in Hf.
      split; change (log (set_pc ?w ?p ?s0)) with (log s0);
        change (pageCount (set_pc ?w ?p ?s0)) with (pageCount s0);
        cbn [log pageCount].
      * unfold reports in *. rewrite omap_app. cbn [omap]. rewrite app_nil_r. exact G1.
      * exact G2.
      * unfold fetched_urls in *. rewrite omap_app, length_app. cbn [omap list_omap length].
        lia.
  - destruct (inspectPage _ _ _ _) as [result|].
    2:{ injection Hstep as <-. eapply counts_leave; eassumption. }
    abort_cases s stop s1.
    assert (Hc1 : counts_ok s1) by (eapply counts_ext; eassumption).
    assert (Hlk1 : tasks s1 !! who = Some t) by congruence.
    destruct stop.
    { injection Hstep as <-. eapply counts_leave; eassumption. }
    destruct Hc1 as [G1 G2 G3].
    set (s2 := Session (visitedUrls s1) (semaphore s1) (pageCount s1 + 1)
                 (aborted s1) (stopCalls s1) (tasks s1) (held s1)
                 (log s1 ++ [Progress (pageCount s1 + 1)])) in *.
    assert (Hc2 : reports (log s2) =
                    Z.of_nat <$> seq 1 (Z.to_nat (pageCount s2)) /\
                  0 <= pageCount s2 /\
                  pageCount s2 + Z.of_nat (in_flight s2) 
                  <= Z.of_nat (length (fetched_urls (log s2))) + 1 /\
                  tasks s2 !! who = Some t).
    { subst s2; cbn [log pageCount tasks]. split_and!.
      - unfold reports in *. rewrite omap_app. cbn [omap].
        rewrite G1, seq_snoc_Z by exact G2. reflexivity.
      - lia.
      - unfold fetched_urls in *. rewrite omap_app, length_app. cbn [omap list_omap length].
        unfold in_flight in *. cbn [tasks]. lia.
      - exact Hlk1. }
    clearbody s2. destruct Hc2 as (R1 & R2 & R3 & Hlk2).
    destruct (_ && _); injection Hstep as <-.
    + match goal with
      | |- counts_ok (set_pc who ?p (Inspector.fan_out _ _ who ?us s2)) =>
          destruct (fan_out_counts who us s2) as (F1 & F2 & F3 & F4);
          pose proof (set_pc_counts who p (fan_out who us s2) t) as Hf
      end.
      unfold inspecting in Hf at 1. rewrite Hpc, F4 in Hf.
      rewrite (fan_out_lookup normalizeUrl extractTextAndLinks shouldStopFn) in Hf
        by (apply lookup_lt_Some in Hlk2; exact Hlk2).
      specialize (Hf Hlk2).
      split; change (log (set_pc ?w ?p ?s0)) with (log s0);
        change (pageCount (set_pc ?w ?p ?s0)) with (pageCount s0);
        rewrite ?F1, ?F2, ?F3; try assumption.
      lia.
    + destruct (leave_counts who s2 t Hlk2) as (Hl & Hp & Hf).
      unfold inspecting in Hf. rewrite Hpc in Hf.
      split; rewrite ?Hl, ?Hp; try assumption. lia.
  - destruct (all_returned s kids); [|discriminate].
    injection Hstep as <-. eapply counts_leave; eassumption.
Qed.

Lemma counts_run acts : forall s s',
  counts_ok s -> run acts s = Some s' -> counts_ok s'.
Proof.
  induction acts as [|a acts IH]; intros s s' Hc; simpl.
  - intros [= <-]; exact Hc.
  - destruct (step a s) as [s1|] eqn:Hstep; [|discriminate].
    apply IH. eapply counts_step; eassumption.
Qed.

(** X13. In a session the progress callback has been called with 1, 2,
    ..., [pageCount], in this order; [pageCount] is not negative; and the
    pages counted, together with the fetches that are under way, are no more
    than the fetches started. *)
Theorem progress_counts_up (seedUrls : list string) acts s :
  run acts (inspectQuestion seedUrls) = Some s ->
  reports (log s) = Z.of_nat <$> seq 1 (Z.to_nat (pageCount s)) /\
  0 <= pageCount s /\
  pageCount s + Z.of_nat (in_flight s)
    <= Z.of_nat (length (fetched_urls (log s))).
Proof.
  intros Hrun.
  assert (H : counts_ok s).
  { eapply counts_run; [|exact Hrun].
    apply counts_seeds. split; cbn; [reflexivity | lia | lia]. }
  destruct H as [H1 H2 H3]. auto.
Qed.

End InspectorProgress.

Section InspectorCompletion.
Import Inspector.

Variable normalizeUrl : string -> string.
Variable extractTextAndLinks : string -> string -> extraction.
Variable shouldStopFn : nat -> bool.

Local Abbreviation processUrl := (processUrl normalizeUrl shouldStopFn).
Local Abbreviation shouldAbort := (shouldAbort shouldStopFn).
Local Abbreviation step := (step normalizeUrl extractTextAndLinks shouldStopFn).
Local Abbreviation run := (run normalizeUrl extractTextAndLinks shouldStopFn).
Local Abbreviation inspectQuestion := (inspectQuestion normalizeUrl shouldStopFn).
Local Abbreviation fan_out := (fan_out normalizeUrl shouldStopFn).
Local Abbreviation claims_ok := (claims_ok normalizeUrl).

Ltac abort_cases s stop s1 :=
  let E := fresh "E" in
  pose proof (shouldAbort_frame shouldStopFn s) as E;
  destruct (shouldAbort s) as [stop s1]; simpl in E;
  destruct E as (? & ? & ? & ? & ? & ?).

(** *** The length of a schedule *)

Lemma work_bound s : (work s <= 4 * length (tasks s))%nat.
Proof.
  unfold work. induction (tasks s) as [|t l IH]; cbn; [lia|].
  assert (rank (t_pc t) <= 4)%nat by (destruct (t_pc t); cbn; lia). lia.
Qed.

(** A call moves on. *)
Lemma work_retask (l : list task) who p' t :
  l !! who = Some t -> (rank (t_pc t) < rank p')%nat ->
  (sum_list ((fun t => rank (t_pc t)) <$> l) <
   sum_list ((fun t => rank (t_pc t)) <$>
             alter (fun t => Task (t_url t) (t_depth t) (t_parent t) p') who l))%nat.
Proof.
  revert who. induction l as [|x l IH]; intros [|who] Hlk Hlt; try discriminate.
  - injection Hlk as ->. cbn. lia.
  - cbn in Hlk.
    change (alter ?f (S who) (x :: l)) with (x :: alter f who l).
    cbn [fmap list_fmap sum_list foldr]. specialize (IH who Hlk Hlt).
    cbn in IH |- *. lia.
Qed.

Lemma work_leave who s t :
  tasks s !! who = Some t -> t_pc t <> Returned ->
  (work s < work (leave who s))%nat.
Proof.
  intros Hlk Hpc. destruct (leave_cases who s) as (_ & _ & _ & _ & Ht & _).
  unfold work. rewrite Ht. apply (work_retask _ _ _ t Hlk).
  destruct (t_pc t); cbn; try lia. contradiction.
Qed.

Lemma work_set_pc who p' s t :
  tasks s !! who = Some t -> (rank (t_pc t) < rank p')%nat ->
  (work s < work (set_pc who p' s))%nat.
Proof. intros Hlk Hlt. unfold work, set_pc. cbn. apply (work_retask _ _ _ t Hlk Hlt). Qed.

Lemma work_ext s s' : tasks s' = tasks s -> work s' = work s.
Proof. unfold work. intros ->. reflexivity. Qed.

Lemma sum_list_app (l1 l2 : list nat) :
  sum_list (l1 ++ l2) = (sum_list l1 + sum_list l2)%nat.
Proof. induction l1 as [|x l1 IH]; cbn; [reflexivity | rewrite IH; lia]. Qed.

Lemma work_fan_out who us s : (work s <= work (fan_out who us s))%nat.
Proof.
  destruct (fan_out_grows normalizeUrl extractTextAndLinks shouldStopFn who us s) as (_ & (k & Hk)).
  unfold work. rewrite Hk, fmap_app, sum_list_app. lia.
Qed.

Lemma work_step a s s' : step a s = Some s' -> (work s < work s')%nat.
Proof.
  intros Hstep.
  destruct a as [who | who fetched now | who]; simpl in Hstep;
    destruct (tasks s !! who) as [t|] eqn:Hlk; try discriminate;
    destruct (t_pc t) as [| | |kids|] eqn:Hpc; try discriminate.
  - destruct (waiting s who); [discriminate|].
    abort_cases s stop s1.
    assert (Hlk1 : tasks s1 !! who = Some t) by congruence.
    rewrite <- (work_ext s s1) by assumption.
    destruct stop; injection Hstep as <-.
    + apply (work_leave who s1 t Hlk1). congruence.
    + apply (work_set_pc who _ s1 t Hlk1). rewrite Hpc. cbn. lia.
  - abort_cases s stop s1.
    assert (Hlk1 : tasks s1 !! who = Some t) by congruence.
    rewrite <- (work_ext s s1) by assumption.
    destruct stop; injection Hstep as <-.
    + apply (work_leave who s1 t Hlk1). congruence.
    + match goal with
      | |- (_ < work (set_pc _ _ ?s2))%nat =>
          refine (work_set_pc who _ s2 t Hlk1 _)
      end.
      rewrite Hpc. cbn. lia.
  - destruct (inspectPage _ _ _ _) as [result|].
    2:{ injection Hstep as <-. apply (work_leave who s t Hlk). congruence. }
    abort_cases s stop s1.
    assert (Hlk1 : tasks s1 !! who = Some t) by congruence.
    rewrite <- (work_ext s s1) by assumption.
    destruct stop.
    { injection Hstep as <-. apply (work_leave who s1 t Hlk1). congruence. }
    match type of Hstep with
    | (if _ then Some (set_pc _ _ (Inspector.fan_out _ _ _ ?us ?s2)) else _) = _ =>
        set (s2' := s2) in *; set (us' := us) in *
    end.
    assert (Hlk2 : tasks s2' !! who = Some t) by exact Hlk1.
    change (work s1) with (work s2').
    destruct (_ && _); injection Hstep as <-.
    + eapply Nat.le_lt_trans; [apply (work_fan_out who us' s2')|].
      apply (work_set_pc who _ _ t).
      * rewrite (fan_out_lookup normalizeUrl extractTextAndLinks shouldStopFn)
          by (eapply lookup_lt_Some, Hlk2).
        exact Hlk2.
      * rewrite Hpc. cbn. lia.
    + apply (work_leave who s2' t Hlk2). congruence.
  - destruct (all_returned s kids); [|discriminate].
    injection Hstep as <-. apply (work_leave who s t Hlk). congruence.
Qed.

Lemma work_run acts : forall s s',
  run acts s = Some s' -> (work s + length acts <= work s')%nat.
Proof.
  induction acts as [|a acts IH]; intros s s'; simpl.
  - intros [= <-]. lia.
  - destruct (step a s) as [s1|] eqn:Hstep; [|discriminate].
    intros Hrun. pose proof (work_step a s s1 Hstep). specialize (IH s1 s' Hrun).
    lia.
Qed.

(** X26. A schedule of a session has no more steps than four times the
    calls of [processUrl] made (a call has four [await]s at most, and a step
    takes a call past one), so a session with [n] seeds is over after
    [104 * n] steps at the latest. *)
Theorem schedule_is_bounded (seedUrls : list string) acts s :
  run acts (inspectQuestion seedUrls) = Some s ->
  (length acts <= 4 * length (tasks s))%nat /\
  (length acts <= 104 * length seedUrls)%nat.
Proof.
  intros Hrun.
  destruct (session_invariants normalizeUrl extractTextAndLinks shouldStopFn
              seedUrls acts s Hrun) as (_ & _ & Hfam).
  pose proof (calls_bounded (length seedUrls) s Hfam) as Hcalls.
  pose proof (work_run acts _ _ Hrun) as Hwork.
  pose proof (work_bound s). lia.
Qed.

(** *** Completion *)

Lemma run_snoc acts a : forall s s1 s2,
  run acts s = Some s1 -> step a s1 = Some s2 ->
  run (acts ++ [a]) s = Some s2.
Proof.
  induction acts as [|b acts IH]; intros s s1 s2; simpl.
  - intros [= <-] ->. reflexivity.
  - destruct (step b s) as [s'|]; [|discriminate]. apply IH.
Qed.

Lemma completes_within (seedUrls : list string) (k : nat) : forall acts s,
  (length seedUrls <= 2)%nat ->
  run acts (inspectQuestion seedUrls) = Some s ->
  (104 * length seedUrls - work s <= k)%nat ->
  exists acts' s', run acts' s = Some s' /\ finished s' = true /\
                   (length acts' <= k)%nat.
Proof.
  induction k as [|k IH]; intros acts s Hseeds Hrun Hk;
    (destruct (finished s) eqn:Hfin;
     [exists [], s; split_and!; [reflexivity | exact Hfin | cbn; lia]|]);
    destruct (session_invariants normalizeUrl extractTextAndLinks shouldStopFn
                seedUrls acts s Hrun) as (Hs & _ & _);
    pose proof (session_awaited normalizeUrl extractTextAndLinks shouldStopFn
                  seedUrls acts s Hrun) as Ha;
    destruct (live_session_enabled normalizeUrl extractTextAndLinks
                shouldStopFn (length seedUrls) s Hseeds Hs Ha Hfin)
      as (a & s1 & Hstep);
    pose proof (run_snoc acts a _ _ _ Hrun Hstep) as Hrun1;
    pose proof (work_step a s s1 Hstep) as Hlt;
    destruct (session_invariants normalizeUrl extractTextAndLinks shouldStopFn
                seedUrls _ s1 Hrun1) as (_ & _ & Hfam1);
    pose proof (calls_bounded (length seedUrls) s1 Hfam1) as Hcalls;
    pose proof (work_bound s1) as Hb.
  - lia.
  - destruct (IH (acts ++ [a]) s1 Hseeds Hrun1 ltac:(lia))
      as (acts' & s' & Hrun' & Hfin' & Hlen).
    exists (a :: acts'), s'. split_and!; [|exact Hfin' | cbn; lia].
    cbn [Inspector.run]. rewrite Hstep. exact Hrun'.
Qed.

(** X27. With at most two seed URLs every session can be completed: from
    every state it reaches there is a schedule under which every call
    returns, and the whole then takes [104 * n] steps at most. *)
Theorem two_seeds_session_completes (seedUrls : list string) acts s :
  (length seedUrls <= 2)%nat ->
  run acts (inspectQuestion seedUrls) = Some s ->
  exists acts' s',
    run acts' s = Some s' /\ finished s' = true /\
    (length acts + length acts' <= 104 * length seedUrls)%nat.
Proof.
  intros Hseeds Hrun.
  destruct (completes_within seedUrls (104 * length seedUrls - work s)
              acts s Hseeds Hrun ltac:(lia))
    as (acts' & s' & Hrun' & Hfin' & Hlen).
  exists acts', s'. split_and!; [exact Hrun' | exact Hfin' |].
  destruct (session_invariants normalizeUrl extractTextAndLinks shouldStopFn
              seedUrls acts s Hrun) as (_ & _ & Hfam).
  pose proof (calls_bounded (length seedUrls) s Hfam).
  pose proof (work_bound s).
  pose proof (work_run acts _ _ Hrun). lia.
Qed.

End InspectorCompletion.

(** ** The crawl orchestrator: what a fan-out makes and what is fetched *)

Section InspectorExpansion.
Import Inspector.

Variable normalizeUrl : string -> string.
Variable extractTextAndLinks : string -> string -> extraction.
Variable shouldStopFn : nat -> bool.

Local Abbreviation processUrl := (processUrl normalizeUrl shouldStopFn).
Local Abbreviation shouldAbort := (shouldAbort shouldStopFn).
Local Abbreviation step := (step normalizeUrl extractTextAndLinks shouldStopFn).
Local Abbreviation run := (run normalizeUrl extractTextAndLinks shouldStopFn).
Local Abbreviation inspectQuestion := (inspectQuestion normalizeUrl shouldStopFn).
Local Abbreviation fan_out := (fan_out normalizeUrl shouldStopFn).
Local Abbreviation claims_ok := (claims_ok normalizeUrl).

Ltac abort_cases s stop s1 :=
  let E := fresh "E" in
  pose proof (shouldAbort_frame shouldStopFn s) as E;
  destruct (shouldAbort s) as [stop s1]; simpl in E;
  destruct E as (? & ? & ? & ? & ? & ?).

(** *** The stop flag *)


(** *** What a call of [processUrl] leaves *)



(** *** The calls of a fan-out *)



(** *** Calls that are past the delay have been fetched *)












(** *** The step that fans out *)




End InspectorExpansion.

Section InspectorExpansionRuns.
Import Inspector Examples.

Local Abbreviation norm := Url.normalizeUrl_or_self.


End InspectorExpansionRuns.

Section InspectorProgressRuns.
Import Inspector Examples.

Local Abbreviation norm := Url.normalizeUrl_or_self.

Lemma finished_session_holds_no_slot_witness :
  exists s,
    run norm extract never_stop leaf_inspected
      (inspectQuestion norm never_stop [leaf]) = Some s /\
    finished s = true /\
    Semaphore.current (semaphore s) = 0 /\
    Semaphore.queue (semaphore s) = [] /\
    held s = ∅.
Proof.
  eexists. split; [vm_compute; reflexivity|]. split; [reflexivity|].
  apply (finished_session_holds_no_slot norm extract never_stop [leaf]
           leaf_inspected).
  - vm_compute; reflexivity.
  - reflexivity.
Defined.

Lemma stopped_session_winds_down_witness :
  exists s s',
    run norm extract (stop_after 4) seed_inspected
      (inspectQuestion norm (stop_after 4) [seed]) = Some s /\
    pc_of s 0 = Some (AwaitChildren (seq 1 25)) /\
    run norm extract (stop_after 4) [Joined 0] s = Some s' /\
    aborted s' = true /\
    stopCalls s' = stopCalls s /\
    visitedUrls s' = visitedUrls s /\
    log s' = log s /\
    pageCount s' = pageCount s /\
    length (tasks s') = length (tasks s) /\
    Forall (fun a => pc_of s' (actor a) = Some Returned) [Joined 0].
Proof.
  eexists. eexists. split; [vm_compute; reflexivity|].
  split; [reflexivity|]. split; [vm_compute; reflexivity|].
  apply (stopped_session_winds_down norm extract (stop_after 4) [Joined 0]).
  - reflexivity.
  - vm_compute; reflexivity.
Defined.

Lemma session_size_bounded_witness :
  exists s,
    run norm extract never_stop seed_inspected
      (inspectQuestion norm never_stop [seed]) = Some s /\
    length (tasks s) = 26%nat /\
    (length (tasks s) <= 26 * length [seed])%nat /\
    (length (fetched_urls (log s)) <= length (tasks s))%nat.
Proof.
  eexists. split; [vm_compute; reflexivity|]. split; [reflexivity|].
  apply (session_size_bounded norm extract never_stop [seed] seed_inspected).
  vm_compute; reflexivity.
Defined.

Lemma progress_counts_up_witness :
  exists s,
    run norm extract never_stop child_inspected
      (inspectQuestion norm never_stop [seed]) = Some s /\
    pageCount s = 2 /\
    reports (log s) = Z.of_nat <$> seq 1 (Z.to_nat (pageCount s)) /\
    0 <= pageCount s /\
    pageCount s + Z.of_nat (in_flight s)
      <= Z.of_nat (length (fetched_urls (log s))).
Proof.
  eexists. split; [vm_compute; reflexivity|]. split; [reflexivity|].
  apply (progress_counts_up norm extract never_stop [seed] child_inspected).
  vm_compute; reflexivity.
Defined.

Lemma three_parents_deadlock_witness :
  exists s,
    run norm hub never_stop three_parents
      (inspectQuestion norm never_stop three_seeds) = Some s /\
    length (tasks s) = 9%nat /\
    (forall a, step norm hub never_stop a s = None) /\
    finished s = false.
Proof.
  eexists. split; [vm_compute; reflexivity|]. split; [reflexivity|].
  refine (let H := three_parents_deadlock norm hub never_stop three_seeds
                     three_parents _ 0%nat 1%nat 2%nat _ _ _ _ _ in
          conj (proj1 H) (proj2 (proj2 H))).
  - vm_compute; reflexivity.
  - repeat constructor; set_solver.
  - eexists _, _. split_and!; vm_compute; reflexivity.
  - eexists _, _. split_and!; vm_compute; reflexivity.
  - eexists _, _. split_and!; vm_compute; reflexivity.
Defined.

Lemma two_seeds_never_stuck_witness :
  exists s,
    run norm extract never_stop seed_inspected
      (inspectQuestion norm never_stop [seed; "http://example.com/about"%string])
      = Some s /\
    finished s = false /\
    exists a s', step norm extract never_stop a s = Some s'.
Proof.
  eexists. split; [vm_compute; reflexivity|]. split; [reflexivity|].
  apply (two_seeds_never_stuck norm extract never_stop
           [seed; "http://example.com/about"%string] seed_inspected).
  - cbn; lia.
  - vm_compute; reflexivity.
  - reflexivity.
Defined.

Lemma schedule_is_bounded_witness :
  exists s,
    run norm extract never_stop child_inspected
      (inspectQuestion norm never_stop [seed]) = Some s /\
    length child_inspected = 6%nat /\
    (length child_inspected <= 4 * length (tasks s))%nat /\
    (length child_inspected <= 104 * length [seed])%nat.
Proof.
  eexists. split; [vm_compute; reflexivity|]. split; [reflexivity|].
  apply (schedule_is_bounded norm extract never_stop [seed] child_inspected).
  vm_compute; reflexivity.
Defined.

Lemma two_seeds_session_completes_witness :
  exists s,
    run norm extract never_stop seed_inspected
      (inspectQuestion norm never_stop [seed; "http://example.com/about"%string])
      = Some s /\
    finished s = false /\
    exists acts' s',
      run norm extract never_stop acts' s = Some s' /\ finished s' = true /\
      (length seed_inspected + length acts'
       <= 104 * length [seed; "http://example.com/about"%string])%nat.
Proof.
  eexists. split; [vm_compute; reflexivity|]. split; [reflexivity|].
  apply (two_seeds_session_completes norm extract never_stop
           [seed; "http://example.com/about"%string] seed_inspected).
  - cbn; lia.
  - vm_compute; reflexivity.
Defined.

End InspectorProgressRuns.


(** ** The run store *)

Section StorageFacts.
Import Storage.

Variable faulty : nat -> bool.

Lemma tmp_path_differs (p : string) : p <> (p +:+ ".tmp")%string.
Proof.
  intros H. apply (f_equal String.length) in H.
  assert (Hlen : forall a b : string,
            String.length (a +:+ b) = (String.length a + String.length b)%nat).
  { intros a b. induction a as [|x a IH]; [reflexivity|].
    change (String x a +:+ b)%string with (String x (a +:+ b)).
    simpl. rewrite IH. reflexivity. }
  rewrite Hlen in H. simpl in H. lia.
Qed.

(** [atomicWrite] never reports success and never touches its target:
    the call of [fs.fsync] throws before the rename. *)
Lemma atomicWrite_fails filePath data w :
  (atomicWrite faulty filePath data w).1 = Done false /\
  files (atomicWrite faulty filePath data w).2 !! filePath = files w !! filePath /\
  currentRunPath (atomicWrite faulty filePath data w).2 = currentRunPath w /\
  metaData (atomicWrite faulty filePath data w).2 = metaData w /\
  shutdownRequested (atomicWrite faulty filePath data w).2 = shutdownRequested w.
Proof.
  pose proof (tmp_path_differs filePath) as Hne.
  unfold atomicWrite, bind, get, try_catch, mkdir, writeFile, open, unlink,
    fs_fsync, throw, fs_call, modify, ret.
  destruct (shutdownRequested w) eqn:Hsd; cbn; [rewrite Hsd; auto|].
  destruct (faulty (fs_calls w)); cbn.
  { destruct (faulty (S (fs_calls w))); cbn; [auto|].
    destruct (files w !! (filePath +:+ ".tmp")%string); cbn; auto.
    rewrite lookup_delete_ne by congruence. auto. }
  destruct (faulty (S (fs_calls w))); cbn.
  { destruct (faulty (S (S (fs_calls w)))); cbn; [auto|].
    destruct (files w !! (filePath +:+ ".tmp")%string); cbn; auto.
    rewrite lookup_delete_ne by congruence. auto. }
  destruct (faulty (S (S (fs_calls w)))); cbn.
  { destruct (faulty (S (S (S (fs_calls w))))); cbn.
    - rewrite lookup_insert_ne by congruence. auto.
    - rewrite lookup_insert_eq. cbn.
      rewrite lookup_delete_ne, lookup_insert_ne by congruence. auto. }
  rewrite lookup_insert_eq. cbn.
  destruct (faulty (S (S (S (fs_calls w))))); cbn.
  - rewrite lookup_insert_ne by congruence. auto.
  - rewrite lookup_insert_eq. cbn.
    rewrite lookup_delete_ne, lookup_insert_ne by congruence. auto.
Qed.


(** Once [shutdownRequested] is set, [atomicWrite] gives up before its
    first step. *)
Lemma atomicWrite_after_shutdown filePath data w :
  shutdownRequested w = true ->
  atomicWrite faulty filePath data w = (Done false, w).
Proof.
  intros H. unfold atomicWrite, bind, get. cbn. rewrite H. reflexivity.
Qed.

Ltac split_match :=
  match goal with
  | |- context [match ?x with _ => _ end] =>
      lazymatch x with
      | context [match _ with _ => _ end] => fail
      | _ => destruct x eqn:?
      end
  end.

(** [flush] sets [shutdownRequested] before anything else, so its own
    [atomicWrite] of the metadata is refused: no file changes. *)
Lemma flush_writes_nothing w :
  files (flush faulty w).2 = files w.
Proof.
  unfold flush, bind, get, try_finally, try_catch, modify, ret, hang,
    readFile, fs_call, JSON_parse, throw, with_flags, with_meta, with_run.
  cbn.
  destruct (isFlushing w); cbn; [reflexivity|].
  destruct (writeQueue w); cbn; [|reflexivity].
  destruct (currentRunPath w) as [run|]; cbn; [|reflexivity].
  destruct (metaData w) as [m|]; cbn; [|reflexivity].
  destruct (faulty (fs_calls w)); cbn.
  - destruct (m_status m); cbn; reflexivity.
  - destruct (files w !! finalPath run) as [[|v [|v' c]]|]; cbn;
      try (destruct (m_status m); cbn; reflexivity).
    destruct v; cbn; try reflexivity;
      destruct (m_status m); cbn; reflexivity.
Qed.


(** C2: no call of the write primitive succeeds.  Whatever the path, the
    content, the state and the faults of the file system, [atomicWrite]
    reports failure and the target is what it was: with the file system in
    order the steps up to the sync are taken, then the call of the missing
    [fs.fsync] throws, the temporary file is removed, and the rename is
    never reached. *)
Theorem atomicWrite_never_succeeds filePath data w :
  (atomicWrite faulty filePath data w).1 = Done false /\
  files (atomicWrite faulty filePath data w).2 !! filePath = files w !! filePath.
Proof.
  destruct (atomicWrite_fails filePath data w) as (H1 & H2 & _). auto.
Qed.

End StorageFacts.

Section StorageRuns.
Import Storage Examples.

(** C2 at a sample call: a healthy file system, an initialised run, a new
    [meta.json]. *)
Lemma atomicWrite_sample :
  let w := (initialize no_faults now ctx fresh).2 in
  let r := atomicWrite no_faults (metaPath run_dir) (VObject "{}") w in
  currentRunPath w = Some run_dir /\
  r.1 = Done false /\
  files r.2 !! metaPath run_dir = None /\
  files r.2 !! (metaPath run_dir +:+ ".tmp")%string = None.
Proof. vm_compute. repeat split; reflexivity. Qed.

(** C3: after two saved pages and no synthesis, [flush] leaves the run
    without a [meta.json] on disk, while the metadata in memory says
    [interrupted] with two pages; and in no state, under no faults, does
    [flush] change a file. *)
Theorem flush_leaves_meta_unwritten :
  (let r := perform_all no_faults
              [Initialize now ctx; SavePageResult page1; SavePageResult page2;
               Flush] fresh in
   r.1 = Done tt /\
   pages_on_disk r.2 = Some [page1; page2] /\
   meta_on_disk r.2 = None /\
   (m_status <$> metaData r.2) = Some interrupted /\
   (pageCount <$> metaData r.2) = Some 2) /\
  (forall (faulty : nat -> bool) (w : world),
     files (flush faulty w).2 = files w).
Proof.
  split; [vm_compute; repeat split; reflexivity|].
  intros faulty w. apply flush_writes_nothing.
Qed.

(** C4: after a synthesis is saved, the status in memory is [completed],
    the caller was told the save succeeded, and there is no [final.json]
    (nor a [meta.json]) on disk. *)
Theorem completed_without_final :
  let r := perform_all no_faults
             [Initialize now ctx; SaveSynthesis synthesis] fresh in
  r.1 = Done tt /\
  (m_status <$> metaData r.2) = Some completed /\
  settled r.2 = [(0%nat, true)] /\
  final_on_disk r.2 = None /\
  meta_on_disk r.2 = None.
Proof. vm_compute. repeat split; reflexivity. Qed.

End StorageRuns.

(** ** The run store: calls one after the other *)

Section StorageLogic.
Import Storage.
Local Open Scope io_scope.

Variable faulty : nat -> bool.

(** *** Rules *)

Lemma triple_ret {A} (a : A) (P : world -> Prop) Q E :
  (forall w, P w -> Q a w) -> triple P (ret a) Q E.
Proof. intros H w Hw. cbn. auto. Qed.

Lemma triple_throw {A} (P : world -> Prop) (Q : A -> world -> Prop) E :
  (forall w, P w -> E w) -> triple P throw Q E.
Proof. intros H w Hw. cbn. auto. Qed.

Lemma triple_get {A} (f : world -> A) (P : world -> Prop) Q E :
  (forall w, P w -> Q (f w) w) -> triple P (get f) Q E.
Proof. intros H w Hw. cbn. auto. Qed.

Lemma triple_modify (f : world -> world) (P : world -> Prop) Q E :
  (forall w, P w -> Q tt (f w)) -> triple P (modify f) Q E.
Proof. intros H w Hw. cbn. auto. Qed.

Lemma triple_bind {A B} (m : io A) (k : A -> io B) P R Q E :
  triple P m R E -> (forall a, triple (R a) (k a) Q E) ->
  triple P (bind m k) Q E.
Proof.
  intros Hm Hk w Hw. unfold bind. specialize (Hm w Hw).
  destruct (m w) as [[a| |] w']; [|assumption|contradiction].
  apply (Hk a w' Hm).
Qed.

Lemma triple_try_catch {A} (body handler : io A) P Q E1 E :
  triple P body Q E1 -> triple E1 handler Q E ->
  triple P (try_catch body handler) Q E.
Proof.
  intros Hb Hh w Hw. unfold try_catch. specialize (Hb w Hw).
  destruct (body w) as [[a| |] w']; [assumption| |contradiction].
  apply (Hh w' Hb).
Qed.

Lemma triple_weaken {A} (m : io A) (P P' : world -> Prop)
    (Q Q' : A -> world -> Prop) (E E' : world -> Prop) :
  triple P' m Q' E' ->
  (forall w, P w -> P' w) -> (forall a w, Q' a w -> Q a w) ->
  (forall w, E' w -> E w) ->
  triple P m Q E.
Proof.
  intros H HP HQ HE w Hw. specialize (H w (HP w Hw)).
  destruct (m w) as [[a| |] w']; auto.
Qed.

Lemma triple_fs_call {A} (act : io A) (P : world -> Prop) Q E :
  (forall w, P w -> E (bump w)) ->
  triple (fun w' => exists w, P w /\ w' = bump w) act Q E ->
  triple P (fs_call faulty act) Q E.
Proof.
  intros Hf Hact w Hw. unfold fs_call. fold (bump w).
  destruct (faulty (fs_calls w)); [apply Hf, Hw|].
  apply Hact. eauto.
Qed.


Lemma triple_mkdir p (P : world -> Prop) Q E :
  (forall w, P w -> E (bump w)) ->
  (forall w, P w -> Q tt (with_dirs ({[p]} ∪ dirs w) (bump w))) ->
  triple P (mkdir faulty p) Q E.
Proof.
  intros He Hq. apply triple_fs_call; [exact He|].
  apply triple_modify. intros w' (w & Hw & ->). exact (Hq w Hw).
Qed.

Lemma triple_writeFile p c (P : world -> Prop) Q E :
  (forall w, P w -> E (bump w)) ->
  (forall w, P w -> Q tt (with_files (<[p := c]> (files w)) (bump w))) ->
  triple P (writeFile faulty p c) Q E.
Proof.
  intros He Hq. apply triple_fs_call; [exact He|].
  apply triple_modify. intros w' (w & Hw & ->). exact (Hq w Hw).
Qed.

Lemma triple_access p (P : world -> Prop) Q E :
  (forall w, P w -> E (bump w)) ->
  (forall w, P w -> is_Some (files w !! p) \/ p ∈ dirs w -> Q tt (bump w)) ->
  triple P (access faulty p) Q E.
Proof.
  intros He Hq. apply triple_fs_call; [exact He|].
  intros w' (w & Hw & ->). cbn.
  destruct (bool_decide_reflect (is_Some (files w !! p))) as [H1|H1]; cbn.
  - apply Hq; auto.
  - destruct (bool_decide_reflect (p ∈ dirs w)) as [H2|H2]; cbn.
    + apply Hq; auto.
    + apply He, Hw.
Qed.

Lemma triple_readFile p (P : world -> Prop) Q E :
  (forall w, P w -> E (bump w)) ->
  (forall w c, P w -> files w !! p = Some c -> Q c (bump w)) ->
  triple P (readFile faulty p) Q E.
Proof.
  intros He Hq. apply triple_fs_call; [exact He|].
  intros w' (w & Hw & ->). cbn.
  destruct (files w !! p) as [c|] eqn:Hc; [apply Hq | apply He]; auto.
Qed.


Lemma string_app_inv_head (a b c : string) :
  (a +:+ b)%string = (a +:+ c)%string -> b = c.
Proof.
  induction a as [|x a IH]; [auto|].
  change (String x a +:+ b)%string with (String x (a +:+ b)).
  change (String x a +:+ c)%string with (String x (a +:+ c)).
  intros [= H]. auto.
Qed.

(** What [atomicWrite] may touch: the temporary file, the set of
    directories and the count of file system calls. *)
Lemma atomicWrite_frame filePath data w :
  let r := atomicWrite faulty filePath data w in
  r.1 = Done false /\
  (forall p, p <> (filePath +:+ ".tmp")%string ->
     files r.2 !! p = files w !! p) /\
  currentRunPath r.2 = currentRunPath w /\
  metaData r.2 = metaData w /\
  isFlushing r.2 = isFlushing w /\
  shutdownRequested r.2 = shutdownRequested w /\
  writeQueue r.2 = writeQueue w /\
  processingQueue r.2 = processingQueue w /\
  tickets r.2 = tickets w /\
  settled r.2 = settled w /\
  dirs w ⊆ dirs r.2.
Proof.
  assert (Hd : forall d : string, dirs w ⊆ {[d]} ∪ dirs w) by set_solver.
  unfold atomicWrite, bind, get, try_catch, mkdir, writeFile, open, unlink,
    fs_fsync, throw, fs_call, modify, ret.
  destruct (shutdownRequested w) eqn:Hsd; cbn; [rewrite Hsd; auto 15|].
  assert (Hins : forall (p : string) c (f : gmap string content),
            p <> (filePath +:+ ".tmp")%string ->
            <[(filePath +:+ ".tmp")%string := c]> f !! p = f !! p).
  { intros p c f Hp. apply lookup_insert_ne. congruence. }
  assert (Hdel : forall (p : string) (f : gmap string content),
            p <> (filePath +:+ ".tmp")%string ->
            delete (filePath +:+ ".tmp")%string f !! p = f !! p).
  { intros p f Hp. apply lookup_delete_ne. congruence. }
  destruct (faulty (fs_calls w)); cbn.
  { destruct (faulty (S (fs_calls w))); cbn; [auto 15|].
    destruct (files w !! (filePath +:+ ".tmp")%string); cbn; auto 15. }
  destruct (faulty (S (fs_calls w))); cbn.
  { destruct (faulty (S (S (fs_calls w)))); cbn; [auto 15|].
    destruct (files w !! (filePath +:+ ".tmp")%string); cbn; auto 15. }
  destruct (faulty (S (S (fs_calls w)))); cbn.
  { destruct (faulty (S (S (S (fs_calls w))))); cbn.
    - split_and!; auto.
    - rewrite lookup_insert_eq. cbn. split_and!; auto.
      intros p Hp. rewrite Hdel, Hins by exact Hp. reflexivity. }
  rewrite lookup_insert_eq. cbn.
  destruct (faulty (S (S (S (fs_calls w))))); cbn.
  - split_and!; auto.
  - rewrite lookup_insert_eq. cbn. split_and!; auto.
    intros p Hp. rewrite Hdel, Hins by exact Hp. reflexivity.
Qed.


Lemma atomicWrite_run filePath data w :
  exists w',
    atomicWrite faulty filePath data w = (Done false, w') /\
    (forall p, p <> (filePath +:+ ".tmp")%string ->
       files w' !! p = files w !! p) /\
    currentRunPath w' = currentRunPath w /\
    metaData w' = metaData w /\
    isFlushing w' = isFlushing w /\
    shutdownRequested w' = shutdownRequested w /\
    writeQueue w' = writeQueue w /\
    processingQueue w' = processingQueue w /\
    tickets w' = tickets w /\
    settled w' = settled w /\
    dirs w ⊆ dirs w'.
Proof.
  pose proof (atomicWrite_frame filePath data w) as H. cbv zeta in H.
  destruct (atomicWrite faulty filePath data w) as [o w'].
  cbn [fst snd] in H. destruct H as (-> & H).
  exists w'. split; [reflexivity | exact H].
Qed.

(** The files of a run and the temporary files of [atomicWrite]. *)
Lemma join_inj dir a b : join dir a = join dir b -> a = b.
Proof.
  unfold join. intros H.
  apply string_app_inv_head in H. apply string_app_inv_head in H. exact H.
Qed.

Lemma join_tmp dir a : (join dir a +:+ ".tmp")%string = join dir (a +:+ ".tmp").
Proof. unfold join. rewrite !string_app_assoc. reflexivity. Qed.

Lemma pages_not_tmp run :
  pagesPath run <> (metaPath run +:+ ".tmp")%string /\
  pagesPath run <> (finalPath run +:+ ".tmp")%string /\
  pagesPath run <> (questionsPath run +:+ ".tmp")%string.
Proof.
  unfold pagesPath, metaPath, finalPath, questionsPath.
  rewrite !join_tmp. split_and!; intros H; apply join_inj in H; discriminate.
Qed.


Ltac atomicWrite_step :=
  match goal with
  | |- context [atomicWrite faulty ?p ?d ?w0] =>
      let w2 := fresh "w" in
      let E := fresh "E" in
      let Hf := fresh "Hf" in
      destruct (atomicWrite_run p d w0)
        as (w2 & E & Hf & ? & ? & ? & ? & ? & ? & ? & ? & ?);
      rewrite E; clear E;
      cbn -[atomicWrite pagesPath metaPath finalPath questionsPath] in *
  end.

(** One page task: the line is appended and the count goes up by one, or
    the append fails and nothing changes; the promise is settled either
    way. *)
Lemma process_page t w run :
  type t = page -> currentRunPath w = Some run ->
  exists w',
    process faulty t w = (Done tt, w') /\
    settled w' = settled w ++ [(ticket t, negb (faulty (fs_calls w)))] /\
    tickets w' = tickets w /\ writeQueue w' = writeQueue w /\
    processingQueue w' = processingQueue w /\
    isFlushing w' = isFlushing w /\
    shutdownRequested w' = shutdownRequested w /\
    currentRunPath w' = currentRunPath w /\
    (if faulty (fs_calls w)
     then files w' !! pagesPath run = files w !! pagesPath run /\
          metaData w' = metaData w
     else files w' !! pagesPath run =
            Some (default [] (files w !! pagesPath run) ++ [data t]) /\
          metaData w' =
            (fun m => set_pageCount (pageCount m + 1) m) <$> metaData w).
Proof.
  intros Hty Hrun.
  destruct (pages_not_tmp run) as (Hn1 & Hn2 & Hn3).
  unfold process, bind, get, try_catch, appendFile, fs_call, modify, resolve, ret.
  rewrite Hty, Hrun. cbn -[atomicWrite].
  destruct (faulty (fs_calls w)); cbn -[atomicWrite].
  { eexists; split; [reflexivity|]. cbn -[atomicWrite]. split_and!; auto. }
  destruct (metaData w) as [m|] eqn:Hm; cbn -[atomicWrite].
  - atomicWrite_step. eexists; split; [reflexivity|]. cbn -[atomicWrite].
    split_and!; try congruence.
    + rewrite Hf by exact Hn1. cbn -[atomicWrite]. apply lookup_insert_eq.
  - eexists; split; [reflexivity|]. cbn -[atomicWrite]. split_and!; auto.
    apply lookup_insert_eq.
Qed.

(** One synthesis task: the status becomes [completed] and the promise is
    fulfilled with [true], whatever became of the file. *)
Lemma process_final t w run :
  type t = final -> currentRunPath w = Some run ->
  exists w',
    process faulty t w = (Done tt, w') /\
    settled w' = settled w ++ [(ticket t, true)] /\
    tickets w' = tickets w /\ writeQueue w' = writeQueue w /\
    processingQueue w' = processingQueue w /\
    isFlushing w' = isFlushing w /\
    shutdownRequested w' = shutdownRequested w /\
    currentRunPath w' = currentRunPath w /\
    files w' !! pagesPath run = files w !! pagesPath run /\
    metaData w' = set_status completed <$> metaData w.
Proof.
  intros Hty Hrun.
  destruct (pages_not_tmp run) as (Hn1 & Hn2 & Hn3).
  unfold process, bind, get, try_catch, modify, resolve, ret.
  rewrite Hty, Hrun. cbn -[atomicWrite].
  atomicWrite_step.
  destruct (metaData w) as [m|] eqn:Hm.
  - replace (metaData w0) with (Some m) by congruence. cbn -[atomicWrite].
    atomicWrite_step. eexists; split; [reflexivity|]. cbn -[atomicWrite].
    split_and!; try congruence.
    rewrite Hf0 by exact Hn1. cbn -[atomicWrite]. rewrite Hf by exact Hn2. reflexivity.
  - replace (metaData w0) with (@None RunMeta) by congruence. cbn -[atomicWrite].
    eexists; split; [reflexivity|]. cbn -[atomicWrite].
    split_and!; try congruence. rewrite Hf by exact Hn2. reflexivity.
Qed.


Lemma find_ticket (n : nat) (b : bool) (l : list (nat * bool)) :
  Forall (fun e => (fst e < n)%nat) l ->
  list_find (fun e => fst e = n) (l ++ [(n, b)]) = Some (length l, (n, b)).
Proof.
  induction l as [|e l IH]; intros Hall; cbn.
  - rewrite decide_True by reflexivity. reflexivity.
  - apply Forall_cons in Hall as (He & Hall).
    rewrite decide_False by lia. rewrite (IH Hall). reflexivity.
Qed.

(** A save on a store that takes it (a run is initialised, the argument
    is an object, no shutdown): the task is queued, processed at once and
    its promise awaited, and the store is idle again. *)
Lemma enqueue_runs k v w run :
  idle w -> currentRunPath w = Some run -> shutdownRequested w = false ->
  not_an_object v = false ->
  exists b w',
    enqueue faulty k v w = (Done b, w') /\ idle w' /\
    currentRunPath w' = Some run /\ shutdownRequested w' = false /\
    match k with
    | page =>
        b = negb (faulty (fs_calls w)) /\
        (if faulty (fs_calls w)
         then files w' !! pagesPath run = files w !! pagesPath run /\
              metaData w' = metaData w
         else files w' !! pagesPath run =
                Some (default [] (files w !! pagesPath run) ++ [v]) /\
              metaData w' =
                (fun m => set_pageCount (pageCount m + 1) m) <$> metaData w)
    | final =>
        b = true /\
        files w' !! pagesPath run = files w !! pagesPath run /\
        metaData w' = set_status completed <$> metaData w
    end.
Proof.
  intros (Hq & Hproc & Hfl & Hset) Hrun Hsd Hobj.
  assert (Hidle : forall (b : bool) w2,
            settled w2 = settled w ++ [(tickets w, b)] ->
            tickets w2 = S (tickets w) -> isFlushing w2 = false ->
            idle (with_queue [] false w2)).
  { intros b w2 Hs2 Ht2 Hf2. unfold idle. cbn. split_and!; auto.
    rewrite Hs2, Ht2. apply Forall_app. split.
    - eapply Forall_impl; [exact Hset|]. cbn. intros; lia.
    - repeat constructor. }
  unfold enqueue, bind, get, modify, processQueue, ret.
  rewrite Hrun, Hobj, Hsd. cbn -[process].
  rewrite Hproc, Hq, Hsd. cbn -[process].
  unfold bind, get, modify, ret. cbn -[process]. rewrite Hsd.
  match goal with
  | |- context [process faulty ?t ?w0] => set (w1 := w0)
  end.
  assert (Hrun1 : currentRunPath w1 = Some run) by exact Hrun.
  destruct k.
  - destruct (process_page (Task page v (tickets w)) w1 run eq_refl Hrun1)
      as (w2 & E & Hs2 & Ht2 & Hq2 & Hp2 & Hf2 & Hsd2 & Hr2 & Hfiles).
    rewrite E. unfold await, bind, get. subst w1.
    cbn -[pagesPath] in Hs2, Ht2, Hq2, Hp2, Hf2, Hsd2, Hr2, Hfiles. cbn.
    rewrite Hq2, Hs2. cbn.
    rewrite (find_ticket (tickets w) _ (settled w) Hset). cbn.
    eexists _, _. split; [reflexivity|]. cbn.
    split_and!; try congruence;
      try (eapply Hidle; eauto; congruence); exact Hfiles.
  - destruct (process_final (Task final v (tickets w)) w1 run eq_refl Hrun1)
      as (w2 & E & Hs2 & Ht2 & Hq2 & Hp2 & Hf2 & Hsd2 & Hr2 & Hfiles & Hmeta).
    rewrite E. unfold await, bind, get. subst w1.
    cbn -[pagesPath] in Hs2, Ht2, Hq2, Hp2, Hf2, Hsd2, Hr2, Hfiles, Hmeta. cbn.
    rewrite Hq2, Hs2. cbn.
    rewrite (find_ticket (tickets w) _ (settled w) Hset). cbn.
    eexists _, _. split; [reflexivity|]. cbn.
    split_and!; try congruence; eapply Hidle; eauto; congruence.
Qed.

(** A save that is refused changes nothing. *)
Lemma enqueue_refused k v w :
  currentRunPath w = None \/ not_an_object v = true \/
  shutdownRequested w = true ->
  enqueue faulty k v w = (Done false, w).
Proof.
  unfold enqueue, bind, get, ret. cbn.
  destruct (currentRunPath w); [|reflexivity].
  destruct (not_an_object v); [reflexivity|].
  destruct (shutdownRequested w); [reflexivity|].
  intros [H | [H | H]]; discriminate.
Qed.


Lemma triple_atomicWrite filePath data (P : world -> Prop) Q E :
  (forall w w', P w -> same_memory w w' -> dirs w ⊆ dirs w' ->
     (forall p, p <> (filePath +:+ ".tmp")%string ->
        files w' !! p = files w !! p) ->
     Q false w') ->
  triple P (atomicWrite faulty filePath data) Q E.
Proof.
  intros H w Hw.
  destruct (atomicWrite_run filePath data w)
    as (w' & -> & Hf & ? & ? & ? & ? & ? & ? & ? & ? & ?).
  apply (H w w' Hw); [|assumption|exact Hf].
  unfold same_memory, same_queue. auto 10.
Qed.

(** *** [initialize] *)

Lemma same_queue_refl w : same_queue w w.
Proof. unfold same_queue. auto 10. Qed.

Lemma same_queue_trans w1 w2 w3 :
  same_queue w1 w2 -> same_queue w2 w3 -> same_queue w1 w3.
Proof.
  unfold same_queue.
  intros (? & ? & ? & ? & ? & ?) (? & ? & ? & ? & ? & ?).
  split_and!; congruence.
Qed.

Lemma same_queue_memory w1 w2 w3 :
  same_queue w1 w2 -> same_memory w2 w3 -> same_queue w1 w3.
Proof. intros H (H' & _). eapply same_queue_trans; eassumption. Qed.

Lemma initialised_memory w0 run tp w w' :
  initialised w0 run tp w -> same_memory w w' -> initialised w0 run tp w'.
Proof.
  intros (Hq & Hr & m & Hm & Hst) (Hq' & Hr' & Hm').
  split_and!; [eapply same_queue_trans; eassumption | congruence |].
  exists m. rewrite Hm'. auto.
Qed.

Lemma same_memory_bump w : same_memory w (bump w).
Proof. unfold same_memory, same_queue. cbn. auto 10. Qed.

Lemma same_memory_dirs d w : same_memory w (with_dirs d (bump w)).
Proof. unfold same_memory, same_queue. cbn. auto 10. Qed.

Lemma same_memory_files f w : same_memory w (with_files f (bump w)).
Proof. unfold same_memory, same_queue. cbn. auto 10. Qed.

Lemma same_memory_queue w w' : same_memory w w' -> same_queue w w'.
Proof. intros (H & _). exact H. Qed.

Lemma has_pages_frame run w w' (tmp : string) :
  pagesPath run <> tmp ->
  dirs w ⊆ dirs w' ->
  (forall p, p <> tmp -> files w' !! p = files w !! p) ->
  has_pages run w -> has_pages run w'.
Proof.
  intros Hne Hd Hf [H|H]; [left | right].
  - rewrite Hf by exact Hne. exact H.
  - apply Hd, H.
Qed.

Lemma initialize_spec now ctx w0 :
  currentRunPath w0 = None ->
  let tp := string_or (ctx_topic ctx) "unnamed_research" in
  let run := join BASE_DIR (getRunDirectoryName now tp) in
  triple (fun w => w = w0) (initialize faulty now ctx)
    (fun _ w =>
       (same_queue w0 w /\ currentRunPath w = None /\ metaData w = None) \/
       (initialised w0 run tp w /\ has_pages run w))
    (fun _ => False).
Proof.
  intros Hnone tp run.
  destruct (pages_not_tmp run) as (Hn1 & Hn2 & Hn3).
  set (I0 := fun w => same_queue w0 w).
  set (I2 := initialised w0 run tp).
  set (I3 := fun w => I2 w /\ has_pages run w).
  assert (B0 : forall w, I0 w -> I0 (bump w)).
  { intros w H. eapply same_queue_memory; [exact H | apply same_memory_bump]. }
  assert (B2 : forall w, I2 w -> I2 (bump w)).
  { intros w H. eapply initialised_memory; [exact H | apply same_memory_bump]. }
  assert (B20 : forall w, I2 w -> I0 w) by (intros w (H & _); exact H).
  assert (B3 : forall w, I3 w -> I3 (bump w)).
  { intros w (H & Hp). split; [apply B2, H | exact Hp]. }
  assert (A2 : forall p d E, p = metaPath run \/ p = finalPath run \/
                           p = questionsPath run ->
            triple I2 (atomicWrite faulty p d) (fun _ => I2) E).
  { intros p d E _. apply triple_atomicWrite. intros w w' H Hm _ _.
    eapply initialised_memory; eassumption. }
  assert (A3 : forall p d E, p = metaPath run \/ p = finalPath run \/
                           p = questionsPath run ->
            triple I3 (atomicWrite faulty p d) (fun _ => I3) E).
  { intros p d E Hp. apply triple_atomicWrite. intros w w' (H & Hpg) Hm Hd Hf.
    split; [eapply initialised_memory; eassumption|].
    eapply has_pages_frame; [|exact Hd|exact Hf|exact Hpg].
    destruct Hp as [-> | [-> | ->]]; assumption. }
  unfold initialize.
  eapply triple_bind with (R := fun r w => w = w0 /\ r = None).
  { apply triple_get. intros w ->. auto. }
  intros [r|]; [intros w (_ & [=])|].
  eapply triple_weaken with (P' := I0) (E' := fun _ => False);
                                        [| intros w (-> & _); apply same_queue_refl
                                         | intros a w H; exact H | auto].
  eapply triple_try_catch with (E1 := I0).
  - (* the body *)
    eapply triple_weaken with (P' := I0) (Q' := fun _ => I3) (E' := I0);
      [| intros w H; exact H | intros _ w H; right; exact H
       | intros w H; exact H].
    eapply triple_bind with (R := fun _ => I0).
    { apply triple_mkdir; intros w H.
      - apply B0, H.
      - eapply same_queue_memory; [exact H | apply same_memory_dirs]. }
    intros _.
    eapply triple_bind with (R := fun _ => I0).
    { eapply triple_try_catch with (E1 := I0).
      - apply triple_access; intros w H; [|intros _]; apply B0, H.
      - apply triple_mkdir; intros w H.
        + apply B0, H.
        + eapply same_queue_memory; [exact H | apply same_memory_dirs]. }
    intros _.
    eapply triple_bind with (R := fun _ => I2).
    { apply triple_modify. intros w H. split_and!; [exact H | reflexivity |].
      eexists. split_and!; reflexivity. }
    intros _.
    eapply triple_bind with (R := fun _ => I2); [apply A2; auto|].
    intros _.
    eapply triple_bind with (R := fun _ => I2).
    { eapply triple_try_catch with (E1 := I2).
      - apply triple_access; intros w H; [|intros _]; apply B2, H.
      - eapply triple_bind with (R := fun _ => I2); [apply A2; auto|].
        intros _. apply triple_ret. auto. }
    intros _.
    eapply triple_bind with (R := fun _ => I3).
    { eapply triple_try_catch with (E1 := I2).
      - apply triple_access; intros w H; [apply B2, H|].
        intros Hp. split; [apply B2, H | exact Hp].
      - apply triple_writeFile; intros w H; [apply B20, B2, H|].
        split.
        + eapply initialised_memory; [exact H | apply same_memory_files].
        + left. cbn. rewrite lookup_insert_eq. eauto. }
    intros _.
    eapply triple_bind with (R := fun _ => I3).
    { eapply triple_try_catch with (E1 := I3).
      - apply triple_access; intros w H; [|intros _]; apply B3, H.
      - eapply triple_bind with (R := fun _ => I3); [apply A3; auto|].
        intros _. apply triple_ret. auto. }
    intros _.
    eapply triple_try_catch with (E1 := I3); [|apply triple_ret; auto].
    eapply triple_bind with (R := fun _ => I3).
    { apply triple_readFile; intros w; [|intros c]; intros H; try intros _;
        apply B3, H. }
    intros text.
    eapply triple_bind with (R := fun _ => I3).
    { unfold JSON_parse. destruct text as [|v [|v' text]];
        [apply triple_throw | apply triple_ret | apply triple_throw]; auto. }
    intros existingMeta.
    eapply triple_bind with (R := fun _ => I3).
    { unfold existing_pageCount. destruct existingMeta;
        (apply triple_throw || apply triple_ret); auto. }
    intros n.
    eapply triple_bind with (R := fun _ => I3).
    { apply triple_modify. intros w ((Hq & Hr & m & Hm & Hst & Htp) & Hp).
      split; [|exact Hp].
      split_and!; [exact Hq | exact Hr |].
      eexists. split_and!; reflexivity. }
    intros _.
    eapply triple_bind with (R := fun _ => I3).
    { apply A3; auto. }
    intros _. apply triple_ret. auto.
  - apply triple_modify. intros w H. left. split_and!; [exact H | reflexivity..].
Qed.


(** *** [flush] *)

Lemma triple_try_finally {A} (body : io A) (cleanup : io unit) P Q Q' E1 E :
  triple P body Q E1 ->
  (forall a, triple (Q a) cleanup (fun _ => Q' a) E) ->
  triple E1 cleanup (fun _ => E) E ->
  triple P (try_finally body cleanup) Q' E.
Proof.
  intros Hb Hc He w Hw. unfold try_finally. specialize (Hb w Hw).
  destruct (body w) as [[a| |] w']; [| |contradiction].
  - specialize (Hc a w' Hb). destruct (cleanup w') as [[[]| |] w'']; auto.
  - specialize (He w' Hb). destruct (cleanup w') as [[[]| |] w'']; auto.
Qed.

Lemma triple_atomicWrite_shutdown filePath data (P : world -> Prop) Q E :
  (forall w, P w -> shutdownRequested w = true /\ Q false w) ->
  triple P (atomicWrite faulty filePath data) Q E.
Proof.
  intros H w Hw. destruct (H w Hw) as (Hsd & Hq).
  rewrite (atomicWrite_after_shutdown faulty filePath data w Hsd). exact Hq.
Qed.

Lemma triple_false {A} (m : io A) Q E : triple (fun _ => False) m Q E.
Proof. intros w []. Qed.

Lemma flush_spec w0 :
  isFlushing w0 = false -> writeQueue w0 = [] ->
  triple (fun w => w = w0) (flush faulty)
    (fun _ w =>
       files w = files w0 /\ currentRunPath w = currentRunPath w0 /\
       (metaData w = metaData w0 \/
        metaData w = set_status interrupted <$> metaData w0) /\
       shutdownRequested w = true /\ isFlushing w = false /\
       writeQueue w = [] /\ processingQueue w = processingQueue w0 /\
       tickets w = tickets w0 /\ settled w = settled w0)
    (fun _ => False).
Proof.
  intros Hfl Hq. set (F := flushing w0).
  assert (BF : forall w, F w -> F (bump w)).
  { intros w H. exact H. }
  unfold flush.
  eapply triple_bind with (R := fun b w => w = w0 /\ b = false).
  { apply triple_get. intros w ->. auto. }
  intros [|]; [intros w (_ & [=])|].
  eapply triple_bind with (R := fun _ => F).
  { apply triple_modify. intros w (-> & _).
    unfold F, flushing. cbn. auto 15. }
  intros _.
  eapply triple_try_finally with (Q := fun _ => F) (E1 := fun _ => False).
  2:{ intros _. apply triple_modify.
      intros w (? & ? & ? & ? & ? & ? & ? & ? & ?). cbn. auto 15. }
  2:{ apply triple_false. }
  eapply triple_try_catch with (E1 := F); [|apply triple_ret; auto].
  eapply triple_bind with (R := fun q w => F w /\ q = []).
  { apply triple_get. intros w H. split; [exact H | apply H]. }
  intros q.
  eapply triple_bind with (R := fun _ => F).
  { destruct q; [apply triple_ret; intros w (H & _); exact H|].
    intros w (_ & [=]). }
  intros _.
  eapply triple_bind with (R := fun r w => F w /\ r = currentRunPath w).
  { apply triple_get. auto. }
  intros run.
  eapply triple_bind with (R := fun _ => F).
  { apply triple_get. intros w (H & _). exact H. }
  intros meta.
  destruct run as [run|]; [|apply triple_ret; auto].
  destruct meta as [m|]; [|apply triple_ret; auto].
  eapply triple_try_catch with (E1 := F); [|apply triple_ret; auto].
  eapply triple_bind with (R := fun _ => F).
  { eapply triple_try_catch with (E1 := F); [|apply triple_ret; auto].
    eapply triple_bind with (R := fun _ => F).
    { apply triple_readFile; intros w; [|intros c]; intros H; try intros _;
        apply BF, H. }
    intros c.
    eapply triple_bind with (R := fun _ => F).
    { unfold JSON_parse. destruct c as [|v [|v' c]];
        [apply triple_throw | apply triple_ret | apply triple_throw]; auto. }
    intros parsed. apply triple_ret. auto. }
  intros hasFinal.
  eapply triple_bind with (R := fun r w => F w /\ r = metaData w).
  { apply triple_get. auto. }
  intros [m'|]; [|apply triple_ret; intros w (H & _); exact H].
  destruct (negb hasFinal && _); [|apply triple_ret; intros w (H & _); exact H].
  eapply triple_bind with (R := fun _ => F).
  { apply triple_modify.
    intros w ((Hf & Hr & Hm & Hrest) & Hm').
    unfold F, flushing. cbn. split_and!; try apply Hrest; auto.
    destruct Hm as [Hm|Hm]; rewrite Hm in Hm'.
    - right. rewrite <- Hm'. reflexivity.
    - right. destruct (metaData w0) as [m0|]; [|discriminate].
      injection Hm' as ->. reflexivity. }
  intros _.
  eapply triple_bind with (R := fun _ => F); [|intros _; apply triple_ret; auto].
  apply triple_atomicWrite_shutdown. intros w H. split; [apply H | exact H].
Qed.


(** *** [saveQuestionTree] *)

Lemma saveQuestionTree_runs questionTree w :
  exists w',
    saveQuestionTree faulty questionTree w =
      (Done (bool_decide (is_Some (currentRunPath w)) && isArray questionTree),
       w') /\
    same_memory w w' /\
    (forall run, currentRunPath w = Some run ->
       files w' !! questionsPath run = files w !! questionsPath run /\
       files w' !! pagesPath run = files w !! pagesPath run).
Proof.
  unfold saveQuestionTree, bind, get, ret, try_catch.
  destruct (currentRunPath w) as [run|] eqn:Hrun; cbn -[atomicWrite];
    rewrite ?Hrun; cbn -[atomicWrite].
  2:{ exists w. split; [reflexivity|]. split; [|auto].
      unfold same_memory, same_queue. auto 10. }
  destruct (isArray questionTree); cbn -[atomicWrite].
  2:{ exists w. split; [reflexivity|]. split; [|auto].
      unfold same_memory, same_queue. auto 10. }
  destruct (atomicWrite_run (questionsPath run) questionTree w)
    as (w' & -> & Hf & ? & ? & ? & ? & ? & ? & ? & ? & ?).
  exists w'. split; [reflexivity|]. split.
  - unfold same_memory, same_queue. auto 10.
  - intros run' [= <-]. split; apply Hf.
    + apply tmp_path_differs.
    + apply pages_not_tmp.
Qed.

(** *** Calls made one after the other *)

Lemma idle_same_queue w w' : idle w -> same_queue w w' -> idle w'.
Proof.
  intros (? & ? & ? & ?) (? & ? & ? & ? & Ht & Hs).
  unfold idle. rewrite Ht, Hs. split_and!; congruence.
Qed.

(** One call on an idle store that has a run: it returns, the store is
    idle again, and the page log and the page count have moved together, by
    the page that was saved or not at all. *)
Lemma serve_initialised r w run :
  idle w -> currentRunPath w = Some run ->
  exists w' lines,
    serve faulty r w = (Done tt, w') /\ idle w' /\
    currentRunPath w' = Some run /\
    default [] (files w' !! pagesPath run) =
      default [] (files w !! pagesPath run) ++ lines /\
    (pageCount <$> metaData w') =
      (fun n => n + Z.of_nat (length lines)) <$> (pageCount <$> metaData w) /\
    lines `sublist_of` pages_of [r].
Proof.
  intros Hidle Hrun.
  assert (Hsame : forall w' : world,
            idle w' -> currentRunPath w' = Some run ->
            files w' !! pagesPath run = files w !! pagesPath run ->
            (pageCount <$> metaData w') = (pageCount <$> metaData w) ->
            idle w' /\ currentRunPath w' = Some run /\
            default [] (files w' !! pagesPath run) =
              default [] (files w !! pagesPath run) ++ [] /\
            (pageCount <$> metaData w') =
              (fun n => n + Z.of_nat (length (@nil value))) <$>
                (pageCount <$> metaData w) /\
            [] `sublist_of` pages_of [r]).
  { intros w' Hi Hr Hf Hp. split_and!; [exact Hi | exact Hr | | |].
    - rewrite app_nil_r. f_equal. exact Hf.
    - rewrite Hp. destruct (metaData w) as [m|]; cbn; [|reflexivity].
      f_equal. lia.
    - apply sublist_nil_l. }
  destruct r as [[now ctx | v | v |] | v]; cbn [serve perform].
  - (* initialize: the run is there *)
    exists w, []. split; [|apply Hsame; auto].
    unfold initialize, bind, get. cbn. rewrite Hrun. reflexivity.
  - (* savePageResult *)
    unfold savePageResult, bind.
    destruct (not_an_object v) eqn:Hobj;
      [|destruct (shutdownRequested w) eqn:Hsd].
    + rewrite enqueue_refused by auto. exists w, [].
      split; [reflexivity | apply Hsame; auto].
    + rewrite enqueue_refused by auto. exists w, [].
      split; [reflexivity | apply Hsame; auto].
    + destruct (enqueue_runs page v w run Hidle Hrun Hsd Hobj)
        as (b & w' & -> & Hi' & Hr' & _ & _ & Hcase).
      destruct (faulty (fs_calls w)); destruct Hcase as (Hf & Hm).
      * exists w', []. split; [reflexivity|]. apply Hsame; auto.
        rewrite Hm. reflexivity.
      * exists w', [v]. split; [reflexivity|]. split_and!; auto.
        -- rewrite Hf. reflexivity.
        -- rewrite Hm. destruct (metaData w) as [m|]; reflexivity.
  - (* saveSynthesis *)
    unfold saveSynthesis, bind.
    destruct (not_an_object v) eqn:Hobj;
      [|destruct (shutdownRequested w) eqn:Hsd].
    + rewrite enqueue_refused by auto. exists w, [].
      split; [reflexivity | apply Hsame; auto].
    + rewrite enqueue_refused by auto. exists w, [].
      split; [reflexivity | apply Hsame; auto].
    + destruct (enqueue_runs final v w run Hidle Hrun Hsd Hobj)
        as (b & w' & -> & Hi' & Hr' & _ & _ & Hf & Hm).
      exists w', []. split; [reflexivity|]. apply Hsame; auto.
      rewrite Hm. destruct (metaData w) as [m|]; reflexivity.
  - (* flush *)
    destruct Hidle as (Hq & Hp & Hfl & Hs).
    pose proof (flush_spec w Hfl Hq w eq_refl) as H.
    destruct (flush faulty w) as [[[]| |] w']; try contradiction.
    destruct H as (Hf & Hr & Hm & Hsd' & Hfl' & Hq' & Hp' & Ht' & Hs').
    exists w', []. split; [reflexivity|]. apply Hsame.
    + unfold idle. rewrite Ht', Hs'. split_and!; congruence.
    + congruence.
    + rewrite Hf. reflexivity.
    + destruct Hm as [-> | ->]; [reflexivity|].
      destruct (metaData w) as [m|]; reflexivity.
  - (* saveQuestionTree *)
    unfold bind.
    destruct (saveQuestionTree_runs v w) as (w' & -> & (Hq & Hr & Hm) & Hf).
    exists w', []. split; [reflexivity|]. apply Hsame.
    + eapply idle_same_queue; eassumption.
    + congruence.
    + apply (Hf run Hrun).
    + rewrite Hm. reflexivity.
Qed.

(** One call on an idle store returns and leaves the store idle, with or
    without a run. *)
Lemma serve_idle r w :
  idle w -> exists w', serve faulty r w = (Done tt, w') /\ idle w'.
Proof.
  intros Hidle.
  destruct (currentRunPath w) as [run|] eqn:Hrun.
  { destruct (serve_initialised r w run Hidle Hrun)
      as (w' & lines & E & Hi & _). eauto. }
  destruct r as [[now ctx | v | v |] | v]; cbn [serve perform].
  - pose proof (initialize_spec now ctx w Hrun w eq_refl) as H.
    destruct (initialize faulty now ctx w) as [[[]| |] w']; try contradiction.
    exists w'. split; [reflexivity|].
    eapply idle_same_queue; [exact Hidle|].
    destruct H as [(H & _) | ((H & _) & _)]; exact H.
  - unfold savePageResult, bind. rewrite enqueue_refused by auto. eauto.
  - unfold saveSynthesis, bind. rewrite enqueue_refused by auto. eauto.
  - destruct Hidle as (Hq & Hp & Hfl & Hs).
    pose proof (flush_spec w Hfl Hq w eq_refl) as H.
    destruct (flush faulty w) as [[[]| |] w']; try contradiction.
    destruct H as (Hf & Hr & Hm & Hsd' & Hfl' & Hq' & Hp' & Ht' & Hs').
    exists w'. split; [reflexivity|].
    unfold idle. rewrite Ht', Hs'. split_and!; congruence.
  - unfold bind.
    destruct (saveQuestionTree_runs v w) as (w' & -> & (Hq & _) & _).
    exists w'. split; [reflexivity|]. eapply idle_same_queue; eassumption.
Qed.

(** X14. Whatever the file system does, calls of the store
    ([initialize], [saveQuestionTree], [savePageResult], [saveSynthesis],
    [flush]) made one after the other on an idle store, each after the
    previous one has returned, all return: nothing is thrown at the caller,
    no promise is left pending, and the store is idle again. *)
Theorem store_calls_return (rs : list request) (w : world) :
  idle w ->
  exists w', serve_all faulty rs w = (Done tt, w') /\ idle w'.
Proof.
  revert w. induction rs as [|r rs IH]; intros w Hidle.
  - exists w. split; [reflexivity | exact Hidle].
  - destruct (serve_idle r w Hidle) as (w1 & E1 & Hi1).
    destruct (IH w1 Hi1) as (w' & E' & Hi').
    exists w'. split; [|exact Hi'].
    cbn [serve_all]. unfold bind. rewrite E1. exact E'.
Qed.

(** X15. The page log is append-only and the page count follows it.
    Over calls made one after the other on an idle store with a run, the run
    stays the same, [pages.jsonl] only grows, what is appended are page
    objects passed to [savePageResult], in the order of the calls (a page is
    missing when its append failed or the store was closed), and the page
    count in memory grows by the number of lines appended. *)
Theorem page_log_append_only (rs : list request) (w : world) (run : string) :
  idle w -> currentRunPath w = Some run ->
  exists w' lines,
    serve_all faulty rs w = (Done tt, w') /\
    currentRunPath w' = Some run /\
    default [] (files w' !! pagesPath run) =
      default [] (files w !! pagesPath run) ++ lines /\
    (pageCount <$> metaData w') =
      (fun n => n + Z.of_nat (length lines)) <$> (pageCount <$> metaData w) /\
    lines `sublist_of` pages_of rs.
Proof.
  revert w. induction rs as [|r rs IH]; intros w Hidle Hrun.
  - exists w, []. split_and!; auto.
    + rewrite app_nil_r. reflexivity.
    + destruct (metaData w) as [m|]; cbn; [|reflexivity]. f_equal. lia.
  - destruct (serve_initialised r w run Hidle Hrun)
      as (w1 & l1 & E1 & Hi1 & Hr1 & Hf1 & Hm1 & Hs1).
    destruct (IH w1 Hi1 Hr1) as (w' & l2 & E' & Hr' & Hf' & Hm' & Hs').
    exists w', (l1 ++ l2). split_and!.
    + cbn [serve_all]. unfold bind. rewrite E1. exact E'.
    + exact Hr'.
    + rewrite Hf', Hf1, app_assoc. reflexivity.
    + rewrite Hm', Hm1. destruct (metaData w) as [m|]; cbn; [|reflexivity].
      f_equal. rewrite length_app. lia.
    + change (r :: rs) with ([r] ++ rs). unfold pages_of. rewrite omap_app.
      apply sublist_app; assumption.
Qed.


(** X16. [initialize] never throws and never hangs.  On a store without
    a run it leaves the write queue alone, and either it fails and leaves
    the store without a run and without metadata, or it ends with the run
    directory of the topic as the current run, metadata in memory that say
    [running] under that topic, and [pages.jsonl] in place. *)
Theorem initialize_all_or_nothing now ctx (w : world) :
  currentRunPath w = None ->
  let tp := string_or (ctx_topic ctx) "unnamed_research" in
  let run := join BASE_DIR (getRunDirectoryName now tp) in
  exists w',
    initialize faulty now ctx w = (Done tt, w') /\
    same_queue w w' /\
    ((currentRunPath w' = None /\ metaData w' = None) \/
     (currentRunPath w' = Some run /\
      (exists m, metaData w' = Some m /\ m_status m = running /\
                 topic m = tp) /\
      has_pages run w')).
Proof.
  intros Hnone tp run.
  pose proof (initialize_spec now ctx w Hnone w eq_refl) as H.
  destruct (initialize faulty now ctx w) as [[[]| |] w']; try contradiction.
  exists w'. split; [reflexivity|].
  destruct H as [(Hq & Hr & Hm) | ((Hq & Hr & Hm) & Hp)]; auto 10.
Qed.

(** X17. [saveQuestionTree] returns, its answer is [true] exactly when a
    run is initialised and its argument is an array, and [questions.json] of
    the run is after the call what it was before: the answer does not tell
    whether the tree was written. *)
Theorem saveQuestionTree_reports_success questionTree (w : world) :
  exists w',
    saveQuestionTree faulty questionTree w =
      (Done (bool_decide (is_Some (currentRunPath w)) && isArray questionTree),
       w') /\
    (forall run, currentRunPath w = Some run ->
       files w' !! questionsPath run = files w !! questionsPath run).
Proof.
  destruct (saveQuestionTree_runs questionTree w) as (w' & E & _ & Hf).
  exists w'. split; [exact E|]. intros run Hrun. apply (Hf run Hrun).
Qed.

(** X18. [flush] on an idle store returns, changes no file, sets
    [shutdownRequested] and leaves the store idle; every [savePageResult]
    and [saveSynthesis] after it answers [false] and changes nothing. *)
Theorem flush_closes_store (w : world) :
  idle w ->
  exists w',
    flush faulty w = (Done tt, w') /\
    files w' = files w /\ shutdownRequested w' = true /\ idle w' /\
    forall v, savePageResult faulty v w' = (Done false, w') /\
              saveSynthesis faulty v w' = (Done false, w').
Proof.
  intros (Hq & Hp & Hfl & Hs).
  pose proof (flush_spec w Hfl Hq w eq_refl) as H.
  destruct (flush faulty w) as [[[]| |] w']; try contradiction.
  destruct H as (Hf & Hr & Hm & Hsd' & Hfl' & Hq' & Hp' & Ht' & Hs').
  exists w'. split_and!; auto.
  - unfold idle. rewrite Ht', Hs'. split_and!; congruence.
  - intros v. split; apply enqueue_refused; auto.
Qed.

(** X25. The answer of [savePageResult] can be trusted.  On an idle
    store the call returns; when it answers [true] the page object is the
    new last line of [pages.jsonl] of the current run and the page count in
    memory is one more; when it answers [false], [pages.jsonl] and the
    metadata in memory are what they were. *)
Theorem savePageResult_tells_the_truth (pageObject : value) (w : world) :
  idle w ->
  exists b w',
    savePageResult faulty pageObject w = (Done b, w') /\ idle w' /\
    if b
    then exists run,
           currentRunPath w = Some run /\
           files w' !! pagesPath run =
             Some (default [] (files w !! pagesPath run) ++ [pageObject]) /\
           (pageCount <$> metaData w') = (Z.succ <$> (pageCount <$> metaData w))
    else (forall run, currentRunPath w = Some run ->
            files w' !! pagesPath run = files w !! pagesPath run) /\
         metaData w' = metaData w.
Proof.
  intros Hidle. unfold savePageResult.
  destruct (currentRunPath w) as [run|] eqn:Hrun.
  2:{ exists false, w. rewrite enqueue_refused by (left; exact Hrun).
      split_and!; auto; intros run [=]. }
  destruct (not_an_object pageObject) eqn:Hobj.
  { exists false, w. rewrite enqueue_refused by (right; left; exact Hobj).
    split_and!; auto. }
  destruct (shutdownRequested w) eqn:Hsd.
  { exists false, w. rewrite enqueue_refused by (right; right; exact Hsd).
    split_and!; auto. }
  destruct (enqueue_runs page pageObject w run Hidle Hrun Hsd Hobj)
    as (b & w' & E & Hidle' & _ & _ & -> & Hfiles).
  exists (negb (faulty (fs_calls w))), w'. split_and!; [exact E | exact Hidle' |].
  destruct (faulty (fs_calls w)); cbn [negb].
  - destruct Hfiles as (Hf & Hm). split; [|exact Hm].
    intros run' [= <-]. exact Hf.
  - destruct Hfiles as (Hf & Hm). exists run. split_and!; [reflexivity | exact Hf |].
    rewrite Hm. destruct (metaData w) as [m|]; cbn; [|reflexivity].
    f_equal.
Qed.

End StorageLogic.

Section StorageLogicRuns.
Import Storage Examples.

Lemma store_calls_return_witness :
  exists w', serve_all flaky session_of_calls fresh = (Done tt, w') /\ idle w'.
Proof.
  apply (store_calls_return flaky session_of_calls fresh).
  unfold idle. cbn. repeat split. constructor.
Defined.

Lemma page_log_append_only_witness :
  let w := (initialize no_faults now ctx fresh).2 in
  exists w' lines,
    serve_all no_faults (tail session_of_calls) w = (Done tt, w') /\
    currentRunPath w' = Some run_dir /\
    default [] (files w' !! pagesPath run_dir) =
      default [] (files w !! pagesPath run_dir) ++ lines /\
    (pageCount <$> metaData w') =
      (fun n => n + Z.of_nat (length lines)) <$> (pageCount <$> metaData w) /\
    lines `sublist_of` pages_of (tail session_of_calls).
Proof.
  intros w.
  apply (page_log_append_only no_faults (tail session_of_calls) w run_dir).
  - unfold idle. vm_compute. repeat split. constructor.
  - vm_compute. reflexivity.
Defined.

Lemma initialize_all_or_nothing_witness :
  exists w',
    initialize flaky now ctx fresh = (Done tt, w') /\
    same_queue fresh w' /\
    ((currentRunPath w' = None /\ metaData w' = None) \/
     (currentRunPath w' = Some (join BASE_DIR
                                  (getRunDirectoryName now "Solar power")) /\
      (exists m, metaData w' = Some m /\ m_status m = running /\
                 topic m = "Solar power"%string) /\
      has_pages (join BASE_DIR (getRunDirectoryName now "Solar power")) w')).
Proof.
  apply (initialize_all_or_nothing flaky now ctx fresh). reflexivity.
Defined.

Lemma flush_closes_store_witness :
  let w := (initialize no_faults now ctx fresh).2 in
  exists w',
    flush no_faults w = (Done tt, w') /\
    files w' = files w /\ shutdownRequested w' = true /\ idle w' /\
    forall v, savePageResult no_faults v w' = (Done false, w') /\
              saveSynthesis no_faults v w' = (Done false, w').
Proof.
  intros w. apply (flush_closes_store no_faults w).
  unfold idle. vm_compute. repeat split. constructor.
Defined.

Lemma savePageResult_tells_the_truth_witness :
  let w := (initialize no_faults now ctx fresh).2 in
  exists b w',
    savePageResult no_faults page1 w = (Done b, w') /\ idle w' /\
    if b
    then exists run,
           currentRunPath w = Some run /\
           files w' !! pagesPath run =
             Some (default [] (files w !! pagesPath run) ++ [page1]) /\
           (pageCount <$> metaData w') = (Z.succ <$> (pageCount <$> metaData w))
    else (forall run, currentRunPath w = Some run ->
            files w' !! pagesPath run = files w !! pagesPath run) /\
         metaData w' = metaData w.
Proof.
  intros w. apply (savePageResult_tells_the_truth no_faults page1 w).
  unfold idle. vm_compute. repeat split. constructor.
Defined.

End StorageLogicRuns.

(** ** The run store: the name of the run directory *)

Section FilenameFacts.
Import Storage Examples.

Lemma collapse_step c d l :
  collapse (c :: d :: l) =
  if Url.is_char "_" c && Url.is_char "_" d
  then collapse (d :: l) else c :: collapse (d :: l).
Proof. reflexivity. Qed.

Lemma collapse_cons c l :
  exists l', collapse (c :: l) = c :: l' /\
             (forall d r, l' = d :: r ->
                Url.is_char "_" c && Url.is_char "_" d = false).
Proof.
  revert c. induction l as [|d l IH]; intros c.
  - exists []. split; [reflexivity | discriminate].
  - rewrite collapse_step.
    destruct (IH d) as (l' & Hl' & Hnext).
    destruct (Url.is_char "_" c && Url.is_char "_" d) eqn:E.
    + apply andb_true_iff in E as (Ec & Ed).
      unfold Url.is_char in Ec, Ed. apply Ascii.eqb_eq in Ec, Ed. subst c d.
      exists l'. split; [exact Hl' | exact Hnext].
    + exists (d :: l'). split; [rewrite <- Hl'; reflexivity|].
      intros d' r [= <- <-]. exact E.
Qed.

Lemma double_underscore_step c d l :
  double_underscore (c :: d :: l) =
  (Url.is_char "_" c && Url.is_char "_" d) || double_underscore (d :: l).
Proof. reflexivity. Qed.

Lemma collapse_no_double l : double_underscore (collapse l) = false.
Proof.
  induction l as [|c l IH]; [reflexivity|].
  destruct l as [|d l]; [reflexivity|].
  rewrite collapse_step.
  destruct (Url.is_char "_" c && Url.is_char "_" d) eqn:E; [exact IH|].
  destruct (collapse_cons d l) as (l' & Hl' & _).
  rewrite Hl' in *. rewrite double_underscore_step, E, IH. reflexivity.
Qed.

Lemma collapse_chars (P : ascii -> bool) l :
  forallb P l = true -> forallb P (collapse l) = true.
Proof.
  induction l as [|c l IH]; [auto|]. intros H.
  cbn [forallb] in H. apply andb_true_iff in H as (Hc & Hl).
  destruct l as [|d l]; [cbn; rewrite Hc; reflexivity|].
  rewrite collapse_step. destruct (_ && _); [apply IH, Hl|].
  cbn [forallb]. rewrite Hc. apply IH, Hl.
Qed.

Lemma drop_underscores_suffix l : exists p, l = p ++ drop_underscores l.
Proof.
  induction l as [|c l (p & IH)]; [exists []; reflexivity|].
  cbn [drop_underscores]. destruct (Url.is_char "_" c).
  - exists (c :: p). cbn. rewrite <- IH. reflexivity.
  - exists []. reflexivity.
Qed.

Lemma drop_underscores_head l c r :
  drop_underscores l = c :: r -> Url.is_char "_" c = false.
Proof.
  induction l as [|x l IH]; [discriminate|].
  cbn [drop_underscores]. destruct (Url.is_char "_" x) eqn:E; [exact IH|].
  intros [= <- <-]. exact E.
Qed.

Lemma double_underscore_app a b :
  double_underscore (a ++ b) = false ->
  double_underscore a = false /\ double_underscore b = false.
Proof.
  induction a as [|c a IH]; [cbn; auto|].
  destruct a as [|d a].
  - change ([c] ++ b) with (c :: b). intros H. split; [reflexivity|].
    destruct b as [|d b]; [reflexivity|].
    rewrite double_underscore_step in H.
    apply orb_false_iff in H as (_ & H). exact H.
  - change ((c :: d :: a) ++ b) with (c :: d :: (a ++ b)).
    rewrite !double_underscore_step. intros H.
    apply orb_false_iff in H as (Hcd & H).
    destruct (IH H) as (Ha & Hb). rewrite Hcd, Ha. auto.
Qed.

Lemma double_underscore_snoc l c d :
  double_underscore ((l ++ [c]) ++ [d]) =
  double_underscore (l ++ [c]) || (Url.is_char "_" c && Url.is_char "_" d).
Proof.
  induction l as [|x l IH].
  - cbn. rewrite !orb_false_r. reflexivity.
  - destruct l as [|y l].
    + change (([x] ++ [c]) ++ [d]) with (x :: c :: [d]).
      change ([x] ++ [c]) with (x :: [c]).
      rewrite !double_underscore_step. cbn. rewrite !orb_false_r. reflexivity.
    + change (((x :: y :: l) ++ [c]) ++ [d])
        with (x :: y :: ((l ++ [c]) ++ [d])).
      change ((x :: y :: l) ++ [c]) with (x :: y :: (l ++ [c])).
      rewrite !(double_underscore_step x y).
      change (y :: (l ++ [c]) ++ [d]) with (((y :: l) ++ [c]) ++ [d]).
      change (y :: l ++ [c]) with ((y :: l) ++ [c]).
      rewrite IH, orb_assoc. reflexivity.
Qed.

Lemma double_underscore_rev l :
  double_underscore (rev l) = double_underscore l.
Proof.
  induction l as [|c l IH]; [reflexivity|].
  destruct l as [|d l]; [reflexivity|].
  rewrite double_underscore_step, <- IH.
  change (rev (c :: d :: l)) with ((rev l ++ [d]) ++ [c]).
  change (rev (d :: l)) with (rev l ++ [d]).
  rewrite double_underscore_snoc, orb_comm. f_equal. apply andb_comm.
Qed.

(** The name without the fallback. *)
Lemma sanitize_shape (l : list ascii) :
  let replaced :=
    map (fun c => if Url.is_lower c || Url.is_digit c then c else "_"%char)
        (map Url.to_lower l) in
  let name :=
    take 100 (rev (drop_underscores (rev (drop_underscores (collapse replaced))))) in
  forallb name_char name = true /\
  double_underscore name = false /\
  (forall c r, name = c :: r -> Url.is_char "_" c = false) /\
  (length name <= 100)%nat.
Proof.
  intros replaced name.
  set (a := collapse replaced) in *.
  set (b := drop_underscores a) in *.
  set (c := drop_underscores (rev b)) in *.
  assert (Ha : forallb name_char a = true /\ double_underscore a = false).
  { split; [|apply collapse_no_double].
    apply collapse_chars. unfold replaced. rewrite forallb_forall.
    intros x Hx. apply in_map_iff in Hx as (y & <- & _).
    unfold name_char. destruct (Url.is_lower y || Url.is_digit y) eqn:E.
    - rewrite E. reflexivity.
    - rewrite orb_true_r. reflexivity. }
  destruct Ha as (Ha1 & Ha2).
  destruct (drop_underscores_suffix a) as (p & Hp). fold b in Hp.
  assert (Hb : forallb name_char b = true /\ double_underscore b = false).
  { rewrite Hp in Ha1, Ha2. rewrite forallb_app in Ha1.
    apply andb_true_iff in Ha1 as (_ & Ha1).
    apply double_underscore_app in Ha2 as (_ & Ha2). auto. }
  destruct Hb as (Hb1 & Hb2).
  destruct (drop_underscores_suffix (rev b)) as (q & Hq). fold c in Hq.
  assert (Hbc : b = rev c ++ rev q).
  { rewrite <- rev_app_distr, <- Hq, rev_involutive. reflexivity. }
  assert (Hc : forallb name_char (rev c) = true /\
               double_underscore (rev c) = false).
  { rewrite Hbc in Hb1, Hb2. rewrite forallb_app in Hb1.
    apply andb_true_iff in Hb1 as (Hb1 & _).
    apply double_underscore_app in Hb2 as (Hb2 & _). auto. }
  destruct Hc as (Hc1 & Hc2).
  assert (Hhead : forall x r, rev c = x :: r -> Url.is_char "_" x = false).
  { intros x r Hx. destruct c as [|y c'] eqn:Ec; [discriminate|].
    (* [rev c] is not empty, so its head is the head of [b] *)
    destruct b as [|x' b'] eqn:Eb.
    - apply (f_equal (@length ascii)) in Hbc. rewrite length_app in Hbc.
      rewrite Hx in Hbc. cbn in Hbc. lia.
    - rewrite Hx in Hbc. injection Hbc as -> _.
      eapply drop_underscores_head. exact Eb. }
  unfold name. rewrite <- (take_drop 100 (rev c)) in Hc1, Hc2.
  rewrite forallb_app in Hc1. apply andb_true_iff in Hc1 as (Hc1 & _).
  apply double_underscore_app in Hc2 as (Hc2 & _).
  split_and!; auto.
  - intros x r Hx. destruct (rev c) as [|x' r'] eqn:Er; [discriminate|].
    cbn in Hx. injection Hx as <- _. apply (Hhead x' r' eq_refl).
  - rewrite length_take. lia.
Qed.


(** X19. For an ASCII string, the name that [sanitizeFilename] returns
    is made of the characters [a-z0-9_], has between 1 and 100 characters,
    has no two underscores in a row and does not start with an
    underscore. *)
Theorem sanitizeFilename_is_safe (str : string) :
  Url.is_ascii (list_ascii_of_string str) = true ->
  let name := list_ascii_of_string (sanitizeFilename str) in
  forallb name_char name = true /\
  double_underscore name = false /\
  (1 <= length name <= 100)%nat /\
  (forall c r, name = c :: r -> Url.is_char "_" c = false).
Proof.
  intros _ name.
  destruct (sanitize_shape (list_ascii_of_string str)) as (H1 & H2 & H3 & H4).
  unfold name, sanitizeFilename.
  destruct (take 100 _) as [|c l] eqn:E.
  - split_and!; try reflexivity; try (cbn; lia).
    intros c r [= <- _]. reflexivity.
  - rewrite list_ascii_of_string_of_list_ascii.
    split_and!; auto. cbn. lia.
Qed.

Lemma sanitized_chars (str : string) :
  forallb name_char (list_ascii_of_string (sanitizeFilename str)) = true /\
  (1 <= length (list_ascii_of_string (sanitizeFilename str)))%nat.
Proof.
  destruct (sanitize_shape (list_ascii_of_string str)) as (H1 & _ & _ & _).
  unfold sanitizeFilename.
  destruct (take 100 _) as [|c l] eqn:E.
  - split; [reflexivity | cbn; lia].
  - rewrite list_ascii_of_string_of_list_ascii. split; [exact H1 | cbn; lia].
Qed.

Lemma no_slash_name l : forallb name_char l = true -> no_slash l = true.
Proof.
  unfold no_slash. rewrite !forallb_forall. intros H c Hc.
  specialize (H c Hc). unfold name_char in H.
  destruct (Url.is_char "/" c) eqn:E; [|reflexivity].
  unfold Url.is_char in E. apply Ascii.eqb_eq in E. subst c. discriminate H.
Qed.

Lemma no_slash_replace_first_T l :
  no_slash l = true -> no_slash (replace_first_T l) = true.
Proof.
  unfold no_slash. induction l as [|c l IH]; [auto|].
  cbn [replace_first_T forallb]. intros H.
  apply andb_true_iff in H as (Hc & Hl).
  destruct (Url.is_char "T" c); cbn [forallb].
  - rewrite Hl. reflexivity.
  - rewrite Hc. apply IH, Hl.
Qed.

Lemma list_ascii_of_string_app (a b : string) :
  list_ascii_of_string (a +:+ b) =
  list_ascii_of_string a ++ list_ascii_of_string b.
Proof.
  induction a as [|x a IH]; [reflexivity|].
  change (String x a +:+ b)%string with (String x (a +:+ b)).
  cbn. rewrite IH. reflexivity.
Qed.

(** X20. For an ASCII topic and a clock string without a slash, the run
    directory is [runs/] followed by a name that has no slash in it and at
    least three characters: whatever the topic, the run is one directory
    directly under [runs]. *)
Theorem run_directory_is_one_component (now topic : string) :
  Url.is_ascii (list_ascii_of_string topic) = true ->
  no_slash (list_ascii_of_string now) = true ->
  let name := getRunDirectoryName now topic in
  join BASE_DIR name = ("runs/" +:+ name)%string /\
  no_slash (list_ascii_of_string name) = true /\
  (3 <= length (list_ascii_of_string name))%nat.
Proof.
  intros Hascii Hnow name.
  destruct (sanitized_chars topic) as (H1 & Hlen).
  split; [reflexivity|].
  unfold name, getRunDirectoryName.
  rewrite !list_ascii_of_string_app, list_ascii_of_string_of_list_ascii.
  split.
  - assert (Hd : no_slash (map (fun c => if Url.one_of [":"; "."]%char c
                                         then "-"%char else c)
                             (list_ascii_of_string now)) = true).
    { unfold no_slash in *. rewrite forallb_forall in *.
      intros c Hc. apply in_map_iff in Hc as (x & <- & Hx).
      destruct (Url.one_of _ x); [reflexivity | apply Hnow, Hx]. }
    apply no_slash_replace_first_T in Hd.
    pose proof (no_slash_name _ H1) as Hs.
    unfold no_slash in *.
    rewrite <- (take_drop 19 (replace_first_T _)) in Hd.
    rewrite forallb_app in Hd. apply andb_true_iff in Hd as (Hd & _).
    rewrite !forallb_app, Hs, Hd. reflexivity.
  - rewrite !length_app. cbn. lia.
Qed.

Lemma sanitizeFilename_is_safe_witness :
  sanitizeFilename "../../Etc/Passwd  (2026)!" = "etc_passwd_2026"%string /\
  let name := list_ascii_of_string (sanitizeFilename "../../Etc/Passwd  (2026)!") in
  forallb name_char name = true /\
  double_underscore name = false /\
  (1 <= length name <= 100)%nat /\
  (forall c r, name = c :: r -> Url.is_char "_" c = false).
Proof.
  split; [vm_compute; reflexivity|].
  apply (sanitizeFilename_is_safe "../../Etc/Passwd  (2026)!").
  vm_compute; reflexivity.
Defined.

Lemma run_directory_is_one_component_witness :
  let name := getRunDirectoryName now "../../etc/passwd" in
  name = "etc_passwd_2026-01-15_10-30-00Z"%string /\
  join BASE_DIR name = ("runs/" +:+ name)%string /\
  no_slash (list_ascii_of_string name) = true /\
  (3 <= length (list_ascii_of_string name))%nat.
Proof.
  intros name. split; [vm_compute; reflexivity|].
  apply (run_directory_is_one_component now "../../etc/passwd");
    vm_compute; reflexivity.
Defined.

End FilenameFacts.

(** ** The question generator *)

Section QuestionFacts.
Import Questions.

(** *** The hash *)

Lemma toInt32_range z : -2147483648 <= toInt32 z < 2147483648.
Proof.
  unfold toInt32.
  pose proof (Z.mod_pos_bound (z + 2147483648) 4294967296 ltac:(lia)). lia.
Qed.

Lemma toInt32_small z : -2147483648 <= z < 2147483648 -> toInt32 z = z.
Proof. intros H. unfold toInt32. rewrite Z.mod_small by lia. lia. Qed.

Lemma toInt32_mod z : toInt32 z mod 4294967296 = z mod 4294967296.
Proof.
  unfold toInt32.
  rewrite Zminus_mod, Zmod_mod, <- Zminus_mod. f_equal. lia.
Qed.

Lemma toInt32_eq a b :
  a mod 4294967296 = b mod 4294967296 -> toInt32 a = toInt32 b.
Proof.
  intros H. unfold toInt32. f_equal.
  rewrite (Zplus_mod a), (Zplus_mod b), H. reflexivity.
Qed.

Lemma hash_step_spec h c :
  -2147483648 <= h < 2147483648 ->
  hash_step h c = toInt32 (31 * h + c).
Proof.
  intros Hh. unfold hash_step, and32, shl.
  rewrite Z.land_diag. change (Z.land 5 31) with 5.
  rewrite (toInt32_small h Hh), Z.shiftl_mul_pow2 by lia.
  apply toInt32_eq.
  rewrite (Zplus_mod (toInt32 (h * 2 ^ 5) - h)), (Zminus_mod (toInt32 _)).
  rewrite toInt32_mod, <- Zminus_mod, <- Zplus_mod. f_equal. lia.
Qed.

Lemma fold_hash_spec str : forall h acc,
  -2147483648 <= h < 2147483648 ->
  h = toInt32 acc ->
  fold_left hash_step str h =
  toInt32 (fold_left (fun acc c => 31 * acc + c) str acc).
Proof.
  induction str as [|c str IH]; intros h acc Hh Hacc; cbn [fold_left].
  - exact Hacc.
  - apply IH.
    + rewrite hash_step_spec by exact Hh. apply toInt32_range.
    + rewrite hash_step_spec by exact Hh. apply toInt32_eq.
      rewrite Hacc.
      rewrite (Zplus_mod (31 * toInt32 acc)), (Zmult_mod 31 (toInt32 acc)).
      rewrite toInt32_mod, <- Zmult_mod, <- Zplus_mod. reflexivity.
Qed.

(** X21. [deterministicHash] is the polynomial hash with base 31 of the
    code units, reduced modulo 2^32 to a signed 32-bit number, in absolute
    value; it lies between 0 and 2^31, both included. *)
Theorem deterministicHash_is_polynomial (str : list Z) :
  deterministicHash str = Z.abs (toInt32 (polynomial str)) /\
  0 <= deterministicHash str <= 2147483648.
Proof.
  assert (H : deterministicHash str = Z.abs (toInt32 (polynomial str))).
  { unfold deterministicHash, polynomial. f_equal.
    apply fold_hash_spec; [lia | reflexivity]. }
  split; [exact H|]. rewrite H.
  pose proof (toInt32_range (polynomial str)). lia.
Qed.

Lemma deterministicHash_nonneg str : 0 <= deterministicHash str.
Proof. unfold deterministicHash. apply Z.abs_nonneg. Qed.

Lemma deterministicIndex_bound (seed : list Z) (length : Z) :
  0 < length ->
  0 <= deterministicIndex seed length < length.
Proof.
  intros Hl. unfold deterministicIndex.
  destruct (Z.eqb_spec length 0) as [|_]; [lia|].
  pose proof (deterministicHash_nonneg seed).
  pose proof (Z.rem_bound_pos (deterministicHash seed) length ltac:(lia) Hl).
  lia.
Qed.

Lemma deterministicChoice_member {A} seed (options : list A) :
  options <> [] ->
  exists x, deterministicChoice seed options = Some x /\ x ∈ options.
Proof.
  intros Hne. unfold deterministicChoice.
  destruct options as [|o options]; [contradiction|].
  set (l := o :: options) in *.
  assert (Hi : 0 <= deterministicIndex seed (Z.of_nat (length l))
               < Z.of_nat (length l)).
  { apply deterministicIndex_bound. subst l; cbn [length]; lia. }
  destruct (l !! Z.to_nat (deterministicIndex seed (Z.of_nat (length l))))
    as [x|] eqn:Hx.
  - exists x. split; [reflexivity|]. eapply list_elem_of_lookup_2, Hx.
  - apply lookup_ge_None in Hx. lia.
Qed.

(** X22. An index drawn for a length [n > 0] lies in [0, n), whatever the
    seed; so a choice among options, of which there is at least one, is one
    of the options, never [null] or [undefined]. *)
Theorem deterministicIndex_in_range {A} (seed : list Z) (options : list A) :
  options <> [] ->
  0 <= deterministicIndex seed (Z.of_nat (length options))
    < Z.of_nat (length options) /\
  exists x, deterministicChoice seed options = Some x /\ x ∈ options.
Proof.
  intros Hne. split.
  - apply deterministicIndex_bound.
    destruct options; [contradiction | cbn [length]; lia].
  - apply deterministicChoice_member, Hne.
Qed.

Lemma deterministicIndex_in_range_witness :
  deterministicIndex (units "Solar powerimpactRisk") 2 = 1 /\
  deterministicChoice (units "Solar powerimpactRisk") [impact; risk]
    = Some risk /\
  0 <= deterministicIndex (units "Solar powerimpactRisk")
         (Z.of_nat (length [impact; risk]))
    < Z.of_nat (length [impact; risk]) /\
  exists x, deterministicChoice (units "Solar powerimpactRisk") [impact; risk]
              = Some x /\ x ∈ [impact; risk].
Proof.
  split; [vm_compute; reflexivity|]. split; [vm_compute; reflexivity|].
  apply (deterministicIndex_in_range (units "Solar powerimpactRisk")
           [impact; risk]).
  discriminate.
Defined.

(** *** The shuffle *)

Lemma lcg_nonneg h : 0 <= lcg h.
Proof.
  unfold lcg, and32. apply Z.land_nonneg. right.
  rewrite toInt32_small; lia.
Qed.

Lemma insert_swap_perm {A} (a b : A) (l : list A) : forall j,
  l !! j = Some b -> b :: <[j := a]> l ≡ₚ a :: l.
Proof.
  induction l as [|x l IH]; intros [|j]; cbn; try discriminate.
  - intros [= ->]. apply Permutation_swap.
  - intros Hj. etrans; [apply Permutation_swap|].
    rewrite (IH j Hj). apply Permutation_swap.
Qed.

Lemma swap_perm {A} (l : list A) : forall i j l',
  swap i j l = Some l' -> l' ≡ₚ l.
Proof.
  unfold swap. induction l as [|x l IH]; intros i j l'.
  - destruct i; discriminate.
  - destruct i as [|i], j as [|j]; cbn.
    + intros [= <-]. reflexivity.
    + destruct (l !! j) as [b|] eqn:Hj; [|discriminate].
      intros [= <-]. apply insert_swap_perm, Hj.
    + destruct (l !! i) as [a|] eqn:Hi; [|discriminate].
      intros [= <-]. apply insert_swap_perm, Hi.
    + specialize (IH i j).
      destruct (l !! i) as [a|]; [|discriminate].
      destruct (l !! j) as [b|]; [|discriminate].
      intros [= <-]. apply Permutation_skip, (IH _ eq_refl).
Qed.

Lemma swap_defined {A} (l : list A) i j :
  (i < length l)%nat -> (j < length l)%nat -> is_Some (swap i j l).
Proof.
  intros Hi Hj. unfold swap.
  destruct (lookup_lt_is_Some_2 l i Hi) as (a & ->).
  destruct (lookup_lt_is_Some_2 l j Hj) as (b & ->). eauto.
Qed.

Lemma shuffle_from_perm {A} i : forall hash (l : list A),
  (i < length l)%nat ->
  exists l', shuffle_from i hash l = Some l' /\ l' ≡ₚ l.
Proof.
  induction i as [|i IH]; intros hash l Hi; cbn [shuffle_from].
  - exists l. split; reflexivity.
  - set (j := Z.to_nat (Z.rem (lcg hash) (Z.of_nat (S i) + 1))).
    assert (Hj : (j <= S i)%nat).
    { subst j. pose proof (lcg_nonneg hash).
      pose proof (Z.rem_bound_pos (lcg hash) (Z.of_nat (S i) + 1)
                    ltac:(lia) ltac:(lia)). lia. }
    destruct (swap_defined l (S i) j Hi ltac:(lia)) as (l1 & Hswap).
    rewrite Hswap. pose proof (swap_perm _ _ _ _ Hswap) as Hperm.
    destruct (IH (lcg hash) l1) as (l' & Hl' & Hperm').
    { rewrite (Permutation_length Hperm). lia. }
    exists l'. split; [exact Hl'|]. rewrite Hperm'. exact Hperm.
Qed.

Lemma shuffled {A} (array : list A) (seed : list Z) :
  exists result,
    deterministicShuffle array seed = Some result /\ result ≡ₚ array.
Proof.
  destruct array as [|x array]; [exists []; split; reflexivity|].
  apply shuffle_from_perm. cbn. lia.
Qed.

(** X23. [deterministicShuffle] returns a rearrangement of its argument:
    every swap is within the array, and the result has the elements of the
    argument, each as often as the argument has it. *)
Theorem deterministicShuffle_permutes {A} (array : list A) (seed : list Z) :
  exists result,
    deterministicShuffle array seed = Some result /\ result ≡ₚ array.
Proof.
  unfold deterministicShuffle. destruct array as [|x array].
  - exists []. split; reflexivity.
  - apply shuffle_from_perm. cbn. lia.
Qed.

End QuestionFacts.

Section PlanFacts.
Import Questions.

Variable toLowerCase : string -> string.

Lemma filter_partition {A} (f : A -> bool) (l : list A) :
  List.filter f l ++ List.filter (fun x => negb (f x)) l ≡ₚ l.
Proof.
  induction l as [|x l IH]; [reflexivity|].
  cbn [List.filter]. destruct (f x); cbn [negb app].
  - apply Permutation_skip, IH.
  - rewrite <- Permutation_middle. apply Permutation_skip, IH.
Qed.

Ltac distinct_intents :=
  repeat (apply NoDup_cons; split;
          [rewrite ?elem_of_cons, elem_of_nil; intuition discriminate|]);
  apply NoDup_nil_2.

Ltac same_intents :=
  let x := fresh "x" in
  intros x; destruct x;
  (split; intros _; repeat first [apply list_elem_of_here | apply list_elem_of_further]).

Lemma required_and_remaining a b :
  a ∈ [impact; risk] -> b ∈ [implementation; comparison] ->
  [definition; analysis; a; b] ++
  List.filter (fun i => negb (existsb (intent_eqb i) [definition; analysis; a; b]))
    VALID_INTENTS ≡ₚ VALID_INTENTS.
Proof.
  intros Ha Hb.
  apply elem_of_cons in Ha as [-> | Ha];
    [|apply list_elem_of_singleton in Ha as ->];
    (apply elem_of_cons in Hb as [-> | Hb];
     [|apply list_elem_of_singleton in Hb as ->]);
    cbn; (apply NoDup_Permutation; [distinct_intents | distinct_intents | same_intents]).
Qed.

(** X24. Whatever the instruction and the seed, the intent plan has each
    of the eight intents exactly once: [definition] and [analysis] first,
    then [impact] or [risk], then [implementation] or [comparison], then the
    four that are left. *)
Theorem buildIntentPlan_covers_every_intent
    (extraInstruction : option string) (seed : string) :
  exists plan,
    buildIntentPlan toLowerCase extraInstruction seed = Some plan /\
    plan ≡ₚ VALID_INTENTS /\
    take 2 plan = [definition; analysis] /\
    (plan !! 2%nat = Some impact \/ plan !! 2%nat = Some risk) /\
    (plan !! 3%nat = Some implementation \/ plan !! 3%nat = Some comparison).
Proof.
  unfold buildIntentPlan.
  destruct (deterministicChoice_member (units (seed +:+ "impactRisk"))
              [impact; risk] ltac:(discriminate)) as (a & -> & Ha).
  destruct (deterministicChoice_member (units (seed +:+ "implComp"))
              [implementation; comparison] ltac:(discriminate)) as (b & -> & Hb).
  cbn [mbind option_bind].
  pose proof (required_and_remaining a b Ha Hb) as Hrem.
  set (required := [definition; analysis; a; b]) in *.
  set (remaining := List.filter _ VALID_INTENTS) in *.
  set (parts := if Fetcher.truthy extraInstruction then _ else _).
  assert (Hparts : parts.1 ++ parts.2 ≡ₚ remaining).
  { subst parts. destruct (Fetcher.truthy extraInstruction); cbn [fst snd].
    - apply filter_partition.
    - reflexivity. }
  destruct parts as [prioritized unprioritized]. cbn [fst snd] in Hparts.
  destruct (shuffled prioritized (units (seed +:+ "prioritized")))
    as (sp & -> & Hsp).
  destruct (shuffled unprioritized (units (seed +:+ "unprioritized")))
    as (su & -> & Hsu).
  cbn [mbind option_bind].
  eexists. split; [reflexivity|]. split_and!.
  - rewrite Hsp, Hsu, Hparts. exact Hrem.
  - reflexivity.
  - apply elem_of_cons in Ha as [-> | Ha];
      [left | right; apply list_elem_of_singleton in Ha as ->]; reflexivity.
  - apply elem_of_cons in Hb as [-> | Hb];
      [left | right; apply list_elem_of_singleton in Hb as ->]; reflexivity.
Qed.

End PlanFacts.

Section NormalizeQuestionFacts.
Import Questions.

Ltac by_chars c :=
  destruct c as [[] [] [] [] [] [] [] []]; vm_compute;
  try reflexivity; try discriminate; try (intros; discriminate);
  try (intros; reflexivity); try tauto.

Lemma kept_lower_char c :
  is_word (Url.to_lower c) || is_space (Url.to_lower c) = true ->
  question_char (Url.to_lower c) || is_space (Url.to_lower c) = true.
Proof. by_chars c. Qed.

Lemma question_char_lower c : question_char c = true -> Url.to_lower c = c.
Proof. by_chars c. Qed.

Lemma question_char_kept c :
  question_char c = true -> is_word c || is_space c = true.
Proof. by_chars c. Qed.

Lemma question_char_space c :
  question_char c = true -> is_space c = true -> c = " "%char.
Proof. by_chars c. Qed.

Lemma adjacent_spaces_step c d l :
  adjacent_spaces (c :: d :: l) =
  (is_space c && is_space d) || adjacent_spaces (d :: l).
Proof. reflexivity. Qed.

(** *** The white space of a squeezed string *)

Lemma squeeze_chars b l :
  forallb (fun c => question_char c || is_space c) l = true ->
  forallb question_char (squeeze b l) = true.
Proof.
  revert b. induction l as [|c l IH]; intros b H; [reflexivity|].
  cbn [forallb] in H. apply andb_true_iff in H as (Hc & Hl).
  cbn [squeeze]. destruct (is_space c) eqn:Es.
  - destruct b; [apply IH, Hl|]. cbn [forallb]. rewrite (IH true Hl). reflexivity.
  - rewrite orb_false_r in Hc. cbn [forallb]. rewrite Hc. apply IH, Hl.
Qed.

Lemma squeeze_in_run l : starts_with_space (squeeze true l) = false.
Proof.
  induction l as [|c l IH]; [reflexivity|].
  cbn [squeeze]. destruct (is_space c) eqn:Es; [exact IH|].
  cbn. exact Es.
Qed.

Lemma adjacent_spaces_cons c l :
  adjacent_spaces (c :: l) =
  (is_space c && starts_with_space l) || adjacent_spaces l.
Proof.
  destruct l as [|d l]; [cbn; rewrite andb_false_r; reflexivity|].
  apply adjacent_spaces_step.
Qed.

Lemma squeeze_no_adjacent b l : adjacent_spaces (squeeze b l) = false.
Proof.
  revert b. induction l as [|c l IH]; intros b; [reflexivity|].
  cbn [squeeze]. destruct (is_space c) eqn:Es.
  - destruct b; [apply IH|].
    rewrite adjacent_spaces_cons, squeeze_in_run, IH, andb_false_r. reflexivity.
  - rewrite adjacent_spaces_cons, Es, IH. reflexivity.
Qed.

(** *** Trimming *)

Lemma trim_start_suffix l :
  exists p, l = p ++ trim_start l.
Proof.
  induction l as [|c l (p & IH)]; [exists []; reflexivity|].
  cbn [trim_start]. destruct (is_space c).
  - exists (c :: p). cbn. rewrite <- IH. reflexivity.
  - exists []. reflexivity.
Qed.

Lemma trim_start_head l : starts_with_space (trim_start l) = false.
Proof.
  induction l as [|c l IH]; [reflexivity|].
  cbn [trim_start]. destruct (is_space c) eqn:Es; [exact IH|]. cbn. exact Es.
Qed.

Lemma trim_start_fixed l : starts_with_space l = false -> trim_start l = l.
Proof. destruct l as [|c l]; [reflexivity|]. cbn. intros ->. reflexivity. Qed.

(** A trimmed string is a piece of the string, without white space at
    either end. *)
Lemma trim_piece l :
  (exists p q, l = p ++ trim l ++ q) /\
  starts_with_space (trim l) = false /\
  starts_with_space (rev (trim l)) = false.
Proof.
  unfold trim.
  destruct (trim_start_suffix l) as (p & Hp).
  destruct (trim_start_suffix (rev (trim_start l))) as (q & Hq).
  set (y := trim_start l) in *. set (z := trim_start (rev y)) in *.
  assert (Hy : y = rev z ++ rev q).
  { rewrite <- (rev_involutive y), Hq, rev_app_distr. reflexivity. }
  split_and!.
  - exists p, (rev q). rewrite <- Hy. exact Hp.
  - pose proof (trim_start_head l) as Hh. fold y in Hh. rewrite Hy in Hh.
    destruct (rev z) as [|c r]; [reflexivity|]. exact Hh.
  - rewrite rev_involutive. apply trim_start_head.
Qed.

Lemma trim_fixed l :
  starts_with_space l = false -> starts_with_space (rev l) = false ->
  trim l = l.
Proof.
  intros H1 H2. unfold trim.
  rewrite (trim_start_fixed l H1), (trim_start_fixed (rev l) H2).
  apply rev_involutive.
Qed.

Lemma adjacent_spaces_app a b :
  adjacent_spaces (a ++ b) = false ->
  adjacent_spaces a = false /\ adjacent_spaces b = false.
Proof.
  induction a as [|c a IH]; [cbn; auto|].
  change ((c :: a) ++ b) with (c :: (a ++ b)).
  rewrite !adjacent_spaces_cons. intros H.
  apply orb_false_iff in H as (Hc & H). destruct (IH H) as (Ha & Hb).
  split; [|exact Hb]. rewrite Ha, orb_false_r.
  destruct a as [|d a]; [apply andb_false_r | exact Hc].
Qed.

(** *** Strings that are normal already *)

Lemma squeeze_fixed l : forall b,
  forallb question_char l = true -> adjacent_spaces l = false ->
  (b = true -> starts_with_space l = false) ->
  squeeze b l = l.
Proof.
  induction l as [|c l IH]; intros b Hch Hadj Hb; [reflexivity|].
  cbn [forallb] in Hch. apply andb_true_iff in Hch as (Hc & Hl).
  rewrite adjacent_spaces_cons in Hadj.
  apply orb_false_iff in Hadj as (Hcd & Hadj).
  cbn [squeeze]. destruct (is_space c) eqn:Es.
  - destruct b; [specialize (Hb eq_refl); change (is_space c = false) in Hb; congruence|].
    rewrite (question_char_space c Hc Es). f_equal.
    apply IH; [exact Hl | exact Hadj | intros _; exact Hcd].
  - f_equal. apply IH; [exact Hl | exact Hadj | discriminate].
Qed.

Lemma forallb_map_fixed (f : ascii -> ascii) (P : ascii -> bool) l :
  (forall c, P c = true -> f c = c) -> forallb P l = true -> map f l = l.
Proof.
  intros Hf. induction l as [|c l IH]; [reflexivity|].
  cbn [forallb map]. intros H. apply andb_true_iff in H as (Hc & Hl).
  rewrite (Hf c Hc), (IH Hl). reflexivity.
Qed.

Lemma forallb_filter_fixed (P Q : ascii -> bool) l :
  (forall c, P c = true -> Q c = true) -> forallb P l = true ->
  List.filter Q l = l.
Proof.
  intros HPQ. induction l as [|c l IH]; [reflexivity|].
  cbn [forallb List.filter]. intros H. apply andb_true_iff in H as (Hc & Hl).
  rewrite (HPQ c Hc), (IH Hl). reflexivity.
Qed.

(** The list of characters that [normalizeQuestion] returns. *)
Lemma normal_shape (l : list ascii) :
  let out := trim (squeeze false
                     (List.filter (fun c => is_word c || is_space c)
                        (map Url.to_lower l))) in
  forallb question_char out = true /\
  adjacent_spaces out = false /\
  starts_with_space out = false /\
  starts_with_space (rev out) = false.
Proof.
  intros out.
  set (k := List.filter _ (map Url.to_lower l)) in *.
  assert (Hk : forallb (fun c => question_char c || is_space c) k = true).
  { subst k. apply forallb_forall. intros c Hc.
    apply filter_In in Hc as (Hin & Hkept).
    apply in_map_iff in Hin as (x & <- & _). apply kept_lower_char, Hkept. }
  pose proof (squeeze_chars false k Hk) as Hch.
  pose proof (squeeze_no_adjacent false k) as Hadj.
  destruct (trim_piece (squeeze false k)) as ((p & q & Hpq) & Hh & Hl).
  fold out in Hpq, Hh, Hl.
  rewrite Hpq in Hch, Hadj.
  rewrite !forallb_app in Hch.
  apply andb_true_iff in Hch as (_ & Hch).
  apply andb_true_iff in Hch as (Hch & _).
  apply adjacent_spaces_app in Hadj as (_ & Hadj).
  apply adjacent_spaces_app in Hadj as (Hadj & _).
  auto.
Qed.

(** X28. On ASCII strings [normalizeQuestion] is idempotent, and what it
    returns is made of the characters [a-z0-9_] and the space, without two
    spaces in a row and without a space at either end. *)
Theorem normalizeQuestion_idempotent (question : string) :
  Url.is_ascii (list_ascii_of_string question) = true ->
  let out := list_ascii_of_string (normalizeQuestion question) in
  normalizeQuestion (normalizeQuestion question) = normalizeQuestion question /\
  forallb question_char out = true /\
  adjacent_spaces out = false /\
  starts_with_space out = false /\
  starts_with_space (rev out) = false.
Proof.
  intros _ out.
  destruct (normal_shape (list_ascii_of_string question))
    as (Hch & Hadj & Hh & Hl).
  assert (Hout : out = trim (squeeze false
                     (List.filter (fun c => is_word c || is_space c)
                        (map Url.to_lower (list_ascii_of_string question))))).
  { unfold out, normalizeQuestion. apply list_ascii_of_string_of_list_ascii. }
  rewrite <- Hout in Hch, Hadj, Hh, Hl.
  split; [|auto].
  unfold normalizeQuestion at 1. fold out.
  rewrite (forallb_map_fixed Url.to_lower question_char out
             question_char_lower Hch).
  rewrite (forallb_filter_fixed question_char _ out question_char_kept Hch).
  rewrite (squeeze_fixed out false Hch Hadj ltac:(discriminate)).
  rewrite (trim_fixed out Hh Hl).
  unfold out. apply string_of_list_ascii_of_string.
Qed.

Lemma normalizeQuestion_idempotent_witness :
  normalizeQuestion "  What is  SOLAR-power (really)?  " = "what is solarpower really"%string /\
  normalizeQuestion (normalizeQuestion "  What is  SOLAR-power (really)?  ") = normalizeQuestion "  What is  SOLAR-power (really)?  ".
Proof.
  split; [vm_compute; reflexivity|].
  apply (normalizeQuestion_idempotent "  What is  SOLAR-power (really)?  ").
  vm_compute; reflexivity.
Defined.

End NormalizeQuestionFacts.


